(** * puzzlePrint: partition geometry, adjacency and snap matching

    A shallow embedding of [src/utils/puzzleGeometry.js], of the Redux slice,
    of the scatter / assemble / snap and pointer handlers, the preview of the
    cuts and the thumbnail size of [ImageManager.jsx], of the handlers of
    [ParameterPanel.jsx] and of the mesh data of the 3MF export.

    Numbers.  A JavaScript number is modelled as a real number ([R]): the
    arithmetic is exact, [Math.sin], [Math.cos], [Math.sqrt] and [Math.PI] are
    [sin], [cos], [sqrt] and [PI].  [Infinity] only occurs as the [distance] of
    a rejected candidate and has its own constructor ([JsDist]).  Integer
    valued numbers (grid sizes, columns, rows, indices, the [-1] sentinel) are
    [Z].  Rounding of IEEE doubles is outside this model: its statements are
    statements of exact arithmetic.  Where a claim is an identity between
    two computed values, which rounding can break, the module [Binary64]
    embeds the code over binary64 numbers and decides it there. *)

From Stdlib Require Import Reals ZArith List Bool Lra Lia.
From Stdlib Require String.
From Stdlib Require PrimFloat SpecFloat FloatOps.
Import ListNotations.
Import String.StringSyntax.
Import PrimFloat.PrimFloatNotations.

Delimit Scope string_scope with string.
Bind Scope string_scope with String.string.
Number Notation PrimFloat.float PrimFloat.parser PrimFloat.printer : float_scope.
Open Scope R_scope.

(** A decimal constant of a binary64 number is written as JavaScript prints
    it and stands for the nearest binary64 number. *)
Set Warnings "-inexact-float".

(* ================================================================== *)
(** ** JavaScript helpers *)
(* ================================================================== *)

(** Truncation towards zero, the quotient [%] uses on numbers. *)
Definition trunc (a : R) : Z :=
  if Rle_dec 0 a then Int_part a else (- Int_part (- a))%Z.

(** [a % b] on numbers: the remainder has the sign of the dividend. *)
Definition js_mod (a b : R) : R := a - b * IZR (trunc (a / b)).

Definition Rltb (a b : R) : bool := if Rlt_dec a b then true else false.
Definition Rleb (a b : R) : bool := if Rle_dec a b then true else false.

(** [r || 0] for a number [r]: [0] is the only falsy real. *)
Definition js_or0 (r : R) : R := if Req_dec_T r 0 then 0 else r.

(** [arr[k]] for a number [k]: [undefined] outside the array. *)
Definition js_get {A : Type} (arr : list A) (k : Z) : option A :=
  if (k <? 0)%Z then None else nth_error arr (Z.to_nat k).

(** [arr[k]] where [k] may be [undefined]. *)
Definition js_get_opt {A : Type} (arr : list A) (k : option Z) : option A :=
  match k with
  | Some i => js_get arr i
  | None => None
  end.

(** [arr.slice(1)] and [arr.slice(1, -1)]. *)
Definition slice1 {A : Type} (arr : list A) : list A := tl arr.
Definition slice1m1 {A : Type} (arr : list A) : list A := removelast (tl arr).

(** [for (let v = start; v < bound; v++) body]: the loop state is threaded
    through the iterations. *)
Fixpoint for_iter {S : Type} (n : nat) (v : Z) (body : Z -> S -> S) (s : S) : S :=
  match n with
  | O => s
  | Datatypes.S n' => for_iter n' (v + 1)%Z body (body v s)
  end.

Definition for_lt {S : Type} (start bound : Z) (body : Z -> S -> S) (s : S) : S :=
  for_iter (Z.to_nat (bound - start)) start body s.

(* ================================================================== *)
(** ** Boundary curve generator *)
(* ================================================================== *)

Inductive SplitMode : Type := straight | wave | zigzag.

(** [splitOffset(t, mode, amplitude)]; every mode but ['wave'] and ['zigzag']
    falls to the [default] branch. *)
Definition splitOffset (t : R) (mode : SplitMode) (amplitude : R) : R :=
  match mode with
  | wave => sin (t * PI * 4) * amplitude
  | zigzag =>
      let zt := js_mod (t * 8) 1 in
      (if Rltb zt 0.5 then zt * 2 else (1 - zt) * 2) * amplitude - amplitude * 0.5
  | straight => 0
  end.

Record Vector2 : Type := mkVector2 { vx : R; vy : R }.

Definition default_segments : Z := 30.

(** Points of a horizontal boundary from [(xStart, Y)] to [(xEnd, Y)]; the
    offset is applied to the y coordinate. *)
Definition generateHorizontalEdge
    (xStart xEnd Y : R) (splitMode : SplitMode) (amplitude : R) (segments : Z)
    : list Vector2 :=
  for_lt 0 (segments + 1)
    (fun i pts =>
       let t := IZR i / IZR segments in
       let x := xStart + (xEnd - xStart) * t in
       let y := Y + splitOffset t splitMode amplitude in
       pts ++ [mkVector2 x y])
    [].

(** Points of a vertical boundary from [(X, yStart)] to [(X, yEnd)]; the
    offset is applied to the x coordinate. *)
Definition generateVerticalEdge
    (X yStart yEnd : R) (splitMode : SplitMode) (amplitude : R) (segments : Z)
    : list Vector2 :=
  for_lt 0 (segments + 1)
    (fun i pts =>
       let t := IZR i / IZR segments in
       let y := yStart + (yEnd - yStart) * t in
       let x := X + splitOffset t splitMode amplitude in
       pts ++ [mkVector2 x y])
    [].

(* ================================================================== *)
(** ** Piece partitioner *)
(* ================================================================== *)

(** [puzzleParams]; the two colours play no part in the geometry. *)
Record PuzzleParams : Type := mkParams {
  width : R;
  height : R;
  depth : R;
  gridX : Z;
  gridY : Z;
  splitMode : SplitMode
}.

(** The corners of cell [(col, row)] in global coordinates and the amplitude
    of its interior edges, as the first lines of [createPieceShape] compute
    them. *)
Definition pieceW (params : PuzzleParams) : R := width params / IZR (gridX params).
Definition pieceH (params : PuzzleParams) : R := height params / IZR (gridY params).
Definition amplitudeOf (params : PuzzleParams) : R :=
  Rmin (pieceW params) (pieceH params) * 0.08.
Definition xLeftOf (col : Z) (params : PuzzleParams) : R :=
  - (width params / 2) + IZR col * pieceW params.
Definition xRightOf (col : Z) (params : PuzzleParams) : R :=
  xLeftOf col params + pieceW params.
Definition yBottomOf (row : Z) (params : PuzzleParams) : R :=
  - (height params / 2) + IZR row * pieceH params.
Definition yTopOf (row : Z) (params : PuzzleParams) : R :=
  yBottomOf row params + pieceH params.

(** The four generated edges of cell [(col, row)], each with the arguments
    [createPieceShape] passes for it (all 31 points, before any slicing). *)
Definition bottomEdge (col row : Z) (params : PuzzleParams) : list Vector2 :=
  generateHorizontalEdge (xLeftOf col params) (xRightOf col params)
    (yBottomOf row params) (splitMode params) (amplitudeOf params) default_segments.
Definition rightEdge (col row : Z) (params : PuzzleParams) : list Vector2 :=
  generateVerticalEdge (xRightOf col params) (yBottomOf row params)
    (yTopOf row params) (splitMode params) (amplitudeOf params) default_segments.
Definition topEdge (col row : Z) (params : PuzzleParams) : list Vector2 :=
  generateHorizontalEdge (xRightOf col params) (xLeftOf col params)
    (yTopOf row params) (splitMode params) (amplitudeOf params) default_segments.
Definition leftEdge (col row : Z) (params : PuzzleParams) : list Vector2 :=
  generateVerticalEdge (xLeftOf col params) (yTopOf row params)
    (yBottomOf row params) (splitMode params) (amplitudeOf params) default_segments.

(** The outline in global coordinates: bottom, right, top, left, a shared
    corner never pushed twice. *)
Definition pieceOutline (col row : Z) (params : PuzzleParams) : list Vector2 :=
  let xLeft := xLeftOf col params in
  let xRight := xRightOf col params in
  let yBottom := yBottomOf row params in
  let yTop := yTopOf row params in
  let outline := [] in
  let outline :=
    if (row =? 0)%Z
    then outline ++ [mkVector2 xLeft yBottom; mkVector2 xRight yBottom]
    else outline ++ bottomEdge col row params in
  let outline :=
    if (col =? gridX params - 1)%Z
    then outline ++ [mkVector2 xRight yTop]
    else outline ++ slice1 (rightEdge col row params) in
  let outline :=
    if (row =? gridY params - 1)%Z
    then outline ++ [mkVector2 xLeft yTop]
    else outline ++ slice1 (topEdge col row params) in
  let outline :=
    if (col =? 0)%Z
    then outline
    else outline ++ slice1m1 (leftEdge col row params) in
  outline.

(** What [createPieceShape] returns: the ring of the [THREE.Shape]
    ([moveTo] the first local point, [lineTo] the others, [closePath]) and the
    recorded centre. *)
Record PieceShape : Type := mkPieceShape {
  shape : list Vector2;
  shapeCenterX : R;
  shapeCenterY : R
}.

Definition createPieceShape (col row : Z) (params : PuzzleParams) : PieceShape :=
  let xLeft := xLeftOf col params in
  let xRight := xRightOf col params in
  let yBottom := yBottomOf row params in
  let yTop := yTopOf row params in
  let centerX := (xLeft + xRight) / 2 in
  let centerY := (yBottom + yTop) / 2 in
  let outline := pieceOutline col row params in
  let localPts := map (fun p => mkVector2 (vx p - centerX) (vy p - centerY)) outline in
  mkPieceShape localPts centerX centerY.

(** The extruded solid: the ring and the extrusion depth.  Triangulation and
    UV correction belong to the rendering engine. *)
Record Geometry : Type := mkGeometry {
  ring : list Vector2;
  extrudeDepth : R
}.

Record PieceGeometry : Type := mkPieceGeometry {
  pgGeometry : Geometry;
  pgCenterX : R;
  pgCenterY : R
}.

Definition createPieceGeometry (col row : Z) (params : PuzzleParams) : PieceGeometry :=
  let s := createPieceShape col row params in
  mkPieceGeometry (mkGeometry (shape s) (depth params)) (shapeCenterX s) (shapeCenterY s).

(* ================================================================== *)
(** ** Adjacency index *)
(* ================================================================== *)

Inductive Edge : Type := left | right | bottom | top.

(** The [neighbors] object; [-1] on a border side. *)
Record Neighbors : Type := mkNeighbors {
  nLeft : Z;
  nRight : Z;
  nBottom : Z;
  nTop : Z
}.

(** [Object.entries(neighbors)], in the insertion order of the literal. *)
Definition entries (n : Neighbors) : list (Edge * Z) :=
  [(left, nLeft n); (right, nRight n); (bottom, nBottom n); (top, nTop n)].

Record PieceInfo : Type := mkPieceInfo {
  geometry : Geometry;
  centerX : R;
  centerY : R;
  col : Z;
  row : Z;
  index : Z;
  neighbors : Neighbors
}.

(** The body of the inner loop of [generateAllPieces]: the state is the
    array built so far and the running [index] counter. *)
Definition pushPiece (params : PuzzleParams) (row col : Z)
    (st : list PieceInfo * Z) : list PieceInfo * Z :=
  let '(pieces, index) := st in
  let gridX := gridX params in
  let gridY := gridY params in
  let g := createPieceGeometry col row params in
  let neighbors :=
    mkNeighbors
      (if (col >? 0)%Z then row * gridX + (col - 1) else -1)%Z
      (if (col <? gridX - 1)%Z then row * gridX + (col + 1) else -1)%Z
      (if (row >? 0)%Z then (row - 1) * gridX + col else -1)%Z
      (if (row <? gridY - 1)%Z then (row + 1) * gridX + col else -1)%Z in
  (pieces ++ [mkPieceInfo (pgGeometry g) (pgCenterX g) (pgCenterY g) col row index neighbors],
   (index + 1)%Z).

Definition generateAllPieces (params : PuzzleParams) : list PieceInfo :=
  fst (for_lt 0 (gridY params)
         (fun row st => for_lt 0 (gridX params) (fun col st' => pushPiece params row col st') st)
         ([], 0%Z)).

(* ================================================================== *)
(** ** Snap-match engine *)
(* ================================================================== *)

(** A stored pose.  [checkSnapPossibility] documents its arguments as
    [{x, y, rotation, index}]; [tindex] is that [index] property, [None] when
    the object has none (reading it gives [undefined]). *)
Record PieceTransform : Type := mkTransform {
  x : R;
  y : R;
  z : R;
  rotation : R;
  tindex : option Z
}.

(** The [distance] of a result: a number or [Infinity]. *)
Inductive JsDist : Type :=
| Finite (d : R)
| Infinity.

(** [d < Infinity]. *)
Definition ltInfinity (d : JsDist) : bool :=
  match d with
  | Finite _ => true
  | Infinity => false
  end.

(** An object returned by [checkSnapPossibility]; the three target
    properties exist only on a successful result. *)
Record SnapResult : Type := mkSnapResult {
  canSnap : bool;
  distance : JsDist;
  edge : Edge;
  targetX : option R;
  targetY : option R;
  targetRotation : option R
}.

(** [n === i] for a number [n] and a possibly [undefined] [i]. *)
Definition strictEq (n : Z) (i : option Z) : bool :=
  match i with
  | Some k => (n =? k)%Z
  | None => false
  end.

(** The edge of [neighbors] that names [i], tried in the order left, right,
    bottom, top; [None] is the [null] edge. *)
Definition findEdge (nb : Neighbors) (i : option Z) : option Edge :=
  if strictEq (nLeft nb) i then Some left
  else if strictEq (nRight nb) i then Some right
  else if strictEq (nBottom nb) i then Some bottom
  else if strictEq (nTop nb) i then Some top
  else None.

(** [checkSnapPossibility(piece1, piece2, piecesInfo, threshold)]; [None] is
    [null]. *)
Definition checkSnapPossibility
    (piece1 piece2 : PieceTransform) (piecesInfo : list PieceInfo) (threshold : R)
    : option SnapResult :=
  match js_get_opt piecesInfo (tindex piece1), js_get_opt piecesInfo (tindex piece2) with
  | Some info1, Some info2 =>
      match findEdge (neighbors info1) (tindex piece2) with
      | None => None
      | Some edge =>
          let originalDx := centerX info1 - centerX info2 in
          let originalDy := centerY info1 - centerY info2 in
          let rotationDiff := js_mod (Rabs (rotation piece1 - rotation piece2)) (2 * PI) in
          let rotationMatch :=
            Rltb rotationDiff 0.1 || Rltb (Rabs (rotationDiff - 2 * PI)) 0.1 in
          if negb rotationMatch
          then Some (mkSnapResult false Infinity edge None None None)
          else
            let currentDx := x piece1 - x piece2 in
            let currentDy := y piece1 - y piece2 in
            let angle := js_or0 (rotation piece2) in
            let cos := cos angle in
            let sin := sin angle in
            let rotatedDx := originalDx * cos - originalDy * sin in
            let rotatedDy := originalDx * sin + originalDy * cos in
            let diffX := currentDx - rotatedDx in
            let diffY := currentDy - rotatedDy in
            let distance := sqrt (diffX * diffX + diffY * diffY) in
            if Rleb distance threshold
            then Some (mkSnapResult true (Finite distance) edge
                         (Some (x piece2 + rotatedDx))
                         (Some (y piece2 + rotatedDy))
                         (Some (rotation piece2)))
            else Some (mkSnapResult false (Finite distance) edge None None None)
      end
  | _, _ => None
  end.

(** An element of the array [findSnapTargets] returns:
    [{neighborIndex, edge, ...result}], so [edge] is the result's. *)
Record SnapTarget : Type := mkSnapTarget {
  neighborIndex : Z;
  result : SnapResult
}.

(** [a.distance - b.distance <= 0]; a finite number is below [Infinity]. *)
Definition distLeb (a b : JsDist) : bool :=
  match a, b with
  | Finite da, Finite db => Rleb da db
  | _, Infinity => true
  | Infinity, Finite _ => false
  end.

(** [snapTargets.sort((a, b) => a.distance - b.distance)]: a stable sort,
    ascending by distance. *)
Fixpoint insertTarget (t : SnapTarget) (l : list SnapTarget) : list SnapTarget :=
  match l with
  | [] => [t]
  | u :: l' =>
      if distLeb (distance (result t)) (distance (result u))
      then t :: u :: l'
      else u :: insertTarget t l'
  end.

Definition sortByDistance (l : list SnapTarget) : list SnapTarget :=
  fold_right insertTarget [] l.

(** The callback of [Object.entries(neighbors).forEach]. *)
Definition visitNeighbor
    (piece : PieceTransform) (transforms : list PieceTransform)
    (piecesInfo : list PieceInfo) (threshold : R)
    (snapTargets : list SnapTarget) (entry : Edge * Z) : list SnapTarget :=
  let '(_, neighborIndex) := entry in
  if (neighborIndex =? -1)%Z then snapTargets
  else
    match js_get transforms neighborIndex with
    | None => snapTargets
    | Some neighborTransform =>
        match checkSnapPossibility piece neighborTransform piecesInfo threshold with
        | Some result =>
            if ltInfinity (distance result)
            then snapTargets ++ [mkSnapTarget neighborIndex result]
            else snapTargets
        | None => snapTargets
        end
    end.

Definition findSnapTargets
    (pieceIndex : Z) (transforms : list PieceTransform)
    (piecesInfo : list PieceInfo) (threshold : R) : list SnapTarget :=
  match js_get transforms pieceIndex, js_get piecesInfo pieceIndex with
  | Some piece, Some pieceInfo =>
      let snapTargets :=
        fold_left (visitNeighbor piece transforms piecesInfo threshold)
          (entries (neighbors pieceInfo)) [] in
      sortByDistance snapTargets
  | _, _ => []
  end.

(** [calculateEdgeHighlightIntensity(distance, threshold)]. *)
Definition calculateEdgeHighlightIntensity (distance threshold : R) : R :=
  if Rle_dec threshold distance then 0
  else
    let ratio := 1 - distance / threshold in
    ratio * ratio.

(* ================================================================== *)
(** ** Pose store and interaction handlers *)
(* ================================================================== *)

(** The [transform] payload of [updatePieceTransform]: an object with some of
    the properties of a pose; [None] is an absent property. *)
Record TransformPatch : Type := mkPatch {
  patchX : option R;
  patchY : option R;
  patchZ : option R;
  patchRotation : option R;
  patchIndex : option Z
}.

Definition orElse {A : Type} (o : option A) (d : A) : A :=
  match o with
  | Some a => a
  | None => d
  end.

(** [{...old, ...transform}]. *)
Definition spread (old : PieceTransform) (transform : TransformPatch) : PieceTransform :=
  mkTransform
    (orElse (patchX transform) (x old))
    (orElse (patchY transform) (y old))
    (orElse (patchZ transform) (z old))
    (orElse (patchRotation transform) (rotation old))
    (match patchIndex transform with
     | Some i => Some i
     | None => tindex old
     end).

Fixpoint setNth {A : Type} (l : list A) (n : nat) (a : A) : list A :=
  match l, n with
  | [], _ => []
  | _ :: l', O => a :: l'
  | b :: l', S n' => b :: setNth l' n' a
  end.

Inductive DragMode : Type := NoDrag | Drag | Rotate.

(** The puzzle part of the Redux slice together with the refs of the
    component that the handlers read and write. *)
Record App : Type := mkApp {
  puzzleParams : PuzzleParams;
  puzzleGameMode : bool;
  puzzleScattered : bool;
  snapDistance : R;
  selectedPieceIndex : Z;
  pieceTransforms : list PieceTransform;
  piecesInfoRef : list PieceInfo;
  isDraggingRef : DragMode;
  dragOffsetRef : R * R * R
}.

(** *** Reducers *)

Definition setPieceTransforms (payload : list PieceTransform) (a : App) : App :=
  mkApp (puzzleParams a) (puzzleGameMode a) (puzzleScattered a) (snapDistance a)
        (selectedPieceIndex a) payload (piecesInfoRef a) (isDraggingRef a)
        (dragOffsetRef a).

Definition setPuzzleScattered (payload : bool) (a : App) : App :=
  mkApp (puzzleParams a) (puzzleGameMode a) payload (snapDistance a)
        (selectedPieceIndex a) (pieceTransforms a) (piecesInfoRef a)
        (isDraggingRef a) (dragOffsetRef a).

Definition setSelectedPieceIndex (payload : Z) (a : App) : App :=
  mkApp (puzzleParams a) (puzzleGameMode a) (puzzleScattered a) (snapDistance a)
        payload (pieceTransforms a) (piecesInfoRef a) (isDraggingRef a)
        (dragOffsetRef a).

Definition updatePieceTransform (index : Z) (transform : TransformPatch) (a : App) : App :=
  match js_get (pieceTransforms a) index with
  | Some old =>
      setPieceTransforms
        (setNth (pieceTransforms a) (Z.to_nat index) (spread old transform)) a
  | None => a
  end.

Definition setPuzzleGameMode (payload : bool) (a : App) : App :=
  if payload
  then mkApp (puzzleParams a) true (puzzleScattered a) (snapDistance a)
             (selectedPieceIndex a) (pieceTransforms a) (piecesInfoRef a)
             (isDraggingRef a) (dragOffsetRef a)
  else mkApp (puzzleParams a) false false (snapDistance a) (-1)%Z []
             (piecesInfoRef a) (isDraggingRef a) (dragOffsetRef a).

Definition setParams (payload : PuzzleParams) (a : App) : App :=
  mkApp payload (puzzleGameMode a) (puzzleScattered a) (snapDistance a)
        (selectedPieceIndex a) (pieceTransforms a) (piecesInfoRef a)
        (isDraggingRef a) (dragOffsetRef a).

(** *** Writes to the refs *)

Definition setPiecesInfoRef (pieces : list PieceInfo) (a : App) : App :=
  mkApp (puzzleParams a) (puzzleGameMode a) (puzzleScattered a) (snapDistance a)
        (selectedPieceIndex a) (pieceTransforms a) pieces (isDraggingRef a)
        (dragOffsetRef a).

Definition setDragging (m : DragMode) (off : R * R * R) (a : App) : App :=
  mkApp (puzzleParams a) (puzzleGameMode a) (puzzleScattered a) (snapDistance a)
        (selectedPieceIndex a) (pieceTransforms a) (piecesInfoRef a) m off.

(** *** Handlers *)

(** The assembled pose of a piece, as [createPuzzlePieces] and
    [handleAssemble] write it: [{x, y, z, rotation}]. *)
Definition assembledTransform (depth : R) (piece : PieceInfo) : PieceTransform :=
  mkTransform (centerX piece) (centerY piece) (depth / 2) 0 None.

(** [createPuzzlePieces], the part that touches the pieces and the poses. *)
Definition createPuzzlePieces (a : App) : App :=
  let pieces := generateAllPieces (puzzleParams a) in
  let a' := setPiecesInfoRef pieces a in
  if (length (pieceTransforms a) =? 0)%nat
  then setPieceTransforms (map (assembledTransform (depth (puzzleParams a))) pieces) a'
  else a'.

(** [Math.random()]: the draws are read off a sequence, one per call. *)
Record Rng : Type := mkRng {
  draws : nat -> R;
  cursor : nat
}.

Definition random (g : Rng) : R * Rng :=
  (draws g (cursor g), mkRng (draws g) (S (cursor g))).

(** [arr.map((element, index) => ...)] with a callback that draws random
    numbers: the generator is threaded from one call to the next. *)
Fixpoint mapWithRng {A B : Type} (f : A -> Z -> Rng -> B * Rng)
    (arr : list A) (index : Z) (g : Rng) : list B * Rng :=
  match arr with
  | [] => ([], g)
  | a :: arr' =>
      let '(b, g1) := f a index g in
      let '(bs, g2) := mapWithRng f arr' (index + 1)%Z g1 in
      (b :: bs, g2)
  end.

(** The callback of [handleScatter]. *)
Definition scatterPiece (len : nat) (scatterRadius depth : R)
    (piece : PieceInfo) (index : Z) (g : Rng) : PieceTransform * Rng :=
  let '(r1, g1) := random g in
  let angle := IZR index / INR len * PI * 2 + r1 * 0.5 in
  let '(r2, g2) := random g1 in
  let radius := scatterRadius * (0.5 + r2 * 0.5) in
  let '(r3, g3) := random g2 in
  (mkTransform (cos angle * radius) (sin angle * radius) (depth / 2) (r3 * PI * 2) None, g3).

Definition handleScatter (a : App) (g : Rng) : App * Rng :=
  match piecesInfoRef a with
  | [] => (a, g)
  | _ =>
      let params := puzzleParams a in
      let scatterRadius := Rmax (width params) (height params) * 1.5 in
      let '(newTransforms, g') :=
        mapWithRng (scatterPiece (length (piecesInfoRef a)) scatterRadius (depth params))
          (piecesInfoRef a) 0%Z g in
      (setSelectedPieceIndex (-1) (setPuzzleScattered true (setPieceTransforms newTransforms a)),
       g')
  end.

Definition handleAssemble (a : App) : App :=
  match piecesInfoRef a with
  | [] => a
  | _ =>
      let newTransforms :=
        map (assembledTransform (depth (puzzleParams a))) (piecesInfoRef a) in
      setSelectedPieceIndex (-1) (setPuzzleScattered false (setPieceTransforms newTransforms a))
  end.

(** What the ray casts of a pointer-down report: whether the rotation helper
    was hit, and the first piece mesh hit with the point of the drag plane
    under the pointer. *)
Record Hit : Type := mkHit {
  rotationHit : bool;
  pieceHit : option (Z * R * R)
}.

Definition handleMouseDown (clientX clientY : R) (hit : Hit) (a : App) : App :=
  if negb (puzzleGameMode a) then a
  else if rotationHit hit && (selectedPieceIndex a >=? 0)%Z
  then
    let r :=
      match js_get (pieceTransforms a) (selectedPieceIndex a) with
      | Some t => js_or0 (rotation t)
      | None => 0
      end in
    setDragging Rotate (clientX, clientY, r) a
  else
    match pieceHit hit with
    | Some (pieceIndex, pointX, pointY) =>
        let a1 := setSelectedPieceIndex pieceIndex a in
        match js_get (pieceTransforms a) pieceIndex with
        | Some t => setDragging Drag (x t - pointX, y t - pointY, 0) a1
        | None => setDragging Drag (dragOffsetRef a) a1
        end
    | None => setSelectedPieceIndex (-1) a
    end.

Definition handleMouseMove (clientX : R) (pointX pointY : R) (a : App) : App :=
  let '(offX, offY, offZ) := dragOffsetRef a in
  match isDraggingRef a with
  | NoDrag => a
  | Rotate =>
      if (selectedPieceIndex a >=? 0)%Z
      then
        let deltaX := clientX - offX in
        let newRotation := offZ + deltaX * 0.01 in
        updatePieceTransform (selectedPieceIndex a)
          (mkPatch None None None (Some newRotation) None) a
      else a
  | Drag =>
      if (selectedPieceIndex a >=? 0)%Z
      then
        match js_get (pieceTransforms a) (selectedPieceIndex a) with
        | Some _ =>
            updatePieceTransform (selectedPieceIndex a)
              (mkPatch (Some (pointX + offX)) (Some (pointY + offY)) None None None) a
        | None => a
        end
      else a
  end.

Definition handleMouseUp (a : App) : App :=
  match isDraggingRef a with
  | NoDrag => a
  | m =>
      let a1 :=
        match m with
        | Drag =>
            if (selectedPieceIndex a >=? 0)%Z
            then
              match findSnapTargets (selectedPieceIndex a) (pieceTransforms a)
                      (piecesInfoRef a) (snapDistance a) with
              | target :: _ =>
                  if canSnap (result target)
                  then
                    updatePieceTransform (selectedPieceIndex a)
                      (mkPatch (targetX (result target)) (targetY (result target)) None
                         (targetRotation (result target)) None) a
                  else a
              | [] => a
              end
            else a
        | _ => a
        end in
      setDragging NoDrag (dragOffsetRef a1) a1
  end.

(** The effect that runs when the parameters change, at a change of the
    parameters and with [createPuzzlePieces] reading the emptied array.  (In
    the component the effect also re-runs after a change of the poses, and
    the callback reads the poses of the render it was created in; such a
    run stores [[]] or the assembled poses and nothing else.) *)
Definition paramsChanged (params : PuzzleParams) (a : App) : App :=
  let a1 := setParams params a in
  if puzzleGameMode a1
  then createPuzzlePieces (setPieceTransforms [] a1)
  else a1.

(** The initial state of the slice and of the refs. *)
Definition initialApp : App :=
  mkApp (mkParams 100 100 10 2 2 straight) false false 20 (-1)%Z [] [] NoDrag (0, 0, 0).

(** What can happen to the application: the actions of the user and a
    change of the parameters.  The re-runs of the effects that follow a
    change of the poses are not events of their own. *)
Inductive Event : Type :=
| EvSetGameMode (on : bool)
| EvParams (params : PuzzleParams)
| EvScatter (g : Rng)
| EvAssemble
| EvMouseDown (clientX clientY : R) (hit : Hit)
| EvMouseMove (clientX pointX pointY : R)
| EvMouseUp.

Definition handle (ev : Event) (a : App) : App :=
  match ev with
  | EvSetGameMode on =>
      let a1 := setPuzzleGameMode on a in
      if on then createPuzzlePieces a1 else a1
  | EvParams params => paramsChanged params a
  | EvScatter g => fst (handleScatter a g)
  | EvAssemble => handleAssemble a
  | EvMouseDown clientX clientY hit => handleMouseDown clientX clientY hit a
  | EvMouseMove clientX pointX pointY => handleMouseMove clientX pointX pointY a
  | EvMouseUp => handleMouseUp a
  end.

(** The state the application reaches from its initial state after a
    sequence of events. *)
Definition run (evs : list Event) : App := fold_left (fun a ev => handle ev a) evs initialApp.

(* ================================================================== *)
(** ** The centroid of a polygon *)
(* ================================================================== *)

(** The area centroid of a closed ring, by the shoelace sums over its
    consecutive vertices (the last one joined to the first). *)
Definition cross (p q : Vector2) : R := vx p * vy q - vx q * vy p.

Fixpoint pathSum (f : Vector2 -> Vector2 -> R) (l : list Vector2) : R :=
  match l with
  | [] => 0
  | p :: l' =>
      match l' with
      | [] => 0
      | q :: _ => f p q + pathSum f l'
      end
  end.

Definition ringSum (f : Vector2 -> Vector2 -> R) (l : list Vector2) : R :=
  match l with
  | [] => 0
  | p :: _ => pathSum f (l ++ [p])
  end.

(** Twice the signed area, and six times the signed area times each
    coordinate of the centroid. *)
Definition area2 (l : list Vector2) : R := ringSum cross l.
Definition momentX (l : list Vector2) : R :=
  ringSum (fun p q => (vx p + vx q) * cross p q) l.
Definition momentY (l : list Vector2) : R :=
  ringSum (fun p q => (vy p + vy q) * cross p q) l.

Definition polygonCentroid (l : list Vector2) : Vector2 :=
  mkVector2 (momentX l / (3 * area2 l)) (momentY l / (3 * area2 l)).

(** The mean of the vertices of a ring, the other point a centroid may
    mean. *)
Definition sumX (l : list Vector2) : R := fold_right (fun p acc => vx p + acc) 0 l.
Definition sumY (l : list Vector2) : R := fold_right (fun p acc => vy p + acc) 0 l.

Definition vertexMean (l : list Vector2) : Vector2 :=
  mkVector2 (sumX l / INR (length l)) (sumY l / INR (length l)).

(* ================================================================== *)
(** ** Vocabulary of the statements *)
(* ================================================================== *)

(** The integers [v, v+1, ..., v+n-1]. *)
Fixpoint zrange (v : Z) (n : nat) : list Z :=
  match n with
  | O => []
  | S n' => v :: zrange (v + 1)%Z n'
  end.

(** The triangle of one zigzag period, in terms of the remainder [zt]. *)
Definition triangle (zt : R) : R := if Rltb zt 0.5 then zt * 2 else (1 - zt) * 2.

(** Sample [i] of a horizontal edge and of a vertical edge: the point the
    loop body pushes at iteration [i]. *)
Definition hPoint (xStart xEnd Y : R) (m : SplitMode) (a : R) (segments i : Z) : Vector2 :=
  let t := IZR i / IZR segments in
  mkVector2 (xStart + (xEnd - xStart) * t) (Y + splitOffset t m a).

Definition vPoint (X yStart yEnd : R) (m : SplitMode) (a : R) (segments i : Z) : Vector2 :=
  let t := IZR i / IZR segments in
  mkVector2 (X + splitOffset t m a) (yStart + (yEnd - yStart) * t).

(** Reflection of the offset: a point of a vertical edge about the line
    [x = X], of a horizontal edge about the line [y = Y], scaled by [s]. *)
Definition scaleAboutX (X s : R) (p : Vector2) : Vector2 :=
  mkVector2 (X + s * (vx p - X)) (vy p).

Definition scaleAboutY (Y s : R) (p : Vector2) : Vector2 :=
  mkVector2 (vx p) (Y + s * (vy p - Y)).

(** The neighbours [generateAllPieces] records for the cell [(col, row)]. *)
Definition neighborsAt (params : PuzzleParams) (row col : Z) : Neighbors :=
  mkNeighbors
    (if (col >? 0)%Z then row * gridX params + (col - 1) else -1)%Z
    (if (col <? gridX params - 1)%Z then row * gridX params + (col + 1) else -1)%Z
    (if (row >? 0)%Z then (row - 1) * gridX params + col else -1)%Z
    (if (row <? gridY params - 1)%Z then (row + 1) * gridX params + col else -1)%Z.

(** The record pushed for the piece of index [k] in a grid of [gridX]
    columns. *)
Definition pieceOf (params : PuzzleParams) (k : Z) : PieceInfo :=
  let row := (k / gridX params)%Z in
  let col := (k mod gridX params)%Z in
  let g := createPieceGeometry col row params in
  mkPieceInfo (pgGeometry g) (pgCenterX g) (pgCenterY g) col row k
    (neighborsAt params row col).

(** The loop invariant: the counter is the length of the array, and the
    piece at position [k] is [pieceOf params k]. *)
Definition piecesInv (params : PuzzleParams) (st : list PieceInfo * Z) : Prop :=
  snd st = Z.of_nat (length (fst st)) /\
  forall k p, nth_error (fst st) k = Some p -> p = pieceOf params (Z.of_nat k).

(** [piece2] sits on one of the four sides of [info1]. *)
Definition adjacent (info1 : PieceInfo) (j : Z) : Prop :=
  nLeft (neighbors info1) = j \/ nRight (neighbors info1) = j \/
  nBottom (neighbors info1) = j \/ nTop (neighbors info1) = j.

(** [|piece1.rotation - piece2.rotation| % (2 * pi)]. *)
Definition rotationDiffOf (piece1 piece2 : PieceTransform) : R :=
  js_mod (Rabs (rotation piece1 - rotation piece2)) (2 * PI).

(** The assembled relative offset of two pieces turned by [angle]. *)
Definition rotatedDxOf (info1 info2 : PieceInfo) (angle : R) : R :=
  (centerX info1 - centerX info2) * cos angle - (centerY info1 - centerY info2) * sin angle.

Definition rotatedDyOf (info1 info2 : PieceInfo) (angle : R) : R :=
  (centerX info1 - centerX info2) * sin angle + (centerY info1 - centerY info2) * cos angle.

(** The Euclidean distance between the current relative offset and the
    turned assembled one. *)
Definition offsetDistance (piece1 piece2 : PieceTransform) (info1 info2 : PieceInfo) : R :=
  let diffX := (x piece1 - x piece2) - rotatedDxOf info1 info2 (rotation piece2) in
  let diffY := (y piece1 - y piece2) - rotatedDyOf info1 info2 (rotation piece2) in
  sqrt (diffX * diffX + diffY * diffY).

(** A grid of two columns and one row, and poses that carry an index. *)
Definition params21 : PuzzleParams := mkParams 100 100 10 2 1 straight.

Definition pieces21 : list PieceInfo := generateAllPieces params21.

Definition indexedPose (px py rot : R) (i : Z) : PieceTransform :=
  mkTransform px py 5 rot (Some i).

(** No pose of the array has an [index] property. *)
Definition noIndex (transforms : list PieceTransform) : Prop :=
  Forall (fun t => tindex t = None) transforms.

(** The pose [handleScatter] gives the piece of position [index] when its
    three draws start at position [c] of the sequence. *)
Definition scatterPose (len : nat) (scatterRadius d : R) (drawsOf : nat -> R)
    (c : nat) (index : Z) : PieceTransform :=
  let angle := IZR index / INR len * PI * 2 + drawsOf c * 0.5 in
  let radius := scatterRadius * (0.5 + drawsOf (S c) * 0.5) in
  mkTransform (cos angle * radius) (sin angle * radius) (d / 2)
    (drawsOf (S (S c)) * PI * 2) None.

(** A shoelace integrand [f] adds up along the points that satisfy [P]. *)
Definition additiveOn (P : Vector2 -> Prop) (f : Vector2 -> Vector2 -> R) : Prop :=
  forall p q r, P p -> P q -> P r -> f p q + f q r = f p r.

(** The integrands of [momentX] and [momentY]. *)
Definition momentXTerm (p q : Vector2) : R := (vx p + vx q) * cross p q.

Definition momentYTerm (p q : Vector2) : R := (vy p + vy q) * cross p q.

(** Points of the horizontal line [y = Y] and of the vertical line [x = X]. *)
Definition onRow (Y : R) (p : Vector2) : Prop := vy p = Y.

Definition onColumn (X : R) (p : Vector2) : Prop := vx p = X.

(** The numerator, over 15, of the triangle at sample [i] of 30. *)
Definition zigNum (i : Z) : Z :=
  let m := ((4 * i) mod 15)%Z in
  if (2 * m <? 15)%Z then (2 * m)%Z else (2 * (15 - m))%Z.

(** A grid of one column and two rows, 30 by 60, cut in zigzag, and the
    local ring of its piece [(0, 0)], point by point. *)
Definition params12 : PuzzleParams := mkParams 30 60 10 1 2 zigzag.

Definition zigzagRing12 : list Vector2 :=
  [mkVector2 (-15) (-15);
   mkVector2 15 (-15);
   mkVector2 15 15;
   mkVector2 14 (377 / 25);
   mkVector2 13 (401 / 25);
   mkVector2 12 (369 / 25);
   mkVector2 11 (353 / 25);
   mkVector2 10 (77 / 5);
   mkVector2 9 (393 / 25);
   mkVector2 8 (361 / 25);
   mkVector2 7 (361 / 25);
   mkVector2 6 (393 / 25);
   mkVector2 5 (77 / 5);
   mkVector2 4 (353 / 25);
   mkVector2 3 (369 / 25);
   mkVector2 2 (401 / 25);
   mkVector2 1 (377 / 25);
   mkVector2 0 (69 / 5);
   mkVector2 (-1) (377 / 25);
   mkVector2 (-2) (401 / 25);
   mkVector2 (-3) (369 / 25);
   mkVector2 (-4) (353 / 25);
   mkVector2 (-5) (77 / 5);
   mkVector2 (-6) (393 / 25);
   mkVector2 (-7) (361 / 25);
   mkVector2 (-8) (361 / 25);
   mkVector2 (-9) (393 / 25);
   mkVector2 (-10) (77 / 5);
   mkVector2 (-11) (353 / 25);
   mkVector2 (-12) (369 / 25);
   mkVector2 (-13) (401 / 25);
   mkVector2 (-14) (377 / 25);
   mkVector2 (-15) (69 / 5)].

(** The poses of [l] with the [index] property [checkSnapPossibility]
    documents, numbered from [i]. *)
Fixpoint attachIndex (i : Z) (l : list PieceTransform) : list PieceTransform :=
  match l with
  | [] => []
  | t :: l' =>
      mkTransform (x t) (y t) (z t) (rotation t) (Some i) :: attachIndex (i + 1) l'
  end.

(** The number of sides of cell [(col, row)] that are not on the border of
    the grid, as [createPieceShape] tests them. *)
Definition interiorSides (col row : Z) (params : PuzzleParams) : nat :=
  (if (row =? 0)%Z then 0 else 1) +
  (if (col =? gridX params - 1)%Z then 0 else 1) +
  (if (row =? gridY params - 1)%Z then 0 else 1) +
  (if (col =? 0)%Z then 0 else 1).

(** [a <= b] on distances, the order [distLeb] decides. *)
Definition distLe (a b : JsDist) : Prop :=
  match a, b with
  | Finite da, Finite db => da <= db
  | _, Infinity => True
  | Infinity, Finite _ => False
  end.

(** The targets come in ascending order of distance. *)
Fixpoint ascending (l : list SnapTarget) : Prop :=
  match l with
  | [] => True
  | t :: l' =>
      (forall u, In u l' -> distLe (distance (result t)) (distance (result u))) /\
      ascending l'
  end.

(* ================================================================== *)
(** ** Edge highlights, UV correction and the preview of the cuts *)
(* ================================================================== *)

Record Vector3 : Type := mkVector3 { v3x : R; v3y : R; v3z : R }.

(** [getEdgeWorldCoordinates(piece1Info, piece2Info, transform1, params)]:
    the ends of the side of piece 1 that faces piece 2, in world
    coordinates. *)
Definition getEdgeWorldCoordinates
    (piece1Info piece2Info : PieceInfo) (transform1 : PieceTransform)
    (params : PuzzleParams) : list Vector3 :=
  let pieceW := width params / IZR (gridX params) in
  let pieceH := height params / IZR (gridY params) in
  let dx := (col piece1Info - col piece2Info)%Z in
  let dy := (row piece1Info - row piece2Info)%Z in
  let edgePoints :=
    if (dx =? 1)%Z then
      [mkVector2 (- pieceW / 2) (- pieceH / 2); mkVector2 (- pieceW / 2) (pieceH / 2)]
    else if (dx =? -1)%Z then
      [mkVector2 (pieceW / 2) (- pieceH / 2); mkVector2 (pieceW / 2) (pieceH / 2)]
    else if (dy =? 1)%Z then
      [mkVector2 (- pieceW / 2) (- pieceH / 2); mkVector2 (pieceW / 2) (- pieceH / 2)]
    else if (dy =? -1)%Z then
      [mkVector2 (- pieceW / 2) (pieceH / 2); mkVector2 (pieceW / 2) (pieceH / 2)]
    else [] in
  let angle := js_or0 (rotation transform1) in
  let cos := cos angle in
  let sin := sin angle in
  map (fun p =>
         mkVector3 (x transform1 + vx p * cos - vy p * sin)
                   (y transform1 + vx p * sin + vy p * cos)
                   (depth params + 0.5))
      edgePoints.

(** A vertex of the extruded geometry, as the UV loop of
    [createPieceGeometry] reads it: position, z of the normal, uv. *)
Record Vertex : Type := mkVertex {
  posX : R;
  posY : R;
  posZ : R;
  normalZ : R;
  uvU : R;
  uvV : R
}.

(** The body of the UV loop of [createPieceGeometry] for one vertex. *)
Definition correctUV (params : PuzzleParams) (centerX centerY : R) (v : Vertex) : Vertex :=
  if Rltb 0.9 (Rabs (normalZ v))
  then
    let gx := posX v + centerX in
    let gy := posY v + centerY in
    let u := (gx + width params / 2) / width params in
    let v' := (gy + height params / 2) / height params in
    mkVertex (posX v) (posY v) (posZ v) (normalZ v) u v'
  else v.

(** The loop over the vertices, for the piece [(col, row)]. *)
Definition correctUVs (col row : Z) (params : PuzzleParams) (vertices : list Vertex)
    : list Vertex :=
  let s := createPieceShape col row params in
  for_lt 0 (Z.of_nat (length vertices))
    (fun i acc =>
       match js_get vertices i with
       | Some v => acc ++ [correctUV params (shapeCenterX s) (shapeCenterY s) v]
       | None => acc
       end)
    [].

(** [generateLinePath(start, end, segments)] of [createSplitLines]: the
    path of one cut in the preview of the undivided block. *)
Definition generateLinePath (splitMode : SplitMode) (topZ : R)
    (start end_ : Vector2) (segments : Z) : list Vector3 :=
  for_lt 0 (segments + 1)
    (fun i path =>
       let t := IZR i / IZR segments in
       let x := vx start + (vx end_ - vx start) * t in
       let y := vy start + (vy end_ - vy start) * t in
       let offset :=
         match splitMode with
         | wave => sin (t * PI * 4) * 3
         | zigzag =>
             let zigzagT := js_mod (t * 8) 1 in
             (if Rltb zigzagT 0.5 then zigzagT * 6 else (1 - zigzagT) * 6) - 1.5
         | straight => 0
         end in
       if Req_dec_T (vx start) (vx end_)
       then path ++ [mkVector3 (x + offset) y topZ]
       else path ++ [mkVector3 x (y + offset) topZ])
    [].

(** [for (j = 0; j < linePath.length - 1; j++) points.push(linePath[j],
    linePath[j + 1])]; both elements exist for every [j] of the loop. *)
Definition pushSegments (linePath points : list Vector3) : list Vector3 :=
  for_lt 0 (Z.of_nat (length linePath) - 1)
    (fun j points =>
       match js_get linePath j, js_get linePath (j + 1) with
       | Some a, Some b => points ++ [a; b]
       | _, _ => points
       end)
    points.

(** The points [createSplitLines] hands to the line segments. *)
Definition createSplitLines (params : PuzzleParams) : list Vector3 :=
  let halfWidth := width params / 2 in
  let halfHeight := height params / 2 in
  let topZ := depth params + 0.1 in
  let points := [] in
  let points :=
    for_lt 1 (gridX params)
      (fun i points =>
         let x := - halfWidth + (width params / IZR (gridX params)) * IZR i in
         let linePath :=
           generateLinePath (splitMode params) topZ
             (mkVector2 x (- halfHeight)) (mkVector2 x halfHeight) 20 in
         pushSegments linePath points)
      points in
  let points :=
    for_lt 1 (gridY params)
      (fun i points =>
         let y := - halfHeight + (height params / IZR (gridY params)) * IZR i in
         let linePath :=
           generateLinePath (splitMode params) topZ
             (mkVector2 (- halfWidth) y) (mkVector2 halfWidth y) 20 in
         pushSegments linePath points)
      points in
  points.

(** A point of the plane lifted to the height [z]. *)
Definition lift (z : R) (p : Vector2) : Vector3 := mkVector3 (vx p) (vy p) z.

(** The Euclidean distance of two points of space. *)
Definition distance3 (p q : Vector3) : R :=
  sqrt (Rsqr (v3x p - v3x q) + Rsqr (v3y p - v3y q) + Rsqr (v3z p - v3z q)).

(** The end points of the segments of a polyline, two for each segment, as
    [THREE.LineSegments] reads them. *)
Fixpoint segmentPairs (l : list Vector3) : list Vector3 :=
  match l with
  | a :: tl =>
      match tl with
      | b :: _ => a :: b :: segmentPairs tl
      | [] => []
      end
  | [] => []
  end.

(** The points of the preview that belong to the cut between the columns
    [i - 1] and [i], and to the cut between the rows [i - 1] and [i]. *)
Definition columnCut (params : PuzzleParams) (i : Z) : list Vector3 :=
  segmentPairs
    (generateLinePath (splitMode params) (depth params + 0.1)
       (mkVector2 (- (width params / 2) + (width params / IZR (gridX params)) * IZR i)
                  (- (height params / 2)))
       (mkVector2 (- (width params / 2) + (width params / IZR (gridX params)) * IZR i)
                  (height params / 2)) 20).

Definition rowCut (params : PuzzleParams) (i : Z) : list Vector3 :=
  segmentPairs
    (generateLinePath (splitMode params) (depth params + 0.1)
       (mkVector2 (- (width params / 2))
                  (- (height params / 2) + (height params / IZR (gridY params)) * IZR i))
       (mkVector2 (width params / 2)
                  (- (height params / 2) + (height params / IZR (gridY params)) * IZR i)) 20).

(* ================================================================== *)
(** ** The rest of the slice *)
(* ================================================================== *)

(** The reducers of the slice that do not touch the puzzle game: the image
    list, the export status and the difficulty.  They read and write fields
    of their own, so each group is a state of its own here.  Ids, modes and
    statuses are JavaScript strings. *)
Module Slice.

Record Image : Type := mkImage {
  id : String.string;
  name : String.string;
  url : String.string;
  thumbnail : String.string
}.

Record ImageState : Type := mkImageState {
  images : list Image;
  selectedImageId : option String.string;
  previewImageId : option String.string
}.

Definition initialImages : ImageState := mkImageState [] None None.

(** [!id] for an id that is [null] or a string: the empty string is falsy. *)
Definition falsy (o : option String.string) : bool :=
  match o with
  | None => true
  | Some s => String.eqb s String.EmptyString
  end.

(** [a === b] where [a] is [null] or a string and [b] is a string. *)
Definition sameId (a : option String.string) (b : String.string) : bool :=
  match a with
  | Some s => String.eqb s b
  | None => false
  end.

Definition addImages (newImages : list Image) (state : ImageState) : ImageState :=
  let images' := images state ++ newImages in
  let selected' :=
    if falsy (selectedImageId state) && (0 <? length newImages)%nat
    then match newImages with
         | first :: _ => Some (id first)
         | [] => selectedImageId state
         end
    else selectedImageId state in
  mkImageState images' selected' (previewImageId state).

Definition removeImage (imageId : String.string) (state : ImageState) : ImageState :=
  let images' :=
    filter (fun img => negb (String.eqb (id img) imageId)) (images state) in
  let selected' :=
    if sameId (selectedImageId state) imageId
    then match images' with
         | first :: _ => Some (id first)
         | [] => None
         end
    else selectedImageId state in
  let preview' :=
    if sameId (previewImageId state) imageId then None else previewImageId state in
  mkImageState images' selected' preview'.

Definition selectImage (payload : String.string) (state : ImageState) : ImageState :=
  mkImageState (images state) (Some payload) (previewImageId state).

Definition setPreviewImage (payload : String.string) (state : ImageState) : ImageState :=
  mkImageState (images state) (selectedImageId state) (Some payload).

Definition closePreview (state : ImageState) : ImageState :=
  mkImageState (images state) (selectedImageId state) None.

(** [images.find(img => img.id === k) || null]. *)
Definition findImage (k : option String.string) (l : list Image) : option Image :=
  match k with
  | Some s => find (fun img => String.eqb (id img) s) l
  | None => None
  end.

Definition selectSelectedImage (state : ImageState) : option Image :=
  findImage (selectedImageId state) (images state).

Definition selectPreviewImage (state : ImageState) : option Image :=
  findImage (previewImageId state) (images state).

(** The export status. *)
Record ExportState : Type := mkExportState {
  exportStatus : String.string;
  exportError : option String.string
}.

Definition initialExport : ExportState := mkExportState "idle" None.

Definition setExportStatus (payload : String.string) (state : ExportState) : ExportState :=
  mkExportState payload
    (if negb (String.eqb payload "error") then None else exportError state).

Definition setExportError (payload : String.string) (state : ExportState) : ExportState :=
  mkExportState "error" (Some payload).

(** The difficulty and the snap distance. *)
Record Difficulty : Type := mkDifficulty {
  difficultyMode : String.string;
  snapDistance : R;
  hardSnapDistance : R
}.

Definition initialDifficulty : Difficulty := mkDifficulty "easy" 20 5.

Definition setDifficultyMode (payload : String.string) (state : Difficulty) : Difficulty :=
  mkDifficulty payload
    (if String.eqb payload "easy" then 20 else hardSnapDistance state)
    (hardSnapDistance state).

Definition setSnapDistance (payload : R) (state : Difficulty) : Difficulty :=
  mkDifficulty (difficultyMode state)
    (if String.eqb (difficultyMode state) "hard" then payload else snapDistance state)
    payload.

End Slice.

(** The actions on the image list, and the states the list of
    [ImageManager] can bring about: its select and preview buttons are
    rendered for the listed images only. *)
Inductive ImageAction : Type :=
| AddImages (newImages : list Slice.Image)
| RemoveImage (imageId : String.string)
| SelectImage (imageId : String.string)
| SetPreviewImage (imageId : String.string)
| ClosePreview
| ResetImages.

Definition reduceImage (act : ImageAction) (state : Slice.ImageState) : Slice.ImageState :=
  match act with
  | AddImages newImages => Slice.addImages newImages state
  | RemoveImage imageId => Slice.removeImage imageId state
  | SelectImage imageId => Slice.selectImage imageId state
  | SetPreviewImage imageId => Slice.setPreviewImage imageId state
  | ClosePreview => Slice.closePreview state
  | ResetImages => Slice.initialImages
  end.

Definition listed (k : String.string) (state : Slice.ImageState) : Prop :=
  exists img, In img (Slice.images state) /\ Slice.id img = k.

Definition offered (act : ImageAction) (state : Slice.ImageState) : Prop :=
  match act with
  | SelectImage k | SetPreviewImage k => listed k state
  | _ => True
  end.

(** What the reducers keep of the image list: a selected or previewed id
    is the id of a listed image, and only the empty list has no selected
    image. *)
Definition imagesInv (state : Slice.ImageState) : Prop :=
  (Slice.selectedImageId state = None -> Slice.images state = []) /\
  (forall k, Slice.selectedImageId state = Some k -> listed k state) /\
  (forall k, Slice.previewImageId state = Some k -> listed k state).

Inductive imagesReachable : Slice.ImageState -> Prop :=
| reach_initial : imagesReachable Slice.initialImages
| reach_step (act : ImageAction) (state : Slice.ImageState) :
    imagesReachable state -> offered act state ->
    imagesReachable (reduceImage act state).

Inductive ExportAction : Type :=
| SetExportStatus (status : String.string)
| SetExportError (message : String.string).

Definition reduceExport (state : Slice.ExportState) (act : ExportAction) : Slice.ExportState :=
  match act with
  | SetExportStatus status => Slice.setExportStatus status state
  | SetExportError message => Slice.setExportError message state
  end.

Inductive DifficultyAction : Type :=
| SetDifficultyMode (mode : String.string)
| SetSnapDistance (distance : R).

Definition reduceDifficulty (state : Slice.Difficulty) (act : DifficultyAction) : Slice.Difficulty :=
  match act with
  | SetDifficultyMode mode => Slice.setDifficultyMode mode state
  | SetSnapDistance distance => Slice.setSnapDistance distance state
  end.

Definition sliderPositive (act : DifficultyAction) : Prop :=
  match act with
  | SetSnapDistance distance => 0 < distance
  | SetDifficultyMode _ => True
  end.

(* ================================================================== *)
(** ** The parameter panel *)
(* ================================================================== *)

Module Panel.

(** An entry of [GRID_OPTIONS]; the label, which only the display reads, is
    left out. *)
Record GridOption : Type := mkGridOption {
  value : String.string;
  optionGridX : Z;
  optionGridY : Z
}.

Definition GRID_OPTIONS : list GridOption :=
  [ mkGridOption "2x2" 2 2;
    mkGridOption "3x3" 3 3;
    mkGridOption "4x4" 4 4;
    mkGridOption "5x5" 5 5;
    mkGridOption "2x3" 2 3;
    mkGridOption "3x4" 3 4 ].

(** The keys the three number inputs pass. *)
Inductive NumberKey : Type := keyWidth | keyHeight | keyDepth.

(** What [parseFloat] returns: a number or [NaN]. *)
Inductive Parsed : Type := NaN | Num (numValue : R).

(** [setParam] of the slice, for the keys the panel uses. *)
Definition setParamNumber (key : NumberKey) (v : R) (params : PuzzleParams) : PuzzleParams :=
  match key with
  | keyWidth =>
      mkParams v (height params) (depth params) (gridX params) (gridY params)
        (splitMode params)
  | keyHeight =>
      mkParams (width params) v (depth params) (gridX params) (gridY params)
        (splitMode params)
  | keyDepth =>
      mkParams (width params) (height params) v (gridX params) (gridY params)
        (splitMode params)
  end.

Definition setParamGridX (v : Z) (params : PuzzleParams) : PuzzleParams :=
  mkParams (width params) (height params) (depth params) v (gridY params)
    (splitMode params).

Definition setParamGridY (v : Z) (params : PuzzleParams) : PuzzleParams :=
  mkParams (width params) (height params) (depth params) (gridX params) v
    (splitMode params).

Definition setParamSplitMode (v : SplitMode) (params : PuzzleParams) : PuzzleParams :=
  mkParams (width params) (height params) (depth params) (gridX params) (gridY params) v.

Definition handleNumberChange (key : NumberKey) (numValue : Parsed)
    (params : PuzzleParams) : PuzzleParams :=
  match numValue with
  | Num v => if Rltb 0 v then setParamNumber key v params else params
  | NaN => params
  end.

Definition handleGridChange (v : String.string) (params : PuzzleParams) : PuzzleParams :=
  match find (fun opt => String.eqb (value opt) v) GRID_OPTIONS with
  | Some option => setParamGridY (optionGridY option) (setParamGridX (optionGridX option) params)
  | None => params
  end.

Definition handleSplitModeChange (v : SplitMode) (params : PuzzleParams) : PuzzleParams :=
  setParamSplitMode v params.

Definition getCurrentGridValue (params : PuzzleParams) : String.string :=
  match find (fun opt => (optionGridX opt =? gridX params)%Z &&
                         (optionGridY opt =? gridY params)%Z) GRID_OPTIONS with
  | Some option => value option
  | None => "2x2"
  end.

End Panel.

(** What the user can do on the panel. *)
Inductive PanelEvent : Type :=
| NumberChange (key : Panel.NumberKey) (numValue : Panel.Parsed)
| GridChange (v : String.string)
| SplitModeChange (v : SplitMode).

Definition handlePanel (params : PuzzleParams) (ev : PanelEvent) : PuzzleParams :=
  match ev with
  | NumberChange key numValue => Panel.handleNumberChange key numValue params
  | GridChange v => Panel.handleGridChange v params
  | SplitModeChange v => Panel.handleSplitModeChange v params
  end.

(** The parameters of the initial state of the slice. *)
Definition initialParams : PuzzleParams := mkParams 100 100 10 2 2 straight.

(** The grid of [params] is one of the options of the panel. *)
Definition gridOffered (params : PuzzleParams) : Prop :=
  exists opt, In opt Panel.GRID_OPTIONS /\
    Panel.optionGridX opt = gridX params /\ Panel.optionGridY opt = gridY params.

(* ================================================================== *)
(** ** The size of a thumbnail *)
(* ================================================================== *)

(** The width and the height [createThumbnail] computes for the canvas of an
    image of [imgWidth] by [imgHeight], before the canvas converts them to
    integers. *)
Definition createThumbnailSize (imgWidth imgHeight maxSize : R) : R * R :=
  let width := imgWidth in
  let height := imgHeight in
  if Rltb height width && Rltb maxSize width
  then
    let height := (height * maxSize) / width in
    let width := maxSize in
    (width, height)
  else if Rltb maxSize height
  then
    let width := (width * maxSize) / height in
    let height := maxSize in
    (width, height)
  else (width, height).

(* ================================================================== *)
(** ** The mesh data of the 3MF export *)
(* ================================================================== *)

Record Triangle : Type := mkTriangle { v1 : Z; v2 : Z; v3 : Z }.

(** [extractMeshData] on the position attribute of the non-indexed
    geometry, given as the array of its points: the vertices and the
    triangles it returns.  The second loop, [for (let i = 0; i < count;
    i += 3)], runs for [i = 3 k], once for each [k >= 0] with
    [3 k < count]. *)
Definition extractMeshData (positionAttr : list Vector3) (position : Vector3)
    : list Vector3 * list Triangle :=
  let count := Z.of_nat (length positionAttr) in
  let vertices :=
    for_lt 0 count
      (fun i vertices =>
         match js_get positionAttr i with
         | Some p =>
             vertices ++ [mkVector3 (v3x p + v3x position) (v3y p + v3y position)
                            (v3z p + v3z position)]
         | None => vertices
         end) [] in
  let triangles :=
    for_lt 0 ((count + 2) / 3)
      (fun k triangles =>
         let i := (3 * k)%Z in
         triangles ++ [mkTriangle i (i + 1) (i + 2)]) [] in
  (vertices, triangles).

(** A point moved by [position]. *)
Definition translate3 (position p : Vector3) : Vector3 :=
  mkVector3 (v3x p + v3x position) (v3y p + v3y position) (v3z p + v3z position).



(* ================================================================== *)
(** ** The boundary curves in binary64 *)
(* ================================================================== *)

(** The numbers the program computes with are IEEE binary64 numbers.  Where
    a statement is an identity between computed values, rounding decides
    it.  This module embeds [splitOffset], the two edge generators and the
    cell of [createPieceShape] over the primitive binary64 numbers: [+],
    [-], [*] and [/] round to nearest, ties to even, as in JavaScript, and
    [%] is exact.  [Math.sin], whose value the language leaves to the
    implementation, is an argument. *)
Module Binary64.
Import PrimFloat SpecFloat FloatOps.
Local Open Scope float_scope.

(** An integer-valued number. *)
Definition ofZ (z : Z) : float :=
  SF2Prim (match z with
           | Z0 => S754_zero false
           | Zpos p => S754_finite false p 0
           | Zneg p => S754_finite true p 0
           end).

(** [a % b]: the remainder of the truncated division.  It has the sign of
    [a] and is computed without rounding. *)
Definition js_mod (a b : float) : float :=
  match Prim2SF a, Prim2SF b with
  | S754_finite sa ma ea, S754_finite _ mb eb =>
      let e0 := Z.min ea eb in
      let A := (Zpos ma * 2 ^ (ea - e0))%Z in
      let B := (Zpos mb * 2 ^ (eb - e0))%Z in
      match (A mod B)%Z with
      | Zpos r => SF2Prim (S754_finite sa r e0)
      | _ => if sa then neg_zero else zero
      end
  | S754_zero _, S754_finite _ _ _ => a
  | S754_zero _, S754_infinity _ => a
  | S754_finite _ _ _, S754_infinity _ => a
  | _, _ => nan
  end.

Definition Math_PI : float := 3.141592653589793.

(** [Math.min(a, b)]: [NaN] if an argument is [NaN], and [-0] below [+0]. *)
Definition Math_min (a b : float) : float :=
  if is_nan a || is_nan b then nan
  else if a <? b then a
  else if b <? a then b
  else if get_sign a then a else b.

Definition splitOffset (Math_sin : float -> float)
    (t : float) (mode : SplitMode) (amplitude : float) : float :=
  match mode with
  | wave => Math_sin (t * Math_PI * 4) * amplitude
  | zigzag =>
      let zt := js_mod (t * 8) 1 in
      (if zt <? 0.5 then zt * 2 else (1 - zt) * 2) * amplitude - amplitude * 0.5
  | straight => 0
  end.

Record Vector2 : Type := mkVector2 { vx : float; vy : float }.

Definition generateHorizontalEdge (Math_sin : float -> float)
    (xStart xEnd Y : float) (splitMode : SplitMode) (amplitude : float) (segments : Z)
    : list Vector2 :=
  for_lt 0 (segments + 1)
    (fun i pts =>
       let t := ofZ i / ofZ segments in
       let x := xStart + (xEnd - xStart) * t in
       let y := Y + splitOffset Math_sin t splitMode amplitude in
       pts ++ [mkVector2 x y])
    [].

Definition generateVerticalEdge (Math_sin : float -> float)
    (X yStart yEnd : float) (splitMode : SplitMode) (amplitude : float) (segments : Z)
    : list Vector2 :=
  for_lt 0 (segments + 1)
    (fun i pts =>
       let t := ofZ i / ofZ segments in
       let y := yStart + (yEnd - yStart) * t in
       let x := X + splitOffset Math_sin t splitMode amplitude in
       pts ++ [mkVector2 x y])
    [].

(** The fields of [params] that [createPieceShape] reads. *)
Record PuzzleParams : Type := mkParams {
  width : float;
  height : float;
  gridX : Z;
  gridY : Z;
  splitMode : SplitMode
}.

(** The first lines of [createPieceShape]. *)
Definition pieceW (params : PuzzleParams) : float := width params / ofZ (gridX params).
Definition pieceH (params : PuzzleParams) : float := height params / ofZ (gridY params).
Definition amplitudeOf (params : PuzzleParams) : float :=
  Math_min (pieceW params) (pieceH params) * 0.08.
Definition xLeftOf (col : Z) (params : PuzzleParams) : float :=
  - (width params / 2) + ofZ col * pieceW params.
Definition xRightOf (col : Z) (params : PuzzleParams) : float :=
  xLeftOf col params + pieceW params.
Definition yBottomOf (row : Z) (params : PuzzleParams) : float :=
  - (height params / 2) + ofZ row * pieceH params.
Definition yTopOf (row : Z) (params : PuzzleParams) : float :=
  yBottomOf row params + pieceH params.

(** The four generated edges of cell [(col, row)], each with the arguments
    [createPieceShape] passes for it. *)
Definition bottomEdge (Math_sin : float -> float) (col row : Z) (params : PuzzleParams)
    : list Vector2 :=
  generateHorizontalEdge Math_sin (xLeftOf col params) (xRightOf col params)
    (yBottomOf row params) (splitMode params) (amplitudeOf params) default_segments.
Definition rightEdge (Math_sin : float -> float) (col row : Z) (params : PuzzleParams)
    : list Vector2 :=
  generateVerticalEdge Math_sin (xRightOf col params) (yBottomOf row params)
    (yTopOf row params) (splitMode params) (amplitudeOf params) default_segments.
Definition topEdge (Math_sin : float -> float) (col row : Z) (params : PuzzleParams)
    : list Vector2 :=
  generateHorizontalEdge Math_sin (xRightOf col params) (xLeftOf col params)
    (yTopOf row params) (splitMode params) (amplitudeOf params) default_segments.
Definition leftEdge (Math_sin : float -> float) (col row : Z) (params : PuzzleParams)
    : list Vector2 :=
  generateVerticalEdge Math_sin (xLeftOf col params) (yTopOf row params)
    (yBottomOf row params) (splitMode params) (amplitudeOf params) default_segments.

(** *** Comparing the two sequences of a shared line *)

(** What stands for [Math.sin] in a statement about the modes that never
    call it. *)
Definition notCalled : float -> float := fun _ => nan.

(** [p.x === q.x && p.y === q.y]. *)
Definition samePoint (p q : Vector2) : bool := (vx p =? vx q) && (vy p =? vy q).

(** The larger of the distances of the two points in x and in y. *)
Definition gap (p q : Vector2) : float :=
  let dx := abs (vx p - vx q) in
  let dy := abs (vy p - vy q) in
  if dx <? dy then dy else dx.

(** For every interior grid line of the puzzle, the points generated for
    the cell before it, in reverse, paired with the points generated for
    the cell after it. *)
Definition sharedSamples (Math_sin : float -> float) (params : PuzzleParams)
    : list (Vector2 * Vector2) :=
  flat_map
    (fun row =>
       flat_map
         (fun col =>
            (if (col <? gridX params - 1)%Z
             then combine (rev (rightEdge Math_sin col row params))
                          (leftEdge Math_sin (col + 1) row params)
             else []) ++
            (if (row <? gridY params - 1)%Z
             then combine (rev (topEdge Math_sin col row params))
                          (bottomEdge Math_sin col (row + 1) params)
             else []))
         (zrange 0 (Z.to_nat (gridX params))))
    (zrange 0 (Z.to_nat (gridY params))).

(** How many of the pairs are not the same point, and the largest gap. *)
Definition mismatches (pairs : list (Vector2 * Vector2)) : nat :=
  length (filter (fun pq => negb (samePoint (fst pq) (snd pq))) pairs).

Definition largestGap (pairs : list (Vector2 * Vector2)) : float :=
  fold_left (fun m pq => let g := gap (fst pq) (snd pq) in if m <? g then g else m)
    pairs 0.

End Binary64.

(* ================================================================== *)
(** * Properties *)
(* ================================================================== *)

(** ** Loops *)

Lemma for_iter_push {A : Type} (f : Z -> A) (n : nat) (v : Z) (acc : list A) :
  for_iter n v (fun i pts => pts ++ [f i]) acc = acc ++ map f (zrange v n).
Proof.
  revert v acc; induction n as [|n IH]; intros v acc; simpl.
  - now rewrite app_nil_r.
  - rewrite IH, <- app_assoc. reflexivity.
Qed.

Lemma zrange_length (v : Z) (n : nat) : length (zrange v n) = n.
Proof. revert v; induction n; intros; simpl; auto. Qed.

Lemma zrange_In (v : Z) (n : nat) (i : Z) :
  In i (zrange v n) <-> (v <= i < v + Z.of_nat n)%Z.
Proof.
  revert v; induction n as [|n IH]; intros v; simpl.
  - lia.
  - rewrite IH. lia.
Qed.

Lemma zrange_snoc (v : Z) (n : nat) :
  zrange v (S n) = zrange v n ++ [(v + Z.of_nat n)%Z].
Proof.
  revert v; induction n as [|n IH]; intros v.
  - simpl. now rewrite Z.add_0_r.
  - change (zrange v (S (S n))) with (v :: zrange (v + 1) (S n)).
    rewrite IH. simpl. do 2 f_equal. f_equal. lia.
Qed.

Lemma zrange_shift (v d : Z) (n : nat) :
  zrange (v + d) n = map (fun i => (i + d)%Z) (zrange v n).
Proof.
  revert v; induction n as [|n IH]; intros v; simpl; [reflexivity|].
  f_equal. replace (v + d + 1)%Z with (v + 1 + d)%Z by lia. apply IH.
Qed.

(** Reading a range backwards is reading it through [i |-> v + (v+n-1) - i]. *)
Lemma zrange_rev (v : Z) (n : nat) :
  rev (zrange v n) = map (fun i => (v + (v + Z.of_nat n - 1) - i)%Z) (zrange v n).
Proof.
  revert v; induction n as [|n IH]; intros v.
  - reflexivity.
  - rewrite (zrange_snoc v n) at 2. rewrite map_app.
    change (zrange v (S n)) with (v :: zrange (v + 1) n).
    simpl rev. rewrite IH, zrange_shift, map_map. simpl map.
    f_equal.
    + apply map_ext; intros; lia.
    + f_equal; lia.
Qed.

(** ** The remainder [%] *)

Lemma Int_part_eq (u : R) (k : Z) :
  IZR k <= u < IZR k + 1 -> Int_part u = k.
Proof.
  intros [H1 H2]. symmetry. apply Int_part_spec. lra.
Qed.

Lemma Int_part_bounds (u : R) : IZR (Int_part u) <= u < IZR (Int_part u) + 1.
Proof.
  destruct (base_Int_part u) as [H1 H2]. lra.
Qed.

(** On a non-negative number, [% 1] subtracts the integer part. *)
Lemma js_mod_1_eval (u : R) (k : Z) :
  0 <= u -> IZR k <= u < IZR k + 1 -> js_mod u 1 = u - IZR k.
Proof.
  intros Hu Hk. unfold js_mod, trunc.
  replace (u / 1) with u by (field).
  destruct (Rle_dec 0 u) as [_|n]; [|contradiction].
  rewrite (Int_part_eq u k Hk). ring.
Qed.

Lemma js_mod_1_range (u : R) : 0 <= u -> 0 <= js_mod u 1 < 1.
Proof.
  intros Hu. rewrite (js_mod_1_eval u (Int_part u) Hu (Int_part_bounds u)).
  pose proof (Int_part_bounds u). lra.
Qed.

Lemma js_mod_1_succ (u : R) : 0 <= u -> js_mod (u + 1) 1 = js_mod u 1.
Proof.
  intros Hu.
  rewrite (js_mod_1_eval u (Int_part u) Hu (Int_part_bounds u)).
  rewrite (js_mod_1_eval (u + 1) (Int_part u + 1)).
  - rewrite plus_IZR. ring.
  - lra.
  - rewrite plus_IZR. pose proof (Int_part_bounds u). lra.
Qed.

(** The remainder by a positive [b] of a non-negative number. *)
Lemma js_mod_eval (u b : R) (k : Z) :
  0 < b -> 0 <= u -> IZR k * b <= u < (IZR k + 1) * b -> js_mod u b = u - IZR k * b.
Proof.
  intros Hb Hu [H1 H2]. unfold js_mod, trunc.
  assert (Hq : 0 <= u / b).
  { unfold Rdiv. apply Rmult_le_pos; [assumption|].
    left. apply Rinv_0_lt_compat. assumption. }
  destruct (Rle_dec 0 (u / b)) as [_|n]; [|contradiction].
  rewrite (Int_part_eq (u / b) k); [ring|].
  split.
  - apply Rmult_le_reg_r with b; [assumption|].
    unfold Rdiv. rewrite Rmult_assoc, Rinv_l by lra. lra.
  - apply Rmult_lt_reg_r with b; [assumption|].
    unfold Rdiv. rewrite Rmult_assoc, Rinv_l by lra. lra.
Qed.

Lemma Rltb_true (a b : R) : a < b -> Rltb a b = true.
Proof. intros H; unfold Rltb; destruct (Rlt_dec a b); [reflexivity|contradiction]. Qed.

Lemma Rltb_false (a b : R) : b <= a -> Rltb a b = false.
Proof. intros H; unfold Rltb; destruct (Rlt_dec a b); [lra|reflexivity]. Qed.

Lemma Rleb_true (a b : R) : a <= b -> Rleb a b = true.
Proof. intros H; unfold Rleb; destruct (Rle_dec a b); [reflexivity|contradiction]. Qed.

Lemma Rleb_false (a b : R) : b < a -> Rleb a b = false.
Proof. intros H; unfold Rleb; destruct (Rle_dec a b); [lra|reflexivity]. Qed.

Lemma Rleb_spec (a b : R) : Rleb a b = true <-> a <= b.
Proof.
  unfold Rleb; destruct (Rle_dec a b); split; intros; try assumption;
    try reflexivity; try discriminate; contradiction.
Qed.

Lemma Rltb_spec (a b : R) : Rltb a b = true <-> a < b.
Proof.
  unfold Rltb; destruct (Rlt_dec a b); split; intros; try assumption;
    try reflexivity; try discriminate; contradiction.
Qed.

(** ** The offset function *)

Lemma splitOffset_zigzag (t a : R) :
  splitOffset t zigzag a = triangle (js_mod (t * 8) 1) * a - a * 0.5.
Proof. reflexivity. Qed.

Lemma triangle_range (zt : R) : 0 <= zt < 1 -> 0 <= triangle zt <= 1.
Proof.
  intros H. unfold triangle, Rltb. destruct (Rlt_dec zt 0.5); lra.
Qed.

Lemma triangle_mirror (zt : R) : triangle (1 - zt) = triangle zt.
Proof.
  unfold triangle, Rltb.
  destruct (Rlt_dec (1 - zt) 0.5), (Rlt_dec zt 0.5); lra.
Qed.

Lemma splitOffset_zigzag_range (t a : R) :
  0 <= t -> 0 <= a -> - (a / 2) <= splitOffset t zigzag a <= a / 2.
Proof.
  intros Ht Ha. rewrite splitOffset_zigzag.
  assert (Hz : 0 <= js_mod (t * 8) 1 < 1) by (apply js_mod_1_range; lra).
  pose proof (triangle_range _ Hz) as Htri.
  split; nra.
Qed.

Lemma splitOffset_zigzag_period (t a : R) :
  0 <= t -> splitOffset (t + 1 / 8) zigzag a = splitOffset t zigzag a.
Proof.
  intros Ht. rewrite !splitOffset_zigzag.
  replace ((t + 1 / 8) * 8) with (t * 8 + 1) by field.
  rewrite js_mod_1_succ by lra. reflexivity.
Qed.

Lemma splitOffset_zigzag_rise (t a : R) :
  0 <= t < 1 / 16 -> splitOffset t zigzag a = 16 * t * a - a / 2.
Proof.
  intros Ht. rewrite splitOffset_zigzag.
  rewrite (js_mod_1_eval (t * 8) 0) by (simpl; lra).
  unfold triangle. rewrite Rltb_true by (simpl; lra). simpl. lra.
Qed.

Lemma splitOffset_zigzag_fall (t a : R) :
  1 / 16 <= t < 1 / 8 -> splitOffset t zigzag a = (2 - 16 * t) * a - a / 2.
Proof.
  intros Ht. rewrite splitOffset_zigzag.
  rewrite (js_mod_1_eval (t * 8) 0) by (simpl; lra).
  unfold triangle. rewrite Rltb_false by (simpl; lra). simpl. lra.
Qed.

(** C9.  For [t] in [[0,1]] and an amplitude [a >= 0]: [splitOffset] is [0]
    for ['straight'], [sin(t*4*pi)*a] for ['wave'], and for ['zigzag'] a
    triangular wave of period [1/8] in [t] (rising linearly from [-a/2] to
    [+a/2] over the first half period, falling back over the second) whose
    value always lies in [[-a/2, +a/2]]. *)
Theorem splitOffset_values (t a : R) :
  0 <= t <= 1 -> 0 <= a ->
  splitOffset t straight a = 0 /\
  splitOffset t wave a = sin (t * 4 * PI) * a /\
  - (a / 2) <= splitOffset t zigzag a <= a / 2 /\
  splitOffset (t + 1 / 8) zigzag a = splitOffset t zigzag a /\
  (t < 1 / 16 -> splitOffset t zigzag a = 16 * t * a - a / 2) /\
  (1 / 16 <= t < 1 / 8 -> splitOffset t zigzag a = (2 - 16 * t) * a - a / 2).
Proof.
  intros [Ht0 Ht1] Ha. repeat split.
  - simpl. f_equal. f_equal. ring.
  - apply splitOffset_zigzag_range; assumption.
  - apply splitOffset_zigzag_range; assumption.
  - apply splitOffset_zigzag_period; assumption.
  - intros H. apply splitOffset_zigzag_rise. lra.
  - intros H. apply splitOffset_zigzag_fall. lra.
Qed.

Lemma splitOffset_values_witness :
  splitOffset (1 / 32) straight 4 = 0 /\
  splitOffset (1 / 32) wave 4 = sin (1 / 32 * 4 * PI) * 4 /\
  - (4 / 2) <= splitOffset (1 / 32) zigzag 4 <= 4 / 2 /\
  splitOffset (1 / 32 + 1 / 8) zigzag 4 = splitOffset (1 / 32) zigzag 4 /\
  (1 / 32 < 1 / 16 -> splitOffset (1 / 32) zigzag 4 = 16 * (1 / 32) * 4 - 4 / 2) /\
  (1 / 16 <= 1 / 32 < 1 / 8 -> splitOffset (1 / 32) zigzag 4 = (2 - 16 * (1 / 32)) * 4 - 4 / 2).
Proof.
  apply (splitOffset_values (1 / 32) 4); lra.
Defined.

(** ** Reversing the parameter *)

Lemma splitOffset_zigzag_mirror (t a : R) :
  0 <= t <= 1 -> splitOffset (1 - t) zigzag a = splitOffset t zigzag a.
Proof.
  intros [Ht0 Ht1]. rewrite !splitOffset_zigzag.
  replace ((1 - t) * 8) with (8 - t * 8) by ring.
  set (u := t * 8). assert (Hu : 0 <= u <= 8) by (unfold u; lra).
  pose proof (Int_part_bounds u) as Hk. set (k := Int_part u) in *.
  rewrite (js_mod_1_eval u k) by lra.
  destruct (Req_dec_T u (IZR k)) as [E|N].
  - rewrite (js_mod_1_eval (8 - u) (8 - k)).
    + rewrite minus_IZR, E. replace (8 - IZR k - (8 - IZR k)) with 0 by ring.
      replace (IZR k - IZR k) with 0 by ring. reflexivity.
    + lra.
    + rewrite minus_IZR. lra.
  - rewrite (js_mod_1_eval (8 - u) (7 - k)).
    + rewrite minus_IZR. replace (8 - u - (7 - IZR k)) with (1 - (u - IZR k)) by ring.
      rewrite triangle_mirror. reflexivity.
    + lra.
    + rewrite minus_IZR. lra.
Qed.

Lemma splitOffset_wave_mirror (t a : R) :
  splitOffset (1 - t) wave a = - splitOffset t wave a.
Proof.
  simpl.
  replace ((1 - t) * PI * 4) with (- (t * PI * 4) + 2 * INR 2 * PI) by (simpl; ring).
  rewrite sin_period, sin_neg. ring.
Qed.

Lemma splitOffset_straight_mirror (t a : R) :
  splitOffset (1 - t) straight a = splitOffset t straight a.
Proof. reflexivity. Qed.

(** ** Edges as sampled sequences *)

Lemma generateHorizontalEdge_points xStart xEnd Y m a segments :
  generateHorizontalEdge xStart xEnd Y m a segments =
  map (hPoint xStart xEnd Y m a segments) (zrange 0 (Z.to_nat (segments + 1))).
Proof.
  unfold generateHorizontalEdge, for_lt. rewrite Z.sub_0_r.
  apply (for_iter_push (hPoint xStart xEnd Y m a segments)).
Qed.

Lemma generateVerticalEdge_points X yStart yEnd m a segments :
  generateVerticalEdge X yStart yEnd m a segments =
  map (vPoint X yStart yEnd m a segments) (zrange 0 (Z.to_nat (segments + 1))).
Proof.
  unfold generateVerticalEdge, for_lt. rewrite Z.sub_0_r.
  apply (for_iter_push (vPoint X yStart yEnd m a segments)).
Qed.

Lemma generateHorizontalEdge_length xStart xEnd Y m a segments :
  length (generateHorizontalEdge xStart xEnd Y m a segments) = Z.to_nat (segments + 1).
Proof. now rewrite generateHorizontalEdge_points, length_map, zrange_length. Qed.

Lemma generateVerticalEdge_length X yStart yEnd m a segments :
  length (generateVerticalEdge X yStart yEnd m a segments) = Z.to_nat (segments + 1).
Proof. now rewrite generateVerticalEdge_points, length_map, zrange_length. Qed.

(** The parameter of sample [segments - i] is one minus that of sample [i]. *)
Lemma sample_mirror (segments i : Z) :
  (0 < segments)%Z -> IZR (segments - i) / IZR segments = 1 - IZR i / IZR segments.
Proof.
  intros Hs. rewrite minus_IZR. field.
  apply not_0_IZR. lia.
Qed.

Lemma sample_range (segments i : Z) :
  (0 < segments)%Z -> (0 <= i <= segments)%Z -> 0 <= IZR i / IZR segments <= 1.
Proof.
  intros Hs [H0 H1].
  assert (0 < IZR segments) by (apply IZR_lt; assumption).
  assert (0 <= IZR i) by (apply IZR_le; assumption).
  assert (IZR i <= IZR segments) by (apply IZR_le; assumption).
  split.
  - unfold Rdiv. apply Rmult_le_pos; [assumption|]. left; now apply Rinv_0_lt_compat.
  - apply Rmult_le_reg_r with (IZR segments); [assumption|].
    unfold Rdiv. rewrite Rmult_assoc, Rinv_l by lra. lra.
Qed.

(** If the offset at parameter [1 - t] is [s] times the offset at [t] on the
    samples, the edge read backwards is the edge generated in the opposite
    direction with its offsets scaled by [s]. *)
Lemma vertical_edge_reversed X y0 y1 m a s segments :
  (0 < segments)%Z ->
  (forall t, 0 <= t <= 1 -> splitOffset (1 - t) m a = s * splitOffset t m a) ->
  rev (generateVerticalEdge X y0 y1 m a segments) =
  map (scaleAboutX X s) (generateVerticalEdge X y1 y0 m a segments).
Proof.
  intros Hs Hsym. rewrite !generateVerticalEdge_points, <- map_rev, zrange_rev, !map_map.
  apply map_ext_in. intros i Hi. apply zrange_In in Hi.
  rewrite Z2Nat.id in Hi by lia.
  replace (0 + (0 + Z.of_nat (Z.to_nat (segments + 1)) - 1) - i)%Z with (segments - i)%Z
    by (rewrite Z2Nat.id; lia).
  unfold vPoint, scaleAboutX; cbn [vx vy].
  rewrite sample_mirror by assumption.
  rewrite Hsym by (apply sample_range; lia).
  f_equal; ring.
Qed.

Lemma horizontal_edge_reversed x0 x1 Y m a s segments :
  (0 < segments)%Z ->
  (forall t, 0 <= t <= 1 -> splitOffset (1 - t) m a = s * splitOffset t m a) ->
  rev (generateHorizontalEdge x0 x1 Y m a segments) =
  map (scaleAboutY Y s) (generateHorizontalEdge x1 x0 Y m a segments).
Proof.
  intros Hs Hsym. rewrite !generateHorizontalEdge_points, <- map_rev, zrange_rev, !map_map.
  apply map_ext_in. intros i Hi. apply zrange_In in Hi.
  rewrite Z2Nat.id in Hi by lia.
  replace (0 + (0 + Z.of_nat (Z.to_nat (segments + 1)) - 1) - i)%Z with (segments - i)%Z
    by (rewrite Z2Nat.id; lia).
  unfold hPoint, scaleAboutY; cbn [vx vy].
  rewrite sample_mirror by assumption.
  rewrite Hsym by (apply sample_range; lia).
  f_equal; ring.
Qed.

Lemma scaleAboutX_1 (X : R) (l : list Vector2) : map (scaleAboutX X 1) l = l.
Proof.
  rewrite <- (map_id l) at 2. apply map_ext. intros [px py].
  unfold scaleAboutX; cbn [vx vy]. f_equal; ring.
Qed.

Lemma scaleAboutY_1 (Y : R) (l : list Vector2) : map (scaleAboutY Y 1) l = l.
Proof.
  rewrite <- (map_id l) at 2. apply map_ext. intros [px py].
  unfold scaleAboutY; cbn [vx vy]. f_equal; ring.
Qed.

(** The cells on the two sides of an interior grid line share it. *)
Lemma xLeftOf_succ (col : Z) (params : PuzzleParams) :
  xLeftOf (col + 1) params = xRightOf col params.
Proof. unfold xRightOf, xLeftOf. rewrite plus_IZR. ring. Qed.

Lemma yBottomOf_succ (row : Z) (params : PuzzleParams) :
  yBottomOf (row + 1) params = yTopOf row params.
Proof. unfold yTopOf, yBottomOf. rewrite plus_IZR. ring. Qed.

Lemma zrange_nth_error (v : Z) (n k : nat) :
  (k < n)%nat -> nth_error (zrange v n) k = Some (v + Z.of_nat k)%Z.
Proof.
  revert v k; induction n as [|n IH]; intros v k Hk; [lia|].
  destruct k as [|k]; simpl.
  - f_equal; lia.
  - rewrite IH by lia. f_equal; lia.
Qed.

(** Interior edges of the two cells next to a grid line, for an offset that
    is [s] times itself under parameter reversal. *)
Lemma shared_vertical_edge (params : PuzzleParams) (col row : Z) (s : R) :
  (forall t, 0 <= t <= 1 ->
     splitOffset (1 - t) (splitMode params) (amplitudeOf params) =
     s * splitOffset t (splitMode params) (amplitudeOf params)) ->
  rev (rightEdge col row params) =
  map (scaleAboutX (xRightOf col params) s) (leftEdge (col + 1) row params).
Proof.
  intros Hsym. unfold rightEdge, leftEdge. rewrite xLeftOf_succ.
  apply vertical_edge_reversed; [reflexivity|assumption].
Qed.

Lemma shared_horizontal_edge (params : PuzzleParams) (col row : Z) (s : R) :
  (forall t, 0 <= t <= 1 ->
     splitOffset (1 - t) (splitMode params) (amplitudeOf params) =
     s * splitOffset t (splitMode params) (amplitudeOf params)) ->
  rev (topEdge col row params) =
  map (scaleAboutY (yTopOf row params) s) (bottomEdge col (row + 1) params).
Proof.
  intros Hsym. unfold topEdge, bottomEdge. rewrite yBottomOf_succ.
  apply horizontal_edge_reversed; [reflexivity|assumption].
Qed.

Lemma bottomEdge_length (params : PuzzleParams) (col row : Z) :
  length (bottomEdge col row params) = 31%nat.
Proof. unfold bottomEdge. now rewrite generateHorizontalEdge_length. Qed.

Lemma rightEdge_length (params : PuzzleParams) (col row : Z) :
  length (rightEdge col row params) = 31%nat.
Proof. unfold rightEdge. now rewrite generateVerticalEdge_length. Qed.

Lemma topEdge_length (params : PuzzleParams) (col row : Z) :
  length (topEdge col row params) = 31%nat.
Proof. unfold topEdge. now rewrite generateHorizontalEdge_length. Qed.

Lemma leftEdge_length (params : PuzzleParams) (col row : Z) :
  length (leftEdge col row params) = 31%nat.
Proof. unfold leftEdge. now rewrite generateVerticalEdge_length. Qed.



(** The points of the two edges at one position of the shared line. *)
Lemma leftEdge_nth (params : PuzzleParams) (col row : Z) (n : nat) :
  (n <= 30)%nat ->
  nth_error (leftEdge col row params) n =
  Some (mkVector2
          (xLeftOf col params +
           splitOffset (INR n / 30) (splitMode params) (amplitudeOf params))
          (yTopOf row params +
           (yBottomOf row params - yTopOf row params) * (INR n / 30))).
Proof.
  intros Hn. unfold leftEdge. rewrite generateVerticalEdge_points.
  rewrite nth_error_map, zrange_nth_error by (simpl; lia).
  simpl option_map. unfold vPoint, default_segments. rewrite <- INR_IZR_INZ.
  reflexivity.
Qed.

Lemma bottomEdge_nth (params : PuzzleParams) (col row : Z) (n : nat) :
  (n <= 30)%nat ->
  nth_error (bottomEdge col row params) n =
  Some (mkVector2
          (xLeftOf col params +
           (xRightOf col params - xLeftOf col params) * (INR n / 30))
          (yBottomOf row params +
           splitOffset (INR n / 30) (splitMode params) (amplitudeOf params))).
Proof.
  intros Hn. unfold bottomEdge. rewrite generateHorizontalEdge_points.
  rewrite nth_error_map, zrange_nth_error by (simpl; lia).
  simpl option_map. unfold hPoint, default_segments. rewrite <- INR_IZR_INZ.
  reflexivity.
Qed.

(** C7, amended.  In exact arithmetic, on [[0,1]] the zigzag offset is even
    and the wave offset is odd under [t |-> 1 - t].  Hence the two cells
    next to an interior grid line, which sample it in opposite directions,
    get the same points for ['zigzag'] (one sequence reversed), while for
    ['wave'] each point of one sequence is the corresponding point of the
    other with its offset negated: the two points of a position agree
    exactly when the offset there is zero.  (In binary64 the zigzag offset
    is not even and the zigzag sequences are not the same: see the section
    on the shared boundaries in binary64.) *)
Theorem offset_parity_and_shared_edges
    (a t : R) (pz pw : PuzzleParams) (col row : Z) :
  0 <= t <= 1 -> splitMode pz = zigzag -> splitMode pw = wave ->
  splitOffset (1 - t) zigzag a = splitOffset t zigzag a /\
  splitOffset (1 - t) wave a = - splitOffset t wave a /\
  (rev (rightEdge col row pz) = leftEdge (col + 1) row pz /\
   rev (topEdge col row pz) = bottomEdge col (row + 1) pz) /\
  (rev (rightEdge col row pw) =
     map (scaleAboutX (xRightOf col pw) (-1)) (leftEdge (col + 1) row pw) /\
   rev (topEdge col row pw) =
     map (scaleAboutY (yTopOf row pw) (-1)) (bottomEdge col (row + 1) pw)) /\
  (forall n, (n <= 30)%nat ->
     (nth_error (rev (rightEdge col row pw)) n =
        nth_error (leftEdge (col + 1) row pw) n <->
      splitOffset (INR n / 30) wave (amplitudeOf pw) = 0) /\
     (nth_error (rev (topEdge col row pw)) n =
        nth_error (bottomEdge col (row + 1) pw) n <->
      splitOffset (INR n / 30) wave (amplitudeOf pw) = 0)).
Proof.
  intros Ht Hz Hw.
  assert (Hsz : forall t, 0 <= t <= 1 ->
            splitOffset (1 - t) (splitMode pz) (amplitudeOf pz) =
            1 * splitOffset t (splitMode pz) (amplitudeOf pz)).
  { intros u Hu. rewrite Hz, splitOffset_zigzag_mirror by assumption. ring. }
  assert (Hsw : forall t, 0 <= t <= 1 ->
            splitOffset (1 - t) (splitMode pw) (amplitudeOf pw) =
            -1 * splitOffset t (splitMode pw) (amplitudeOf pw)).
  { intros u _. rewrite Hw, splitOffset_wave_mirror. ring. }
  pose proof (shared_vertical_edge pw col row (-1) Hsw) as HV.
  pose proof (shared_horizontal_edge pw col row (-1) Hsw) as HH.
  split; [apply splitOffset_zigzag_mirror; assumption|].
  split; [apply splitOffset_wave_mirror|].
  split; [split|split; [split; assumption|]].
  - rewrite (shared_vertical_edge pz col row 1 Hsz). apply scaleAboutX_1.
  - rewrite (shared_horizontal_edge pz col row 1 Hsz). apply scaleAboutY_1.
  - intros n Hn. split.
    + rewrite HV, nth_error_map, leftEdge_nth by assumption.
      rewrite Hw, xLeftOf_succ.
      generalize (splitOffset (INR n / 30) wave (amplitudeOf pw)). intros o.
      unfold option_map, scaleAboutX; cbn [vx vy].
      split.
      * intros E. injection E as E. lra.
      * intros E. rewrite E. do 2 f_equal. ring.
    + rewrite HH, nth_error_map, bottomEdge_nth by assumption.
      rewrite Hw, yBottomOf_succ.
      generalize (splitOffset (INR n / 30) wave (amplitudeOf pw)). intros o.
      unfold option_map, scaleAboutY; cbn [vx vy].
      split.
      * intros E. injection E as E. lra.
      * intros E. rewrite E. do 2 f_equal. ring.
Qed.

Lemma offset_parity_and_shared_edges_witness :
  let pz := mkParams 100 100 10 2 2 zigzag in
  let pw := mkParams 100 100 10 2 2 wave in
  splitOffset (1 - 1 / 16) zigzag 4 = splitOffset (1 / 16) zigzag 4 /\
  splitOffset (1 - 1 / 16) wave 4 = - splitOffset (1 / 16) wave 4 /\
  (rev (rightEdge 0 0 pz) = leftEdge (0 + 1) 0 pz /\
   rev (topEdge 0 0 pz) = bottomEdge 0 (0 + 1) pz) /\
  (rev (rightEdge 0 0 pw) =
     map (scaleAboutX (xRightOf 0 pw) (-1)) (leftEdge (0 + 1) 0 pw) /\
   rev (topEdge 0 0 pw) =
     map (scaleAboutY (yTopOf 0 pw) (-1)) (bottomEdge 0 (0 + 1) pw)) /\
  (forall n, (n <= 30)%nat ->
     (nth_error (rev (rightEdge 0 0 pw)) n = nth_error (leftEdge (0 + 1) 0 pw) n <->
      splitOffset (INR n / 30) wave (amplitudeOf pw) = 0) /\
     (nth_error (rev (topEdge 0 0 pw)) n = nth_error (bottomEdge 0 (0 + 1) pw) n <->
      splitOffset (INR n / 30) wave (amplitudeOf pw) = 0)).
Proof.
  intros pz pw.
  apply (offset_parity_and_shared_edges 4 (1 / 16) pz pw 0 0);
    [lra | reflexivity | reflexivity].
Defined.

(* ================================================================== *)
(** ** The adjacency index *)
(* ================================================================== *)

Lemma pushPiece_inv (params : PuzzleParams) (row col : Z) (st : list PieceInfo * Z) :
  (0 <= row)%Z -> (0 <= col < gridX params)%Z ->
  piecesInv params st -> snd st = (row * gridX params + col)%Z ->
  piecesInv params (pushPiece params row col st) /\
  snd (pushPiece params row col st) = (row * gridX params + col + 1)%Z.
Proof.
  intros Hrow Hcol [Hlen Hnth] Hidx. destruct st as [pieces idx]. simpl in *.
  split; [split|]; simpl.
  - rewrite length_app. simpl. lia.
  - intros k p Hk.
    destruct (Nat.lt_ge_cases k (length pieces)) as [Hlt|Hge].
    + rewrite nth_error_app1 in Hk by assumption. now apply Hnth.
    + rewrite nth_error_app2 in Hk by assumption.
      destruct (k - length pieces)%nat as [|d] eqn:Ed.
      * simpl in Hk. injection Hk as <-.
        assert (Ek : Z.of_nat k = idx) by lia.
        unfold pieceOf. rewrite Ek, Hidx.
        rewrite Z.div_add_l, Z.div_small, Z.add_0_r by lia.
        rewrite Z.add_comm, Z.mod_add, Z.mod_small by lia.
        reflexivity.
      * simpl in Hk. destruct d; discriminate.
  - lia.
Qed.

Lemma inner_loop_inv (params : PuzzleParams) (row : Z) (n : nat) :
  forall (c : Z) (st : list PieceInfo * Z),
  (0 <= row)%Z -> (0 <= c)%Z -> (c + Z.of_nat n <= gridX params)%Z ->
  piecesInv params st -> snd st = (row * gridX params + c)%Z ->
  piecesInv params (for_iter n c (fun col st' => pushPiece params row col st') st) /\
  snd (for_iter n c (fun col st' => pushPiece params row col st') st) =
    (row * gridX params + c + Z.of_nat n)%Z.
Proof.
  induction n as [|n IH]; intros c st Hrow Hc Hn Hinv Hidx.
  - simpl. split; [assumption|lia].
  - cbn [for_iter].
    destruct (pushPiece_inv params row c st) as [Hinv' Hidx']; try assumption; try lia.
    destruct (IH (c + 1)%Z (pushPiece params row c st)) as [H1 H2];
      try assumption; try lia.
    split; [assumption|lia].
Qed.

Lemma outer_loop_inv (params : PuzzleParams) (m : nat) :
  forall (r : Z) (st : list PieceInfo * Z),
  (0 <= r)%Z -> (0 <= gridX params)%Z ->
  piecesInv params st -> snd st = (r * gridX params)%Z ->
  let body := fun row st =>
    for_lt 0 (gridX params) (fun col st' => pushPiece params row col st') st in
  piecesInv params (for_iter m r body st) /\
  snd (for_iter m r body st) = ((r + Z.of_nat m) * gridX params)%Z.
Proof.
  induction m as [|m IH]; intros r st Hr Hgx Hinv Hidx body.
  - simpl. split; [assumption|]. rewrite Hidx. f_equal; lia.
  - cbn [for_iter].
    destruct (inner_loop_inv params r (Z.to_nat (gridX params - 0)) 0 st)
      as [Hinv' Hidx']; try assumption; try lia.
    fold (for_lt 0 (gridX params) (fun col st' => pushPiece params r col st') st)
      in Hinv', Hidx'.
    specialize (IH (r + 1)%Z (body r st)). cbv zeta in IH. fold body in IH.
    destruct IH as [H1 H2]; try assumption; try lia.
    + unfold body. rewrite Hidx'. lia.
    + split; [exact H1|]. rewrite H2. f_equal; lia.
Qed.

(** The array [generateAllPieces] returns: [gridX * gridY] pieces, the one at
    position [k] being [pieceOf params k]. *)
Lemma generateAllPieces_spec (params : PuzzleParams) :
  (0 <= gridX params)%Z -> (0 <= gridY params)%Z ->
  Z.of_nat (length (generateAllPieces params)) = (gridX params * gridY params)%Z /\
  forall k, (0 <= k < gridX params * gridY params)%Z ->
    js_get (generateAllPieces params) k = Some (pieceOf params k).
Proof.
  intros Hgx Hgy.
  destruct (outer_loop_inv params (Z.to_nat (gridY params - 0)) 0 ([], 0%Z))
    as [[Hlen Hnth] Hidx]; try lia.
  { split; [reflexivity|]. intros [|k] p H; discriminate. }
  { reflexivity. }
  unfold generateAllPieces, for_lt.
  set (st := for_iter _ _ _ _) in *.
  assert (Hl : Z.of_nat (length (fst st)) = (gridX params * gridY params)%Z) by lia.
  split; [exact Hl|].
  intros k Hk. unfold js_get.
  destruct (k <? 0)%Z eqn:E; [lia|].
  destruct (nth_error (fst st) (Z.to_nat k)) as [p|] eqn:En.
  - apply Hnth in En. rewrite Z2Nat.id in En by lia. now subst.
  - apply nth_error_None in En. lia.
Qed.

Lemma js_get_Some_range {A : Type} (arr : list A) (k : Z) (a : A) :
  js_get arr k = Some a -> (0 <= k < Z.of_nat (length arr))%Z.
Proof.
  unfold js_get. destruct (k <? 0)%Z eqn:E; [discriminate|].
  intros H. assert (nth_error arr (Z.to_nat k) <> None) by congruence.
  apply nth_error_Some in H0. lia.
Qed.

Lemma pieceOf_cell (params : PuzzleParams) (k : Z) :
  (1 <= gridX params)%Z -> (1 <= gridY params)%Z ->
  (0 <= k < gridX params * gridY params)%Z ->
  (0 <= col (pieceOf params k) < gridX params)%Z /\
  (0 <= row (pieceOf params k) < gridY params)%Z /\
  k = (row (pieceOf params k) * gridX params + col (pieceOf params k))%Z.
Proof.
  intros Hgx Hgy Hk. simpl.
  pose proof (Z.mod_pos_bound k (gridX params)) as Hm.
  pose proof (Z.div_mod k (gridX params)) as Hd.
  assert (0 <= k / gridX params)%Z by (apply Z.div_pos; lia).
  assert (k / gridX params < gridY params)%Z by (apply Z.div_lt_upper_bound; lia).
  repeat split; lia.
Qed.

(** The four neighbours of the piece of index [k], in terms of [k]. *)
Lemma pieceOf_neighbors (params : PuzzleParams) (k : Z) :
  (1 <= gridX params)%Z -> (1 <= gridY params)%Z ->
  (0 <= k < gridX params * gridY params)%Z ->
  let p := pieceOf params k in
  nLeft (neighbors p) = (if (col p >? 0)%Z then k - 1 else -1)%Z /\
  nRight (neighbors p) = (if (col p <? gridX params - 1)%Z then k + 1 else -1)%Z /\
  nBottom (neighbors p) = (if (row p >? 0)%Z then k - gridX params else -1)%Z /\
  nTop (neighbors p) = (if (row p <? gridY params - 1)%Z then k + gridX params else -1)%Z.
Proof.
  intros Hgx Hgy Hk p.
  destruct (pieceOf_cell params k Hgx Hgy Hk) as (Hc & Hr & E).
  fold p in Hc, Hr, E. simpl.
  change (k mod gridX params)%Z with (col p). change (k / gridX params)%Z with (row p).
  repeat split.
  - destruct (col p >? 0)%Z; lia.
  - destruct (col p <? gridX params - 1)%Z; lia.
  - destruct (row p >? 0)%Z; lia.
  - destruct (row p <? gridY params - 1)%Z; lia.
Qed.

Lemma cell_unique (g r c r' c' : Z) :
  (0 <= c < g)%Z -> (0 <= c' < g)%Z -> (r * g + c = r' * g + c')%Z ->
  r = r' /\ c = c'.
Proof.
  intros Hc Hc' E.
  assert (r = r') by nia.
  subst r'. split; [reflexivity|lia].
Qed.

(** C5.  For [gridX, gridY >= 1], [generateAllPieces] returns
    [gridX * gridY] pieces in row-major order, the piece at position [k]
    carrying [index = k = row * gridX + col]; a side on the grid border
    carries [-1] (and only such a side); and the neighbour relation is
    symmetric: [neighbors[i].right == j] iff [neighbors[j].left == i], and
    [neighbors[i].top == j] iff [neighbors[j].bottom == i]. *)
Theorem generateAllPieces_adjacency (params : PuzzleParams) :
  (1 <= gridX params)%Z -> (1 <= gridY params)%Z ->
  let pieces := generateAllPieces params in
  Z.of_nat (length pieces) = (gridX params * gridY params)%Z /\
  (forall k, (0 <= k < gridX params * gridY params)%Z ->
     exists p, js_get pieces k = Some p /\
       index p = k /\
       row p = (k / gridX params)%Z /\ col p = (k mod gridX params)%Z /\
       index p = (row p * gridX params + col p)%Z /\
       (0 <= col p < gridX params)%Z /\ (0 <= row p < gridY params)%Z /\
       (nLeft (neighbors p) = (-1)%Z <-> col p = 0%Z) /\
       (nRight (neighbors p) = (-1)%Z <-> col p = (gridX params - 1)%Z) /\
       (nBottom (neighbors p) = (-1)%Z <-> row p = 0%Z) /\
       (nTop (neighbors p) = (-1)%Z <-> row p = (gridY params - 1)%Z)) /\
  (forall i j pi pj,
     js_get pieces i = Some pi -> js_get pieces j = Some pj ->
     (nRight (neighbors pi) = j <-> nLeft (neighbors pj) = i) /\
     (nTop (neighbors pi) = j <-> nBottom (neighbors pj) = i)).
Proof.
  intros Hgx Hgy pieces.
  destruct (generateAllPieces_spec params) as [Hlen Hget]; try lia.
  fold pieces in Hlen, Hget.
  split; [exact Hlen|]. split.
  - intros k Hk. exists (pieceOf params k).
    destruct (pieceOf_cell params k Hgx Hgy Hk) as (Hc & Hr & E).
    destruct (pieceOf_neighbors params k Hgx Hgy Hk) as (HL & HR & HB & HT).
    split; [now apply Hget|].
    split; [reflexivity|]. split; [reflexivity|]. split; [reflexivity|].
    split; [exact E|]. split; [exact Hc|]. split; [exact Hr|].
    rewrite HL, HR, HB, HT.
    repeat split; intros H.
    + destruct (col (pieceOf params k) >? 0)%Z eqn:C; (lia || nia).
    + destruct (col (pieceOf params k) >? 0)%Z eqn:C; (lia || nia).
    + destruct (col (pieceOf params k) <? gridX params - 1)%Z eqn:C; (lia || nia).
    + destruct (col (pieceOf params k) <? gridX params - 1)%Z eqn:C; (lia || nia).
    + destruct (row (pieceOf params k) >? 0)%Z eqn:C; (lia || nia).
    + destruct (row (pieceOf params k) >? 0)%Z eqn:C; (lia || nia).
    + destruct (row (pieceOf params k) <? gridY params - 1)%Z eqn:C; (lia || nia).
    + destruct (row (pieceOf params k) <? gridY params - 1)%Z eqn:C; (lia || nia).
  - intros i j pi pj Hi Hj.
    pose proof (js_get_Some_range _ _ _ Hi) as Ri.
    pose proof (js_get_Some_range _ _ _ Hj) as Rj.
    rewrite Hlen in Ri, Rj.
    rewrite Hget in Hi, Hj by assumption.
    injection Hi as <-. injection Hj as <-.
    destruct (pieceOf_cell params i Hgx Hgy Ri) as (Hci & Hri & Ei).
    destruct (pieceOf_cell params j Hgx Hgy Rj) as (Hcj & Hrj & Ej).
    destruct (pieceOf_neighbors params i Hgx Hgy Ri) as (HLi & HRi & HBi & HTi).
    destruct (pieceOf_neighbors params j Hgx Hgy Rj) as (HLj & HRj & HBj & HTj).
    rewrite HRi, HTi, HLj, HBj.
    set (ci := col (pieceOf params i)) in *. set (ri := row (pieceOf params i)) in *.
    set (cj := col (pieceOf params j)) in *. set (rj := row (pieceOf params j)) in *.
    clearbody ci ri cj rj. clear HLi HRi HBi HTi HLj HRj HBj HTj.
    split; split; intros H.
    + destruct (Z.ltb_spec ci (gridX params - 1)) as [C|C]; [|lia].
      destruct (cell_unique (gridX params) ri (ci + 1) rj cj) as [-> <-]; try lia.
      destruct (Z.gtb_spec (ci + 1) 0); lia.
    + destruct (Z.gtb_spec cj 0) as [C|C]; [|lia].
      destruct (cell_unique (gridX params) ri ci rj (cj - 1)) as [-> ->]; try lia.
      destruct (Z.ltb_spec (cj - 1) (gridX params - 1)); lia.
    + destruct (Z.ltb_spec ri (gridY params - 1)) as [C|C]; [|lia].
      destruct (cell_unique (gridX params) (ri + 1) ci rj cj) as [<- ->]; try lia.
      destruct (Z.gtb_spec (ri + 1) 0); lia.
    + destruct (Z.gtb_spec rj 0) as [C|C]; [|lia].
      destruct (cell_unique (gridX params) ri ci (rj - 1) cj) as [-> ->]; try lia.
      destruct (Z.ltb_spec (rj - 1) (gridY params - 1)); lia.
Qed.

Lemma generateAllPieces_adjacency_witness :
  let params := mkParams 100 100 10 2 2 straight in
  let pieces := generateAllPieces params in
  Z.of_nat (length pieces) = (gridX params * gridY params)%Z /\
  (forall k, (0 <= k < gridX params * gridY params)%Z ->
     exists p, js_get pieces k = Some p /\
       index p = k /\
       row p = (k / gridX params)%Z /\ col p = (k mod gridX params)%Z /\
       index p = (row p * gridX params + col p)%Z /\
       (0 <= col p < gridX params)%Z /\ (0 <= row p < gridY params)%Z /\
       (nLeft (neighbors p) = (-1)%Z <-> col p = 0%Z) /\
       (nRight (neighbors p) = (-1)%Z <-> col p = (gridX params - 1)%Z) /\
       (nBottom (neighbors p) = (-1)%Z <-> row p = 0%Z) /\
       (nTop (neighbors p) = (-1)%Z <-> row p = (gridY params - 1)%Z)) /\
  (forall i j pi pj,
     js_get pieces i = Some pi -> js_get pieces j = Some pj ->
     (nRight (neighbors pi) = j <-> nLeft (neighbors pj) = i) /\
     (nTop (neighbors pi) = j <-> nBottom (neighbors pj) = i)).
Proof.
  intro params.
  apply (generateAllPieces_adjacency params); simpl; lia.
Defined.

(* ================================================================== *)
(** ** The snap-match engine *)
(* ================================================================== *)

Lemma js_or0_id (r : R) : js_or0 r = r.
Proof. unfold js_or0. destruct (Req_dec_T r 0); congruence. Qed.

Lemma findEdge_adjacent (info1 : PieceInfo) (j : Z) :
  adjacent info1 j -> exists e, findEdge (neighbors info1) (Some j) = Some e.
Proof.
  unfold adjacent, findEdge, strictEq. intros H.
  destruct (Z.eqb_spec (nLeft (neighbors info1)) j); [eauto|].
  destruct (Z.eqb_spec (nRight (neighbors info1)) j); [eauto|].
  destruct (Z.eqb_spec (nBottom (neighbors info1)) j); [eauto|].
  destruct (Z.eqb_spec (nTop (neighbors info1)) j); [eauto|].
  tauto.
Qed.

(** [checkSnapPossibility] on two adjacent pieces that carry their indices:
    the three possible results. *)
Lemma checkSnapPossibility_adjacent
    (piece1 piece2 : PieceTransform) (piecesInfo : list PieceInfo) (threshold : R)
    (i j : Z) (info1 info2 : PieceInfo) (e : Edge) :
  tindex piece1 = Some i -> tindex piece2 = Some j ->
  js_get piecesInfo i = Some info1 -> js_get piecesInfo j = Some info2 ->
  findEdge (neighbors info1) (Some j) = Some e ->
  checkSnapPossibility piece1 piece2 piecesInfo threshold =
  if negb (Rltb (rotationDiffOf piece1 piece2) 0.1
           || Rltb (Rabs (rotationDiffOf piece1 piece2 - 2 * PI)) 0.1)
  then Some (mkSnapResult false Infinity e None None None)
  else if Rleb (offsetDistance piece1 piece2 info1 info2) threshold
  then Some (mkSnapResult true (Finite (offsetDistance piece1 piece2 info1 info2)) e
               (Some (x piece2 + rotatedDxOf info1 info2 (rotation piece2)))
               (Some (y piece2 + rotatedDyOf info1 info2 (rotation piece2)))
               (Some (rotation piece2)))
  else Some (mkSnapResult false (Finite (offsetDistance piece1 piece2 info1 info2)) e
               None None None).
Proof.
  intros H1 H2 G1 G2 HE. unfold checkSnapPossibility.
  rewrite H1, H2. cbn [js_get_opt]. rewrite G1, G2, HE.
  rewrite js_or0_id. reflexivity.
Qed.

(** C4.  For two grid-adjacent pieces that carry valid indices and whose
    rotations match within the tolerance, [checkSnapPossibility] returns a
    result whose [distance] is the Euclidean norm of the difference between
    the current relative offset [(piece1.x - piece2.x, piece1.y - piece2.y)]
    and the assembled relative offset [(centerX1 - centerX2, centerY1 -
    centerY2)] rotated by [piece2.rotation]; [canSnap] is [distance <=
    threshold]; and when [canSnap] holds the target is [piece2]'s position
    plus the rotated offset, with [targetRotation = piece2.rotation]. *)
Theorem checkSnapPossibility_match
    (piece1 piece2 : PieceTransform) (piecesInfo : list PieceInfo) (threshold : R)
    (i j : Z) (info1 info2 : PieceInfo) :
  tindex piece1 = Some i -> tindex piece2 = Some j ->
  js_get piecesInfo i = Some info1 -> js_get piecesInfo j = Some info2 ->
  adjacent info1 j ->
  (rotationDiffOf piece1 piece2 < 0.1 \/
   Rabs (rotationDiffOf piece1 piece2 - 2 * PI) < 0.1) ->
  let dx0 := centerX info1 - centerX info2 in
  let dy0 := centerY info1 - centerY info2 in
  let rdx := dx0 * cos (rotation piece2) - dy0 * sin (rotation piece2) in
  let rdy := dx0 * sin (rotation piece2) + dy0 * cos (rotation piece2) in
  let d := sqrt (Rsqr ((x piece1 - x piece2) - rdx) + Rsqr ((y piece1 - y piece2) - rdy)) in
  exists r,
    checkSnapPossibility piece1 piece2 piecesInfo threshold = Some r /\
    distance r = Finite d /\
    (canSnap r = true <-> d <= threshold) /\
    (canSnap r = true ->
       targetX r = Some (x piece2 + rdx) /\
       targetY r = Some (y piece2 + rdy) /\
       targetRotation r = Some (rotation piece2)).
Proof.
  intros H1 H2 G1 G2 Hadj Hrot dx0 dy0 rdx rdy d.
  destruct (findEdge_adjacent info1 j Hadj) as [e HE].
  rewrite (checkSnapPossibility_adjacent piece1 piece2 piecesInfo threshold
             i j info1 info2 e H1 H2 G1 G2 HE).
  assert (Hm : Rltb (rotationDiffOf piece1 piece2) 0.1
               || Rltb (Rabs (rotationDiffOf piece1 piece2 - 2 * PI)) 0.1 = true).
  { apply orb_true_iff. destruct Hrot as [H|H]; [left|right]; now apply Rltb_true. }
  rewrite Hm. cbn [negb].
  change (offsetDistance piece1 piece2 info1 info2) with d.
  change (rotatedDxOf info1 info2 (rotation piece2)) with rdx.
  change (rotatedDyOf info1 info2 (rotation piece2)) with rdy.
  destruct (Rle_dec d threshold) as [Hle|Hgt].
  - rewrite Rleb_true by assumption. eexists; split; [reflexivity|]; cbn.
    repeat split; auto.
  - rewrite Rleb_false by lra. eexists; split; [reflexivity|]; cbn.
    split; [reflexivity|]. split; [split; [discriminate|intros; lra]|discriminate].
Qed.

Lemma pieces21_get (k : Z) :
  (0 <= k < 2)%Z -> js_get pieces21 k = Some (pieceOf params21 k).
Proof.
  intros Hk. apply (generateAllPieces_spec params21); simpl; lia.
Qed.

Lemma two_PI_pos : 0 < 2 * PI.
Proof. pose proof PI_RGT_0. lra. Qed.

Lemma js_mod_small (u b : R) : 0 <= u < b -> js_mod u b = u.
Proof.
  intros [H0 H1]. rewrite (js_mod_eval u b 0); simpl; lra.
Qed.

Lemma checkSnapPossibility_match_witness :
  let piece1 := indexedPose (-24) 0 0 0 in
  let piece2 := indexedPose 25 0 0 1 in
  let info1 := pieceOf params21 0 in
  let info2 := pieceOf params21 1 in
  let dx0 := centerX info1 - centerX info2 in
  let dy0 := centerY info1 - centerY info2 in
  let rdx := dx0 * cos (rotation piece2) - dy0 * sin (rotation piece2) in
  let rdy := dx0 * sin (rotation piece2) + dy0 * cos (rotation piece2) in
  let d := sqrt (Rsqr ((x piece1 - x piece2) - rdx) + Rsqr ((y piece1 - y piece2) - rdy)) in
  exists r,
    checkSnapPossibility piece1 piece2 pieces21 20 = Some r /\
    distance r = Finite d /\
    (canSnap r = true <-> d <= 20) /\
    (canSnap r = true ->
       targetX r = Some (x piece2 + rdx) /\
       targetY r = Some (y piece2 + rdy) /\
       targetRotation r = Some (rotation piece2)).
Proof.
  intros piece1 piece2 info1 info2.
  apply (checkSnapPossibility_match piece1 piece2 pieces21 20 0 1 info1 info2).
  - reflexivity.
  - reflexivity.
  - apply pieces21_get. lia.
  - apply pieces21_get. lia.
  - right. left. reflexivity.
  - left. unfold rotationDiffOf. cbn [rotation piece1 piece2 indexedPose].
    replace (0 - 0) with 0 by ring. rewrite Rabs_R0.
    rewrite js_mod_small; [lra|]. pose proof two_PI_pos. lra.
Defined.

Lemma PI_gt_2 : 2 < PI.
Proof. pose proof PI2_1. lra. Qed.

(** A quarter turn, up to whole turns, leaves a remainder of a quarter or
    of three quarters of a turn. *)
Lemma quarter_turn_mod (v : R) (k : Z) :
  v = PI / 2 + 2 * IZR k * PI ->
  js_mod (Rabs v) (2 * PI) = PI / 2 \/ js_mod (Rabs v) (2 * PI) = 3 * PI / 2.
Proof.
  intros ->. pose proof PI_gt_2 as HPI.
  destruct (Z_lt_le_dec k 0) as [Hk|Hk].
  - right.
    assert (Hk' : IZR k <= -1) by (apply (IZR_le k (-1)); lia).
    rewrite Rabs_left by nra.
    rewrite (js_mod_eval _ (2 * PI) (- k - 1)).
    + rewrite minus_IZR, opp_IZR. field.
    + lra.
    + nra.
    + rewrite minus_IZR, opp_IZR. split; nra.
  - left.
    assert (Hk' : 0 <= IZR k) by (apply (IZR_le 0 k); lia).
    rewrite Rabs_right by nra.
    rewrite (js_mod_eval _ (2 * PI) k).
    + field.
    + lra.
    + nra.
    + split; nra.
Qed.

(** C3 (amended).  For two grid-adjacent pieces that carry valid indices,
    in arbitrary poses, [checkSnapPossibility] returns [canSnap = false]
    with [distance = Infinity] exactly when [|rotation1 - rotation2| mod
    2*pi] is at least [0.1] away from both [0] and [2*pi] (the tolerance is
    strict: a difference of exactly [0.1] is rejected; differences closer
    than [0.1] to [2*pi] are accepted like those close to [0]).  In
    particular rotations that differ by [pi/2] modulo [2*pi] never give
    [canSnap = true], wherever the pieces are. *)
Theorem checkSnapPossibility_rotation_mismatch
    (piece1 piece2 : PieceTransform) (piecesInfo : list PieceInfo) (threshold : R)
    (i j : Z) (info1 info2 : PieceInfo) :
  tindex piece1 = Some i -> tindex piece2 = Some j ->
  js_get piecesInfo i = Some info1 -> js_get piecesInfo j = Some info2 ->
  adjacent info1 j ->
  let diff := js_mod (Rabs (rotation piece1 - rotation piece2)) (2 * PI) in
  exists r,
    checkSnapPossibility piece1 piece2 piecesInfo threshold = Some r /\
    ((canSnap r = false /\ distance r = Infinity) <->
     (0.1 <= diff /\ 0.1 <= Rabs (diff - 2 * PI))) /\
    (forall k : Z,
       rotation piece1 - rotation piece2 = PI / 2 + 2 * IZR k * PI \/
       rotation piece2 - rotation piece1 = PI / 2 + 2 * IZR k * PI ->
       canSnap r = false /\ distance r = Infinity).
Proof.
  intros H1 H2 G1 G2 Hadj diff.
  destruct (findEdge_adjacent info1 j Hadj) as [e HE].
  rewrite (checkSnapPossibility_adjacent piece1 piece2 piecesInfo threshold
             i j info1 info2 e H1 H2 G1 G2 HE).
  change (rotationDiffOf piece1 piece2) with diff.
  assert (Hquarter : forall k : Z,
            rotation piece1 - rotation piece2 = PI / 2 + 2 * IZR k * PI \/
            rotation piece2 - rotation piece1 = PI / 2 + 2 * IZR k * PI ->
            0.1 <= diff /\ 0.1 <= Rabs (diff - 2 * PI)).
  { intros k Hk. pose proof PI_gt_2 as HPI.
    assert (Hd : diff = PI / 2 \/ diff = 3 * PI / 2).
    { destruct Hk as [Hk|Hk].
      - apply (quarter_turn_mod _ k Hk).
      - unfold diff. rewrite Rabs_minus_sym. apply (quarter_turn_mod _ k Hk). }
    destruct Hd as [-> | ->]; (split; [lra|]); rewrite Rabs_left by lra; lra. }
  destruct (Rlt_dec diff 0.1) as [Ha|Ha].
  - rewrite (Rltb_true _ _ Ha). cbn [orb negb].
    destruct (Rle_dec (offsetDistance piece1 piece2 info1 info2) threshold) as [Hle|Hgt].
    + rewrite Rleb_true by assumption. eexists; split; [reflexivity|]; cbn.
      split; [split; [intros [E _]; discriminate|intros; lra]|].
      intros k Hk. apply Hquarter in Hk. lra.
    + rewrite Rleb_false by lra. eexists; split; [reflexivity|]; cbn.
      split; [split; [intros [_ E]; discriminate|intros; lra]|].
      intros k Hk. apply Hquarter in Hk. lra.
  - rewrite (Rltb_false diff 0.1) by lra. cbn [orb].
    destruct (Rlt_dec (Rabs (diff - 2 * PI)) 0.1) as [Hb|Hb].
    + rewrite (Rltb_true _ _ Hb). cbn [negb].
      destruct (Rle_dec (offsetDistance piece1 piece2 info1 info2) threshold) as [Hle|Hgt].
      * rewrite Rleb_true by assumption. eexists; split; [reflexivity|]; cbn.
        split; [split; [intros [E _]; discriminate|intros; lra]|].
        intros k Hk. apply Hquarter in Hk. lra.
      * rewrite Rleb_false by lra. eexists; split; [reflexivity|]; cbn.
        split; [split; [intros [_ E]; discriminate|intros; lra]|].
        intros k Hk. apply Hquarter in Hk. lra.
    + rewrite (Rltb_false (Rabs (diff - 2 * PI)) 0.1) by lra. cbn [negb].
      eexists; split; [reflexivity|]; cbn.
      split; [split; [intros; lra|intros; split; reflexivity]|].
      intros; split; reflexivity.
Qed.

Lemma checkSnapPossibility_rotation_mismatch_witness :
  let piece1 := indexedPose (-25) 0 (PI / 2) 0 in
  let piece2 := indexedPose 25 0 0 1 in
  let diff := js_mod (Rabs (rotation piece1 - rotation piece2)) (2 * PI) in
  exists r,
    checkSnapPossibility piece1 piece2 pieces21 20 = Some r /\
    ((canSnap r = false /\ distance r = Infinity) <->
     (0.1 <= diff /\ 0.1 <= Rabs (diff - 2 * PI))) /\
    (forall k : Z,
       rotation piece1 - rotation piece2 = PI / 2 + 2 * IZR k * PI \/
       rotation piece2 - rotation piece1 = PI / 2 + 2 * IZR k * PI ->
       canSnap r = false /\ distance r = Infinity).
Proof.
  intros piece1 piece2.
  apply (checkSnapPossibility_rotation_mismatch piece1 piece2 pieces21 20 0 1
           (pieceOf params21 0) (pieceOf params21 1)).
  - reflexivity.
  - reflexivity.
  - apply pieces21_get. lia.
  - apply pieces21_get. lia.
  - right. left. reflexivity.
Defined.

(** C3, as stated, fails on the boundary: with rotations [0.1] and [0] the
    difference is exactly [0.1], which is not farther than [0.1] from [0],
    and the result is still [canSnap = false], [distance = Infinity]. *)
Lemma rotation_tolerance_boundary_counterexample :
  let piece1 := indexedPose (-25) 0 0.1 0 in
  let piece2 := indexedPose 25 0 0 1 in
  let diff := js_mod (Rabs (rotation piece1 - rotation piece2)) (2 * PI) in
  adjacent (pieceOf params21 0) 1 /\
  checkSnapPossibility piece1 piece2 pieces21 20 =
    Some (mkSnapResult false Infinity right None None None) /\
  ~ (0.1 < diff /\ 0.1 < Rabs (diff - 2 * PI)).
Proof.
  intros piece1 piece2 diff.
  assert (Hd : diff = 0.1).
  { unfold diff. cbn [rotation piece1 piece2 indexedPose].
    replace (0.1 - 0) with 0.1 by ring. rewrite Rabs_right by lra.
    apply js_mod_small. pose proof PI_gt_2. lra. }
  split; [right; left; reflexivity|]. split.
  - rewrite (checkSnapPossibility_adjacent piece1 piece2 pieces21 20 0 1
               (pieceOf params21 0) (pieceOf params21 1) right);
      try reflexivity; try (apply pieces21_get; lia).
    change (rotationDiffOf piece1 piece2) with diff. rewrite Hd.
    rewrite (Rltb_false 0.1 0.1) by lra.
    rewrite Rltb_false; [reflexivity|].
    pose proof PI_gt_2. rewrite Rabs_left by lra. lra.
  - rewrite Hd. lra.
Qed.

(* ================================================================== *)
(** ** Poses without an index *)
(* ================================================================== *)

Lemma js_get_In {A : Type} (arr : list A) (k : Z) (a : A) :
  js_get arr k = Some a -> In a arr.
Proof.
  unfold js_get. destruct (k <? 0)%Z; [discriminate|]. apply nth_error_In.
Qed.

Lemma checkSnapPossibility_no_index
    (piece1 piece2 : PieceTransform) (piecesInfo : list PieceInfo) (threshold : R) :
  tindex piece1 = None ->
  checkSnapPossibility piece1 piece2 piecesInfo threshold = None.
Proof. intros H. unfold checkSnapPossibility. rewrite H. reflexivity. Qed.

Lemma visitNeighbor_no_index
    (piece : PieceTransform) (transforms : list PieceTransform)
    (piecesInfo : list PieceInfo) (threshold : R)
    (acc : list SnapTarget) (entry : Edge * Z) :
  tindex piece = None ->
  visitNeighbor piece transforms piecesInfo threshold acc entry = acc.
Proof.
  intros H. unfold visitNeighbor. destruct entry as [e n].
  destruct (n =? -1)%Z; [reflexivity|].
  destruct (js_get transforms n); [|reflexivity].
  now rewrite checkSnapPossibility_no_index.
Qed.

(** On an array of poses without [index], [findSnapTargets] finds nothing. *)
Lemma findSnapTargets_no_index
    (pieceIndex : Z) (transforms : list PieceTransform)
    (piecesInfo : list PieceInfo) (threshold : R) :
  noIndex transforms ->
  findSnapTargets pieceIndex transforms piecesInfo threshold = [].
Proof.
  intros Hno. unfold findSnapTargets.
  destruct (js_get transforms pieceIndex) as [piece|] eqn:Ep; [|reflexivity].
  destruct (js_get piecesInfo pieceIndex) as [pieceInfo|]; [|reflexivity].
  assert (Hp : tindex piece = None).
  { apply js_get_In in Ep. unfold noIndex in Hno. rewrite Forall_forall in Hno. auto. }
  unfold entries. cbn [fold_left].
  rewrite !visitNeighbor_no_index by assumption. reflexivity.
Qed.

Lemma noIndex_setNth (transforms : list PieceTransform) (n : nat) (t : PieceTransform) :
  noIndex transforms -> tindex t = None -> noIndex (setNth transforms n t).
Proof.
  unfold noIndex. intros H Ht. revert n.
  induction H as [|u l Hu Hl IH]; intros n; simpl.
  - constructor.
  - destruct n; constructor; auto.
Qed.

Lemma noIndex_assembled (d : R) (pieces : list PieceInfo) :
  noIndex (map (assembledTransform d) pieces).
Proof.
  unfold noIndex. apply Forall_forall. intros t Ht.
  apply in_map_iff in Ht. destruct Ht as (p & <- & _). reflexivity.
Qed.

Lemma noIndex_scatter (len : nat) (scatterRadius d : R) (pieces : list PieceInfo) :
  forall (index : Z) (g : Rng),
  noIndex (fst (mapWithRng (scatterPiece len scatterRadius d) pieces index g)).
Proof.
  induction pieces as [|p l IH]; intros index g; simpl.
  - constructor.
  - specialize (IH (index + 1)%Z
                  (mkRng (draws g) (S (S (S (cursor g)))))).
    unfold scatterPiece at 1. cbn [random draws cursor].
    destruct (mapWithRng _ l _ _) as [bs g2]. simpl in *.
    constructor; [reflexivity|assumption].
Qed.

Lemma noIndex_updatePieceTransform (index : Z) (patch : TransformPatch) (a : App) :
  patchIndex patch = None ->
  noIndex (pieceTransforms a) ->
  noIndex (pieceTransforms (updatePieceTransform index patch a)).
Proof.
  intros Hp Hno. unfold updatePieceTransform.
  destruct (js_get (pieceTransforms a) index) as [old|] eqn:E; [|assumption].
  cbn [setPieceTransforms pieceTransforms].
  apply noIndex_setNth; [assumption|].
  unfold spread; cbn [tindex]. rewrite Hp.
  apply js_get_In in E. unfold noIndex in Hno. rewrite Forall_forall in Hno. auto.
Qed.

Lemma noIndex_createPuzzlePieces (a : App) :
  noIndex (pieceTransforms a) -> noIndex (pieceTransforms (createPuzzlePieces a)).
Proof.
  intros H. unfold createPuzzlePieces.
  destruct (length (pieceTransforms a) =? 0)%nat.
  - cbn [setPieceTransforms pieceTransforms]. apply noIndex_assembled.
  - exact H.
Qed.

(** Every handler keeps the stored poses free of [index]. *)
Lemma noIndex_handle (ev : Event) (a : App) :
  noIndex (pieceTransforms a) -> noIndex (pieceTransforms (handle ev a)).
Proof.
  intros H. destruct ev as [on|params|g| |cx cy hit|cx px py| ]; cbn [handle].
  - destruct on.
    + apply noIndex_createPuzzlePieces. exact H.
    + constructor.
  - unfold paramsChanged. cbn [setParams puzzleGameMode].
    destruct (puzzleGameMode a); [|exact H].
    apply noIndex_createPuzzlePieces. constructor.
  - unfold handleScatter. destruct (piecesInfoRef a) as [|p l] eqn:E; [exact H|].
    pose proof (noIndex_scatter (length (p :: l))
                  (Rmax (width (puzzleParams a)) (height (puzzleParams a)) * 1.5)
                  (depth (puzzleParams a)) (p :: l) 0 g) as Hs.
    destruct (mapWithRng _ (p :: l) 0 g) as [newTransforms g']. exact Hs.
  - unfold handleAssemble. destruct (piecesInfoRef a) as [|p l]; [exact H|].
    cbn [setSelectedPieceIndex setPuzzleScattered setPieceTransforms pieceTransforms].
    apply noIndex_assembled.
  - unfold handleMouseDown.
    destruct (negb (puzzleGameMode a)); [exact H|].
    destruct (rotationHit hit && (selectedPieceIndex a >=? 0)%Z); [exact H|].
    destruct (pieceHit hit) as [[[pi px] py]|]; [|exact H].
    destruct (js_get (pieceTransforms a) pi); exact H.
  - unfold handleMouseMove. destruct (dragOffsetRef a) as [[ox oy] oz].
    destruct (isDraggingRef a); [exact H| |].
    + destruct (selectedPieceIndex a >=? 0)%Z; [|exact H].
      destruct (js_get (pieceTransforms a) (selectedPieceIndex a)); [|exact H].
      apply noIndex_updatePieceTransform; [reflexivity|exact H].
    + destruct (selectedPieceIndex a >=? 0)%Z; [|exact H].
      apply noIndex_updatePieceTransform; [reflexivity|exact H].
  - unfold handleMouseUp. destruct (isDraggingRef a); [exact H| |exact H].
    destruct (selectedPieceIndex a >=? 0)%Z; [|exact H].
    rewrite findSnapTargets_no_index by exact H. exact H.
Qed.

Lemma noIndex_fold (evs : list Event) :
  forall a, noIndex (pieceTransforms a) ->
  noIndex (pieceTransforms (fold_left (fun a ev => handle ev a) evs a)).
Proof.
  induction evs as [|ev evs IH]; intros a H; simpl; [exact H|].
  apply IH. apply noIndex_handle. exact H.
Qed.

(** C2.  Whatever events the application has handled, no stored pose has an
    [index] property, so [checkSnapPossibility] looks up
    [piecesInfo[undefined]] and [findSnapTargets] returns the empty array for
    every piece index, every threshold and every array of piece records: no
    snap candidate and no proximity highlight is produced, and releasing a
    dragged piece never moves it. *)
Theorem findSnapTargets_empty_on_stored_poses
    (evs : list Event) (pieceIndex : Z) (piecesInfo : list PieceInfo) (threshold : R) :
  Forall (fun t => tindex t = None) (pieceTransforms (run evs)) /\
  findSnapTargets pieceIndex (pieceTransforms (run evs)) piecesInfo threshold = [] /\
  pieceTransforms (handleMouseUp (run evs)) = pieceTransforms (run evs).
Proof.
  assert (H : noIndex (pieceTransforms (run evs))).
  { unfold run. apply noIndex_fold. constructor. }
  split; [exact H|]. split; [now apply findSnapTargets_no_index|].
  unfold handleMouseUp. destruct (isDraggingRef (run evs)); try reflexivity.
  destruct (selectedPieceIndex (run evs) >=? 0)%Z; [|reflexivity].
  rewrite findSnapTargets_no_index by exact H. reflexivity.
Qed.

(** The poses the application stores once the puzzle of [params21] has been
    created: the assembled state. *)
Lemma assembled_state_21 :
  pieceTransforms (run [EvParams params21; EvSetGameMode true]) =
    map (assembledTransform (depth params21)) pieces21 /\
  piecesInfoRef (run [EvParams params21; EvSetGameMode true]) = pieces21.
Proof. split; reflexivity. Qed.

(** C1 at a failing input.  In the grid of two columns and one row, piece 0
    has piece 1 on its right (an interior adjacency); on the assembled-state
    poses, as initialization stores them, [findSnapTargets] returns no
    candidate for piece 0 at all. *)
Theorem findSnapTargets_assembled_state_empty :
  let pieces := generateAllPieces params21 in
  let transforms := map (assembledTransform (depth params21)) pieces in
  (exists info, js_get pieces 0 = Some info /\ nRight (neighbors info) = 1%Z) /\
  transforms = pieceTransforms (run [EvParams params21; EvSetGameMode true]) /\
  findSnapTargets 0 transforms pieces 20 = [].
Proof.
  intros pieces transforms. split; [|split].
  - exists (pieceOf params21 0). split; [apply pieces21_get; lia|reflexivity].
  - symmetry. apply assembled_state_21.
  - apply findSnapTargets_no_index. apply noIndex_assembled.
Qed.

(* ================================================================== *)
(** ** Scatter *)
(* ================================================================== *)

Lemma scatterPiece_value (len : nat) (scatterRadius d : R)
    (piece : PieceInfo) (index : Z) (g : Rng) :
  scatterPiece len scatterRadius d piece index g =
  (scatterPose len scatterRadius d (draws g) (cursor g) index,
   mkRng (draws g) (S (S (S (cursor g))))).
Proof. reflexivity. Qed.

Lemma mapWithRng_scatter (len : nat) (scatterRadius d : R) (pieces : list PieceInfo) :
  forall (index : Z) (g : Rng) (ts : list PieceTransform) (g' : Rng),
  mapWithRng (scatterPiece len scatterRadius d) pieces index g = (ts, g') ->
  length ts = length pieces /\
  g' = mkRng (draws g) (cursor g + 3 * length pieces) /\
  forall k t, nth_error ts k = Some t ->
    t = scatterPose len scatterRadius d (draws g) (cursor g + 3 * k) (index + Z.of_nat k).
Proof.
  induction pieces as [|p l IH]; intros index g ts g' E.
  - simpl in E. injection E as <- <-. split; [reflexivity|]. split.
    + destruct g; simpl. f_equal. lia.
    + intros [|k] t H; discriminate.
  - cbn [mapWithRng] in E. rewrite scatterPiece_value in E.
    destruct (mapWithRng (scatterPiece len scatterRadius d) l (index + 1)
                (mkRng (draws g) (S (S (S (cursor g)))))) as [bs g2] eqn:E2.
    injection E as <- <-.
    destruct (IH _ _ _ _ E2) as (Hlen & Hg & Hnth). cbn [draws cursor] in Hg, Hnth.
    split; [simpl; now rewrite Hlen|]. split.
    + rewrite Hg. f_equal. simpl length. lia.
    + intros [|k] t H.
      * simpl in H. injection H as <-.
        replace (cursor g + 3 * 0)%nat with (cursor g) by lia.
        rewrite Z.add_0_r. reflexivity.
      * simpl in H. apply Hnth in H. subst t.
        replace (S (S (S (cursor g))) + 3 * k)%nat with (cursor g + 3 * S k)%nat by lia.
        replace (index + 1 + Z.of_nat k)%Z with (index + Z.of_nat (S k))%Z by lia.
        reflexivity.
Qed.

(** A point at angle [angle] and non-negative radius is at that distance
    from the origin. *)
Lemma polar_distance (angle radius : R) :
  0 <= radius ->
  sqrt (Rsqr (cos angle * radius) + Rsqr (sin angle * radius)) = radius.
Proof.
  intros Hr.
  replace (Rsqr (cos angle * radius) + Rsqr (sin angle * radius))
    with (Rsqr radius).
  - now apply sqrt_Rsqr.
  - pose proof (sin2_cos2 angle) as H. unfold Rsqr in *. nra.
Qed.

(** C10.  With at least one piece, positive [width] and [height], and draws
    of [Math.random] in [[0, 1)], [handleScatter] gives every piece a pose
    built from three draws of its own: a position at the angle
    [index / n * 2*pi + r1 * 0.5] and at the radius
    [1.5 * max(width, height) * (0.5 + r2 * 0.5)], hence at a distance from
    the origin within [[0.5, 1.0] * 1.5 * max(width, height)]; the rotation
    [r3 * 2*pi], within [[0, 2*pi)]; [z = depth / 2]; and it sets
    [selectedPieceIndex] to [-1] (and [puzzleScattered] to [true]). *)
Theorem handleScatter_poses (a : App) (g : Rng) :
  piecesInfoRef a <> [] ->
  0 < width (puzzleParams a) -> 0 < height (puzzleParams a) ->
  (forall n, 0 <= draws g n < 1) ->
  let a' := fst (handleScatter a g) in
  let n := length (piecesInfoRef a) in
  let scatterRadius := 1.5 * Rmax (width (puzzleParams a)) (height (puzzleParams a)) in
  selectedPieceIndex a' = (-1)%Z /\
  puzzleScattered a' = true /\
  length (pieceTransforms a') = n /\
  cursor (snd (handleScatter a g)) = (cursor g + 3 * n)%nat /\
  forall k t, nth_error (pieceTransforms a') k = Some t ->
    let r1 := draws g (cursor g + 3 * k) in
    let r2 := draws g (cursor g + 3 * k + 1) in
    let r3 := draws g (cursor g + 3 * k + 2) in
    let angle := INR k / INR n * PI * 2 + r1 * 0.5 in
    let radius := scatterRadius * (0.5 + r2 * 0.5) in
    x t = cos angle * radius /\ y t = sin angle * radius /\
    0.5 * scatterRadius <= radius <= 1.0 * scatterRadius /\
    sqrt (Rsqr (x t) + Rsqr (y t)) = radius /\
    rotation t = r3 * PI * 2 /\ 0 <= rotation t < 2 * PI /\
    z t = depth (puzzleParams a) / 2.
Proof.
  intros Hne Hw Hh Hdraws a' n scatterRadius.
  unfold handleScatter in a' |- *.
  destruct (piecesInfoRef a) as [|p l] eqn:E; [contradiction|].
  destruct (mapWithRng _ (p :: l) 0 g) as [newTransforms g'] eqn:Em.
  destruct (mapWithRng_scatter _ _ _ _ _ _ _ _ Em) as (Hlen & Hg & Hnth).
  subst a'. cbn [fst snd setSelectedPieceIndex setPuzzleScattered setPieceTransforms
                 selectedPieceIndex puzzleScattered pieceTransforms].
  split; [reflexivity|]. split; [reflexivity|]. split; [exact Hlen|].
  split; [rewrite Hg; reflexivity|].
  intros k t Ht.
  set (r1 := draws g (cursor g + 3 * k)).
  set (r2 := draws g (cursor g + 3 * k + 1)).
  set (r3 := draws g (cursor g + 3 * k + 2)).
  set (angle := INR k / INR n * PI * 2 + r1 * 0.5).
  set (radius := scatterRadius * (0.5 + r2 * 0.5)).
  apply Hnth in Ht.
  assert (Et : t = mkTransform (cos angle * radius) (sin angle * radius)
                     (depth (puzzleParams a) / 2) (r3 * PI * 2) None).
  { rewrite Ht. unfold scatterPose.
    replace (S (cursor g + 3 * k)) with (cursor g + 3 * k + 1)%nat by lia.
    replace (S (cursor g + 3 * k + 1)) with (cursor g + 3 * k + 2)%nat by lia.
    rewrite Z.add_0_l, <- INR_IZR_INZ.
    replace (Rmax (width (puzzleParams a)) (height (puzzleParams a)) * 1.5)
      with scatterRadius by (unfold scatterRadius; ring).
    reflexivity. }
  clear Ht. subst t. cbn [x y z rotation].
  assert (HR : 0 < scatterRadius).
  { unfold scatterRadius.
    pose proof (Rmax_l (width (puzzleParams a)) (height (puzzleParams a))). lra. }
  pose proof (Hdraws (cursor g + 3 * k + 1)%nat) as H2.
  pose proof (Hdraws (cursor g + 3 * k + 2)%nat) as H3.
  fold r2 in H2. fold r3 in H3.
  assert (Hb : 0.5 * scatterRadius <= radius <= 1.0 * scatterRadius).
  { unfold radius. split; nra. }
  pose proof PI_RGT_0 as HPI.
  split; [reflexivity|]. split; [reflexivity|]. split; [exact Hb|].
  split; [apply polar_distance; lra|].
  split; [reflexivity|]. split; [split; nra|reflexivity].
Qed.

Lemma pieces21_nonempty : pieces21 <> [].
Proof.
  intros E. pose proof (pieces21_get 0 ltac:(lia)) as H.
  rewrite E in H. discriminate.
Qed.

Lemma handleScatter_poses_witness :
  let a := run [EvParams params21; EvSetGameMode true] in
  let g := mkRng (fun _ => 0.25) 0 in
  let a' := fst (handleScatter a g) in
  let n := length (piecesInfoRef a) in
  let scatterRadius := 1.5 * Rmax (width (puzzleParams a)) (height (puzzleParams a)) in
  selectedPieceIndex a' = (-1)%Z /\
  puzzleScattered a' = true /\
  length (pieceTransforms a') = n /\
  cursor (snd (handleScatter a g)) = (cursor g + 3 * n)%nat /\
  forall k t, nth_error (pieceTransforms a') k = Some t ->
    let r1 := draws g (cursor g + 3 * k) in
    let r2 := draws g (cursor g + 3 * k + 1) in
    let r3 := draws g (cursor g + 3 * k + 2) in
    let angle := INR k / INR n * PI * 2 + r1 * 0.5 in
    let radius := scatterRadius * (0.5 + r2 * 0.5) in
    x t = cos angle * radius /\ y t = sin angle * radius /\
    0.5 * scatterRadius <= radius <= 1.0 * scatterRadius /\
    sqrt (Rsqr (x t) + Rsqr (y t)) = radius /\
    rotation t = r3 * PI * 2 /\ 0 <= rotation t < 2 * PI /\
    z t = depth (puzzleParams a) / 2.
Proof.
  intros a g.
  apply (handleScatter_poses a g).
  - exact pieces21_nonempty.
  - change (0 < 100). lra.
  - change (0 < 100). lra.
  - intros n. change (0 <= 0.25 < 1). lra.
Defined.

(* ================================================================== *)
(** ** The recorded centre and the centroid *)
(* ================================================================== *)

Lemma pathSum_cons2 (f : Vector2 -> Vector2 -> R) (p q : Vector2) (l : list Vector2) :
  pathSum f (p :: q :: l) = f p q + pathSum f (q :: l).
Proof. reflexivity. Qed.

(** A run of points on one line counts as the segment between its ends. *)
Lemma pathSum_collapse (P : Vector2 -> Prop) (f : Vector2 -> Vector2 -> R) :
  additiveOn P f ->
  forall (l : list Vector2) (p q : Vector2) (rest : list Vector2),
  P p -> Forall P l -> P q ->
  pathSum f (p :: l ++ q :: rest) = f p q + pathSum f (q :: rest).
Proof.
  intros Hadd. induction l as [|u l IH]; intros p q rest Hp Hl Hq.
  - reflexivity.
  - inversion Hl as [|? ? Hu Hl']; subst.
    change (p :: (u :: l) ++ q :: rest) with (p :: u :: l ++ q :: rest).
    rewrite pathSum_cons2, IH by assumption.
    rewrite <- (Hadd p u q) by assumption. ring.
Qed.

(** A ring that runs along the four sides of a rectangle has the shoelace
    sums of the rectangle. *)
Lemma ringSum_four_sides
    (f : Vector2 -> Vector2 -> R) (Pb Pr Pt Pl : Vector2 -> Prop)
    (c1 c2 c3 c4 : Vector2) (Bm Rm Tm Lm : list Vector2) :
  additiveOn Pb f -> additiveOn Pr f -> additiveOn Pt f -> additiveOn Pl f ->
  Pb c1 -> Pb c2 -> Pr c2 -> Pr c3 -> Pt c3 -> Pt c4 -> Pl c4 -> Pl c1 ->
  Forall Pb Bm -> Forall Pr Rm -> Forall Pt Tm -> Forall Pl Lm ->
  ringSum f (c1 :: Bm ++ c2 :: Rm ++ c3 :: Tm ++ c4 :: Lm) =
  f c1 c2 + f c2 c3 + f c3 c4 + f c4 c1.
Proof.
  intros Ab Ar At Al B1 B2 R2 R3 T3 T4 L4 L1 FB FR FT FL.
  unfold ringSum.
  replace ((c1 :: Bm ++ c2 :: Rm ++ c3 :: Tm ++ c4 :: Lm) ++ [c1])
    with (c1 :: Bm ++ c2 :: Rm ++ c3 :: Tm ++ c4 :: Lm ++ c1 :: []).
  - rewrite (pathSum_collapse Pb f Ab) by assumption.
    rewrite (pathSum_collapse Pr f Ar) by assumption.
    rewrite (pathSum_collapse Pt f At) by assumption.
    rewrite (pathSum_collapse Pl f Al) by assumption.
    simpl. ring.
  - simpl. f_equal. rewrite <- !app_assoc. simpl. f_equal. f_equal.
    rewrite <- !app_assoc. simpl. f_equal. f_equal.
    rewrite <- !app_assoc. reflexivity.
Qed.

Lemma additive_row (Y : R) :
  additiveOn (onRow Y) cross /\ additiveOn (onRow Y) momentXTerm /\
  additiveOn (onRow Y) momentYTerm.
Proof.
  unfold additiveOn, onRow, momentXTerm, momentYTerm, cross.
  repeat split; intros [px py] [qx qy] [rx ry]; simpl; intros -> -> ->; ring.
Qed.

Lemma additive_column (X : R) :
  additiveOn (onColumn X) cross /\ additiveOn (onColumn X) momentXTerm /\
  additiveOn (onColumn X) momentYTerm.
Proof.
  unfold additiveOn, onColumn, momentXTerm, momentYTerm, cross.
  repeat split; intros [px py] [qx qy] [rx ry]; simpl; intros -> -> ->; ring.
Qed.

(** The shoelace sums of a ring along the rectangle
    [[x1, x2] x [y1, y2]], walked from [(x1, y1)] towards [(x2, y1)]. *)
Lemma rectangle_ring_sums (x1 x2 y1 y2 : R) (Bm Rm Tm Lm : list Vector2) :
  Forall (onRow y1) Bm -> Forall (onColumn x2) Rm ->
  Forall (onRow y2) Tm -> Forall (onColumn x1) Lm ->
  let l := mkVector2 x1 y1 :: Bm ++ mkVector2 x2 y1 :: Rm ++
           mkVector2 x2 y2 :: Tm ++ mkVector2 x1 y2 :: Lm in
  area2 l = 2 * (x2 - x1) * (y2 - y1) /\
  momentX l = (x1 + x2) * (3 * (x2 - x1) * (y2 - y1)) /\
  momentY l = (y1 + y2) * (3 * (x2 - x1) * (y2 - y1)).
Proof.
  intros FB FR FT FL l.
  destruct (additive_row y1) as (Ab1 & Ab2 & Ab3).
  destruct (additive_column x2) as (Ar1 & Ar2 & Ar3).
  destruct (additive_row y2) as (At1 & At2 & At3).
  destruct (additive_column x1) as (Al1 & Al2 & Al3).
  unfold area2, momentX, momentY. subst l.
  fold momentXTerm. fold momentYTerm.
  split; [|split].
  - rewrite (ringSum_four_sides cross (onRow y1) (onColumn x2) (onRow y2) (onColumn x1));
      try assumption; try reflexivity.
    unfold cross; simpl. ring.
  - rewrite (ringSum_four_sides momentXTerm (onRow y1) (onColumn x2) (onRow y2) (onColumn x1));
      try assumption; try reflexivity.
    unfold momentXTerm, cross; simpl. ring.
  - rewrite (ringSum_four_sides momentYTerm (onRow y1) (onColumn x2) (onRow y2) (onColumn x1));
      try assumption; try reflexivity.
    unfold momentYTerm, cross; simpl. ring.
Qed.

(** A straight generated edge: its two ends and, between them, points of
    the same line. *)
Lemma straight_horizontal_edge (x0 x1 Y a : R) :
  exists mid,
    generateHorizontalEdge x0 x1 Y straight a default_segments =
      mkVector2 x0 Y :: mid ++ [mkVector2 x1 Y] /\
    Forall (onRow Y) mid.
Proof.
  exists (map (hPoint x0 x1 Y straight a default_segments) (zrange 1 29)).
  split.
  - rewrite generateHorizontalEdge_points.
    change (zrange 0 (Z.to_nat (default_segments + 1)))
      with (0%Z :: zrange 1 29 ++ [30%Z]).
    rewrite map_cons, map_app. cbn [map]. f_equal; [|f_equal; f_equal].
    + unfold hPoint, default_segments; cbn [splitOffset]. f_equal; field.
    + unfold hPoint, default_segments; cbn [splitOffset]. f_equal; field.
  - apply Forall_forall. intros p Hp. apply in_map_iff in Hp.
    destruct Hp as (i & <- & _). unfold onRow, hPoint; cbn [vy splitOffset]. ring.
Qed.

Lemma straight_vertical_edge (X y0 y1 a : R) :
  exists mid,
    generateVerticalEdge X y0 y1 straight a default_segments =
      mkVector2 X y0 :: mid ++ [mkVector2 X y1] /\
    Forall (onColumn X) mid.
Proof.
  exists (map (vPoint X y0 y1 straight a default_segments) (zrange 1 29)).
  split.
  - rewrite generateVerticalEdge_points.
    change (zrange 0 (Z.to_nat (default_segments + 1)))
      with (0%Z :: zrange 1 29 ++ [30%Z]).
    rewrite map_cons, map_app. cbn [map]. f_equal; [|f_equal; f_equal].
    + unfold vPoint, default_segments; cbn [splitOffset]. f_equal; field.
    + unfold vPoint, default_segments; cbn [splitOffset]. f_equal; field.
  - apply Forall_forall. intros p Hp. apply in_map_iff in Hp.
    destruct Hp as (i & <- & _). unfold onColumn, vPoint; cbn [vx splitOffset]. ring.
Qed.

(** With straight cuts the outline runs along the four sides of the cell,
    whichever sides are on the border. *)
Lemma straight_outline (params : PuzzleParams) (col row : Z) :
  splitMode params = straight ->
  exists Bm Rm Tm Lm,
    pieceOutline col row params =
      mkVector2 (xLeftOf col params) (yBottomOf row params) :: Bm ++
      mkVector2 (xRightOf col params) (yBottomOf row params) :: Rm ++
      mkVector2 (xRightOf col params) (yTopOf row params) :: Tm ++
      mkVector2 (xLeftOf col params) (yTopOf row params) :: Lm /\
    Forall (onRow (yBottomOf row params)) Bm /\
    Forall (onColumn (xRightOf col params)) Rm /\
    Forall (onRow (yTopOf row params)) Tm /\
    Forall (onColumn (xLeftOf col params)) Lm.
Proof.
  intros Hm. unfold pieceOutline, bottomEdge, rightEdge, topEdge, leftEdge.
  rewrite Hm.
  set (xL := xLeftOf col params). set (xR := xRightOf col params).
  set (yB := yBottomOf row params). set (yT := yTopOf row params).
  set (a := amplitudeOf params).
  destruct (straight_horizontal_edge xL xR yB a) as (bm & -> & Hbm).
  destruct (straight_vertical_edge xR yB yT a) as (rm & -> & Hrm).
  destruct (straight_horizontal_edge xR xL yT a) as (tm & -> & Htm).
  destruct (straight_vertical_edge xL yT yB a) as (lm & -> & Hlm).
  unfold slice1, slice1m1. cbn [tl]. rewrite removelast_last.
  exists (if (row =? 0)%Z then [] else bm).
  exists (if (col =? gridX params - 1)%Z then [] else rm).
  exists (if (row =? gridY params - 1)%Z then [] else tm).
  exists (if (col =? 0)%Z then [] else lm).
  split.
  - destruct (row =? 0)%Z, (col =? gridX params - 1)%Z,
             (row =? gridY params - 1)%Z, (col =? 0)%Z;
      cbn [app]; rewrite <- ?app_assoc; cbn [app]; rewrite ?app_nil_r;
      reflexivity.
  - repeat split.
    + destruct (row =? 0)%Z; [constructor|assumption].
    + destruct (col =? gridX params - 1)%Z; [constructor|assumption].
    + destruct (row =? gridY params - 1)%Z; [constructor|assumption].
    + destruct (col =? 0)%Z; [constructor|assumption].
Qed.

Lemma Forall_onRow_shift (Y cx cy : R) (l : list Vector2) :
  Forall (onRow Y) l ->
  Forall (onRow (Y - cy)) (map (fun p => mkVector2 (vx p - cx) (vy p - cy)) l).
Proof.
  intros H. apply Forall_forall. intros q Hq. apply in_map_iff in Hq.
  destruct Hq as (p & <- & Hp). rewrite Forall_forall in H.
  unfold onRow; cbn [vy]. now rewrite (H p Hp).
Qed.

Lemma Forall_onColumn_shift (X cx cy : R) (l : list Vector2) :
  Forall (onColumn X) l ->
  Forall (onColumn (X - cx)) (map (fun p => mkVector2 (vx p - cx) (vy p - cy)) l).
Proof.
  intros H. apply Forall_forall. intros q Hq. apply in_map_iff in Hq.
  destruct Hq as (p & <- & Hp). rewrite Forall_forall in H.
  unfold onColumn; cbn [vx]. now rewrite (H p Hp).
Qed.

Lemma pieceW_pos (params : PuzzleParams) :
  0 < width params -> (1 <= gridX params)%Z -> 0 < pieceW params.
Proof.
  intros Hw Hg. unfold pieceW, Rdiv. apply Rmult_lt_0_compat; [assumption|].
  apply Rinv_0_lt_compat. apply (IZR_lt 0). lia.
Qed.

Lemma pieceH_pos (params : PuzzleParams) :
  0 < height params -> (1 <= gridY params)%Z -> 0 < pieceH params.
Proof.
  intros Hh Hg. unfold pieceH, Rdiv. apply Rmult_lt_0_compat; [assumption|].
  apply Rinv_0_lt_compat. apply (IZR_lt 0). lia.
Qed.

(** C8 (amended).  For every piece [(col, row)] and every [splitMode],
    [createPieceShape] records the centre of the piece's grid cell,
    [(xLeft + pieceW / 2, yBottom + pieceH / 2)], and returns the outline
    translated by it.  With [splitMode = 'straight'] (and positive sizes)
    that centre is the area centroid of the outline polygon, so the local
    ring has its area centroid at the origin. *)
Theorem createPieceShape_center (params : PuzzleParams) (col row : Z) :
  0 < width params -> 0 < height params ->
  (1 <= gridX params)%Z -> (1 <= gridY params)%Z ->
  let s := createPieceShape col row params in
  shapeCenterX s = - (width params / 2) + (IZR col + 1 / 2) * pieceW params /\
  shapeCenterY s = - (height params / 2) + (IZR row + 1 / 2) * pieceH params /\
  shape s =
    map (fun p => mkVector2 (vx p - shapeCenterX s) (vy p - shapeCenterY s))
      (pieceOutline col row params) /\
  (splitMode params = straight ->
     area2 (shape s) = 2 * pieceW params * pieceH params /\
     0 < area2 (shape s) /\
     polygonCentroid (shape s) = mkVector2 0 0 /\
     polygonCentroid (pieceOutline col row params) =
       mkVector2 (shapeCenterX s) (shapeCenterY s)).
Proof.
  intros Hw Hh Hgx Hgy s.
  pose proof (pieceW_pos params Hw Hgx) as HpW.
  pose proof (pieceH_pos params Hh Hgy) as HpH.
  split; [|split; [|split]].
  - subst s; cbn [createPieceShape shapeCenterX]. unfold xRightOf, xLeftOf. field.
  - subst s; cbn [createPieceShape shapeCenterY]. unfold yTopOf, yBottomOf. field.
  - reflexivity.
  - intros Hm.
    destruct (straight_outline params col row Hm)
      as (Bm & Rm & Tm & Lm & Hout & FB & FR & FT & FL).
    set (xL := xLeftOf col params) in *. set (xR := xRightOf col params) in *.
    set (yB := yBottomOf row params) in *. set (yT := yTopOf row params) in *.
    assert (HxR : xR - xL = pieceW params) by (unfold xR, xL, xRightOf; ring).
    assert (HyT : yT - yB = pieceH params) by (unfold yT, yB, yTopOf; ring).
    assert (Hcx : shapeCenterX s = (xL + xR) / 2) by reflexivity.
    assert (Hcy : shapeCenterY s = (yB + yT) / 2) by reflexivity.
    set (cx := shapeCenterX s) in *. set (cy := shapeCenterY s) in *.
    assert (Hs : shape s =
              mkVector2 (xL - cx) (yB - cy) :: map (fun p => mkVector2 (vx p - cx) (vy p - cy)) Bm ++
              mkVector2 (xR - cx) (yB - cy) :: map (fun p => mkVector2 (vx p - cx) (vy p - cy)) Rm ++
              mkVector2 (xR - cx) (yT - cy) :: map (fun p => mkVector2 (vx p - cx) (vy p - cy)) Tm ++
              mkVector2 (xL - cx) (yT - cy) :: map (fun p => mkVector2 (vx p - cx) (vy p - cy)) Lm).
    { change (shape s) with
        (map (fun p => mkVector2 (vx p - cx) (vy p - cy)) (pieceOutline col row params)).
      rewrite Hout. cbn [map]. rewrite !map_app. cbn [map]. rewrite !map_app. cbn [map].
      rewrite !map_app. cbn [map vx vy]. reflexivity. }
    destruct (rectangle_ring_sums (xL - cx) (xR - cx) (yB - cy) (yT - cy)
                _ _ _ _
                (Forall_onRow_shift yB cx cy Bm FB)
                (Forall_onColumn_shift xR cx cy Rm FR)
                (Forall_onRow_shift yT cx cy Tm FT)
                (Forall_onColumn_shift xL cx cy Lm FL)) as (HA & HX & HY).
    cbv zeta in HA, HX, HY. rewrite <- Hs in HA, HX, HY.
    destruct (rectangle_ring_sums xL xR yB yT Bm Rm Tm Lm FB FR FT FL)
      as (GA & GX & GY).
    cbv zeta in GA, GX, GY. rewrite <- Hout in GA, GX, GY.
    assert (EA : area2 (shape s) = 2 * pieceW params * pieceH params).
    { rewrite HA. rewrite <- HxR, <- HyT. ring. }
    assert (PA : 0 < area2 (shape s)) by (rewrite EA; nra).
    split; [exact EA|]. split; [exact PA|]. split.
    + unfold polygonCentroid. rewrite HX, HY.
      replace (xL - cx + (xR - cx)) with 0 by (rewrite Hcx; field).
      replace (yB - cy + (yT - cy)) with 0 by (rewrite Hcy; field).
      f_equal; unfold Rdiv; ring.
    + unfold polygonCentroid. rewrite GX, GY, GA, Hcx, Hcy.
      assert (xR - xL <> 0) by lra. assert (yT - yB <> 0) by lra.
      f_equal; field; split; assumption.
Qed.

Lemma createPieceShape_center_witness :
  let params := mkParams 100 100 10 2 2 straight in
  let s := createPieceShape 0 0 params in
  shapeCenterX s = - (width params / 2) + (IZR 0 + 1 / 2) * pieceW params /\
  shapeCenterY s = - (height params / 2) + (IZR 0 + 1 / 2) * pieceH params /\
  shape s =
    map (fun p => mkVector2 (vx p - shapeCenterX s) (vy p - shapeCenterY s))
      (pieceOutline 0 0 params) /\
  (splitMode params = straight ->
     area2 (shape s) = 2 * pieceW params * pieceH params /\
     0 < area2 (shape s) /\
     polygonCentroid (shape s) = mkVector2 0 0 /\
     polygonCentroid (pieceOutline 0 0 params) =
       mkVector2 (shapeCenterX s) (shapeCenterY s)).
Proof.
  intro params.
  apply (createPieceShape_center params 0 0).
  - change (0 < 100). lra.
  - change (0 < 100). lra.
  - simpl. lia.
  - simpl. lia.
Defined.

(** *** A zigzag piece whose centroid is off the recorded centre *)

Lemma zig_sample (i n : Z) (a : R) :
  (0 <= i)%Z -> zigNum i = n ->
  splitOffset (IZR i / IZR default_segments) zigzag a = IZR n / 15 * a - a * 0.5.
Proof.
  intros Hi <-. rewrite splitOffset_zigzag. f_equal. f_equal.
  unfold default_segments, zigNum.
  pose proof (Z.div_mod (4 * i) 15 ltac:(lia)) as Hd.
  pose proof (Z.mod_pos_bound (4 * i) 15 ltac:(lia)) as Hm.
  set (q := (4 * i / 15)%Z) in *. set (m := ((4 * i) mod 15)%Z) in *.
  assert (Hu : IZR i / 30 * 8 = IZR q + IZR m / 15).
  { assert (E : IZR (4 * i) = IZR (15 * q + m)) by (f_equal; exact Hd).
    rewrite mult_IZR, plus_IZR, mult_IZR in E. lra. }
  assert (Hm0 : 0 <= IZR m) by (apply (IZR_le 0); lia).
  assert (Hm1 : IZR m <= 14) by (apply (IZR_le m 14); lia).
  assert (Hq : 0 <= IZR q).
  { apply (IZR_le 0). apply Z.div_pos; lia. }
  rewrite (js_mod_1_eval _ q) by (rewrite Hu; lra).
  rewrite Hu. replace (IZR q + IZR m / 15 - IZR q) with (IZR m / 15) by ring.
  unfold triangle.
  destruct (Z.ltb_spec (2 * m) 15) as [H|H].
  - assert (IZR (2 * m) <= 14) by (apply (IZR_le _ 14); lia).
    rewrite mult_IZR in *. rewrite Rltb_true by lra. lra.
  - assert (15 <= IZR (2 * m)) by (apply (IZR_le 15); lia).
    rewrite mult_IZR, minus_IZR. rewrite mult_IZR in *. rewrite Rltb_false by lra. lra.
Qed.

Lemma params12_frame :
  xLeftOf 0 params12 = -15 /\ xRightOf 0 params12 = 15 /\
  yBottomOf 0 params12 = -30 /\ yTopOf 0 params12 = 0 /\
  amplitudeOf params12 = 2.4.
Proof.
  assert (HW : pieceW params12 = 30) by (unfold pieceW; simpl; lra).
  assert (HH : pieceH params12 = 30) by (unfold pieceH; simpl; lra).
  unfold xRightOf, yTopOf, xLeftOf, yBottomOf, amplitudeOf. rewrite HW, HH.
  rewrite Rmin_left by lra. simpl. repeat split; lra.
Qed.

Ltac zig_at i :=
  let n := eval vm_compute in (zigNum i) in
  rewrite (zig_sample i n) by (lia || reflexivity).

(** Piece [(0, 0)] of a grid of one column and two rows, 30 by 60, cut in
    zigzag: border below, right and left, a generated edge above. *)
Lemma zigzag_piece_outline :
  pieceOutline 0 0 params12 =
  mkVector2 (xLeftOf 0 params12) (yBottomOf 0 params12) ::
  mkVector2 (xRightOf 0 params12) (yBottomOf 0 params12) ::
  mkVector2 (xRightOf 0 params12) (yTopOf 0 params12) ::
  map (hPoint (xRightOf 0 params12) (xLeftOf 0 params12) (yTopOf 0 params12)
         zigzag (amplitudeOf params12) default_segments) (zrange 1 30).
Proof.
  unfold pieceOutline.
  change (0 =? 0)%Z with true. change (0 =? gridX params12 - 1)%Z with true.
  change (0 =? gridY params12 - 1)%Z with false. cbn [app].
  unfold topEdge. rewrite generateHorizontalEdge_points.
  reflexivity.
Qed.

Lemma zigzag_piece_ring : shape (createPieceShape 0 0 params12) = zigzagRing12.
Proof.
  unfold createPieceShape. cbn [shape]. rewrite zigzag_piece_outline.
  destruct params12_frame as (-> & -> & -> & -> & ->).
  change (zrange 1 30) with
    [1; 2; 3; 4; 5; 6; 7; 8; 9; 10; 11; 12; 13; 14; 15; 16; 17; 18; 19; 20;
     21; 22; 23; 24; 25; 26; 27; 28; 29; 30]%Z.
  cbn [map]. unfold hPoint. cbn [vx vy].
  zig_at 1%Z. zig_at 2%Z. zig_at 3%Z. zig_at 4%Z. zig_at 5%Z. zig_at 6%Z.
  zig_at 7%Z. zig_at 8%Z. zig_at 9%Z. zig_at 10%Z. zig_at 11%Z. zig_at 12%Z.
  zig_at 13%Z. zig_at 14%Z. zig_at 15%Z. zig_at 16%Z. zig_at 17%Z. zig_at
  18%Z. zig_at 19%Z. zig_at 20%Z. zig_at 21%Z. zig_at 22%Z. zig_at 23%Z.
  zig_at 24%Z. zig_at 25%Z. zig_at 26%Z. zig_at 27%Z. zig_at 28%Z. zig_at
  29%Z. zig_at 30%Z.
  unfold default_segments, zigzagRing12.
  repeat (apply f_equal2; [apply f_equal2; lra|]).
  reflexivity.
Qed.

(** C8, as stated, fails for a zigzag piece: the area centroid of the local
    ring returned by [createPieceShape] is [(220/22511, 6861/562775)], not
    the origin; nor is the mean of its vertices, [(0, 10871/825)]. *)
Lemma zigzag_centroid_counterexample :
  let s := createPieceShape 0 0 params12 in
  area2 (shape s) = 45022 / 25 /\
  momentX (shape s) = 264 / 5 /\
  momentY (shape s) = 41166 / 625 /\
  polygonCentroid (shape s) = mkVector2 (220 / 22511) (6861 / 562775) /\
  polygonCentroid (shape s) <> mkVector2 0 0 /\
  vertexMean (shape s) <> mkVector2 0 0.
Proof.
  intro s. subst s. rewrite zigzag_piece_ring.
  assert (HA : area2 zigzagRing12 = 45022 / 25).
  { unfold area2, ringSum, zigzagRing12. cbn [app pathSum]. unfold cross.
    cbn [vx vy]. lra. }
  assert (HX : momentX zigzagRing12 = 264 / 5).
  { unfold momentX, ringSum, zigzagRing12. cbn [app pathSum]. unfold cross.
    cbn [vx vy]. lra. }
  assert (HY : momentY zigzagRing12 = 41166 / 625).
  { unfold momentY, ringSum, zigzagRing12. cbn [app pathSum]. unfold cross.
    cbn [vx vy]. lra. }
  assert (HC : polygonCentroid zigzagRing12 = mkVector2 (220 / 22511) (6861 / 562775)).
  { unfold polygonCentroid. rewrite HA, HX, HY. f_equal; lra. }
  assert (HS : sumY zigzagRing12 = 10871 / 25).
  { unfold sumY, zigzagRing12. cbn [fold_right vy]. lra. }
  split; [exact HA|]. split; [exact HX|]. split; [exact HY|]. split; [exact HC|].
  split.
  - rewrite HC. intros E. injection E as E1 E2. lra.
  - unfold vertexMean. rewrite HS. intros E. injection E as _ E2.
    assert (Hn : 0 < INR (length zigzagRing12)) by (apply lt_0_INR; simpl; lia).
    assert (Hq : 0 < 10871 / 25 / INR (length zigzagRing12)).
    { apply Rdiv_lt_0_compat; [lra|exact Hn]. }
    lra.
Qed.

(* ================================================================== *)
(** ** The assembled state with indexed poses *)
(* ================================================================== *)

Lemma attachIndex_nth (l : list PieceTransform) :
  forall (i : Z) (k : nat) (t : PieceTransform),
  nth_error l k = Some t ->
  nth_error (attachIndex i l) k =
    Some (mkTransform (x t) (y t) (z t) (rotation t) (Some (i + Z.of_nat k)%Z)).
Proof.
  induction l as [|u l IH]; intros i k t H.
  - destruct k; discriminate.
  - destruct k as [|k]; simpl in *.
    + injection H as <-. now rewrite Z.add_0_r.
    + rewrite (IH (i + 1)%Z k t H). do 2 f_equal. f_equal. lia.
Qed.

Lemma indexed_assembled_get (d : R) (pieces : list PieceInfo) (k : Z) (p : PieceInfo) :
  js_get pieces k = Some p ->
  js_get (attachIndex 0 (map (assembledTransform d) pieces)) k =
    Some (mkTransform (centerX p) (centerY p) (d / 2) 0 (Some k)).
Proof.
  unfold js_get. destruct (Z.ltb_spec k 0) as [|Hk]; [discriminate|].
  intros H.
  rewrite (attachIndex_nth _ 0 (Z.to_nat k) (assembledTransform d p)).
  - rewrite Z.add_0_l, Z2Nat.id by assumption. reflexivity.
  - rewrite nth_error_map, H. reflexivity.
Qed.

Lemma In_insertTarget (t u : SnapTarget) (l : list SnapTarget) :
  In u (insertTarget t l) <-> u = t \/ In u l.
Proof.
  induction l as [|v l IH]; simpl.
  - intuition congruence.
  - destruct (distLeb _ _); simpl; [intuition congruence|].
    rewrite IH. intuition congruence.
Qed.

Lemma In_sortByDistance (u : SnapTarget) (l : list SnapTarget) :
  In u (sortByDistance l) <-> In u l.
Proof.
  induction l as [|t l IH]; simpl; [tauto|].
  rewrite In_insertTarget, IH. intuition congruence.
Qed.

Lemma visitNeighbor_keeps
    (piece : PieceTransform) (transforms : list PieceTransform)
    (piecesInfo : list PieceInfo) (threshold : R)
    (acc : list SnapTarget) (entry : Edge * Z) (u : SnapTarget) :
  In u acc -> In u (visitNeighbor piece transforms piecesInfo threshold acc entry).
Proof.
  intros H. unfold visitNeighbor. destruct entry as [e n].
  destruct (n =? -1)%Z; [assumption|].
  destruct (js_get transforms n); [|assumption].
  destruct (checkSnapPossibility _ _ _ _) as [r|]; [|assumption].
  destruct (ltInfinity (distance r)); [|assumption].
  apply in_or_app. now left.
Qed.

Lemma fold_visit_keeps
    (piece : PieceTransform) (transforms : list PieceTransform)
    (piecesInfo : list PieceInfo) (threshold : R)
    (es : list (Edge * Z)) :
  forall (acc : list SnapTarget) (u : SnapTarget),
  In u acc ->
  In u (fold_left (visitNeighbor piece transforms piecesInfo threshold) es acc).
Proof.
  induction es as [|e es IH]; intros acc u H; simpl; [assumption|].
  apply IH. now apply visitNeighbor_keeps.
Qed.

(** A neighbour that passes the checks of the callback ends up in the
    result of the loop. *)
Lemma fold_visit_adds
    (piece : PieceTransform) (transforms : list PieceTransform)
    (piecesInfo : list PieceInfo) (threshold : R)
    (es : list (Edge * Z)) (e : Edge) (n : Z) (nt : PieceTransform) (r : SnapResult) :
  In (e, n) es -> n <> (-1)%Z ->
  js_get transforms n = Some nt ->
  checkSnapPossibility piece nt piecesInfo threshold = Some r ->
  ltInfinity (distance r) = true ->
  forall acc,
  In (mkSnapTarget n r)
     (fold_left (visitNeighbor piece transforms piecesInfo threshold) es acc).
Proof.
  intros Hin Hn Hget Hchk Hfin.
  induction es as [|e0 es IH]; intros acc; [contradiction|].
  simpl. destruct Hin as [->|Hin].
  - apply fold_visit_keeps. unfold visitNeighbor.
    destruct (Z.eqb_spec n (-1)); [contradiction|].
    rewrite Hget, Hchk, Hfin. apply in_or_app. right. now left.
  - now apply IH.
Qed.

(** An interior side of the piece of index [i]: the neighbour is a piece of
    the grid, and [findEdge] names that side for it. *)
Lemma interior_side (params : PuzzleParams) (i : Z) (e : Edge) (n : Z) :
  (1 <= gridX params)%Z -> (1 <= gridY params)%Z ->
  (0 <= i < gridX params * gridY params)%Z ->
  In (e, n) (entries (neighbors (pieceOf params i))) -> n <> (-1)%Z ->
  (0 <= n < gridX params * gridY params)%Z /\
  findEdge (neighbors (pieceOf params i)) (Some n) = Some e.
Proof.
  intros Hgx Hgy Hi Hin Hn.
  destruct (pieceOf_cell params i Hgx Hgy Hi) as (Hc & Hr & E).
  destruct (pieceOf_neighbors params i Hgx Hgy Hi) as (HL & HR & HB & HT).
  unfold findEdge, strictEq. rewrite HL, HR, HB, HT.
  unfold entries in Hin. rewrite HL, HR, HB, HT in Hin.
  set (c := col (pieceOf params i)) in *. set (r := row (pieceOf params i)) in *.
  clearbody c r. clear HL HR HB HT.
  destruct (Z.gtb_spec c 0) as [C0|C0];
  destruct (Z.ltb_spec c (gridX params - 1)) as [C1|C1];
  destruct (Z.gtb_spec r 0) as [R0|R0];
  destruct (Z.ltb_spec r (gridY params - 1)) as [R1|R1];
  simpl in Hin;
  repeat (destruct Hin as [Hin|Hin]; [injection Hin as <- <-|]);
  try contradiction; try lia;
  (split; [nia|]);
  repeat match goal with
         | |- context [(?a =? ?b)%Z] => destruct (Z.eqb_spec a b); try lia
         end; reflexivity.
Qed.

(** X1.  With the [index] property supplied, the assembled state is exactly
    aligned at rest: for [gridX, gridY >= 1] and a threshold [>= 0], every
    interior side of every piece gives a candidate with [canSnap = true]
    and [distance = 0]. *)
Theorem indexed_assembled_state_snaps
    (params : PuzzleParams) (threshold : R) (i : Z) (e : Edge) (n : Z) :
  (1 <= gridX params)%Z -> (1 <= gridY params)%Z -> 0 <= threshold ->
  (0 <= i < gridX params * gridY params)%Z ->
  let pieces := generateAllPieces params in
  let transforms := attachIndex 0 (map (assembledTransform (depth params)) pieces) in
  forall info,
    js_get pieces i = Some info ->
    In (e, n) (entries (neighbors info)) -> n <> (-1)%Z ->
    exists r,
      In (mkSnapTarget n r) (findSnapTargets i transforms pieces threshold) /\
      canSnap r = true /\ distance r = Finite 0 /\ edge r = e.
Proof.
  intros Hgx Hgy Hthr Hi pieces transforms info Hinfo Hin Hn.
  destruct (generateAllPieces_spec params) as [_ Hget]; try lia.
  fold pieces in Hget.
  assert (info = pieceOf params i) as -> by (rewrite Hget in Hinfo by lia; congruence).
  destruct (interior_side params i e n Hgx Hgy Hi Hin Hn) as [Hnr HE].
  pose proof (Hget n Hnr) as Hninfo.
  set (d := depth params) in *.
  set (ti := mkTransform (centerX (pieceOf params i)) (centerY (pieceOf params i))
               (d / 2) 0 (Some i)).
  set (tn := mkTransform (centerX (pieceOf params n)) (centerY (pieceOf params n))
               (d / 2) 0 (Some n)).
  assert (Hti : js_get transforms i = Some ti)
    by (apply indexed_assembled_get; exact Hinfo).
  assert (Htn : js_get transforms n = Some tn)
    by (apply indexed_assembled_get; exact Hninfo).
  assert (Hdist : offsetDistance ti tn (pieceOf params i) (pieceOf params n) = 0).
  { unfold offsetDistance, rotatedDxOf, rotatedDyOf, ti, tn; cbn [x y rotation].
    rewrite cos_0, sin_0.
    match goal with |- sqrt ?a = 0 => replace a with 0 by ring end.
    apply sqrt_0. }
  assert (Hrot : rotationDiffOf ti tn = 0).
  { unfold rotationDiffOf, ti, tn; cbn [rotation].
    replace (0 - 0) with 0 by ring. rewrite Rabs_R0.
    apply js_mod_small. pose proof two_PI_pos. lra. }
  assert (Hchk : checkSnapPossibility ti tn pieces threshold =
                 Some (mkSnapResult true (Finite 0) e
                         (Some (x tn + rotatedDxOf (pieceOf params i) (pieceOf params n) (rotation tn)))
                         (Some (y tn + rotatedDyOf (pieceOf params i) (pieceOf params n) (rotation tn)))
                         (Some (rotation tn)))).
  { rewrite (checkSnapPossibility_adjacent ti tn pieces threshold i n
               (pieceOf params i) (pieceOf params n) e);
      try reflexivity; try assumption.
    rewrite Hrot, Hdist. rewrite (Rltb_true 0 0.1) by lra. cbn [orb negb].
    rewrite Rleb_true by assumption. reflexivity. }
  eexists. split; [|split; [|split]].
  - unfold findSnapTargets. rewrite Hti, Hinfo.
    apply In_sortByDistance.
    apply (fold_visit_adds ti transforms pieces threshold _ e n tn _ Hin Hn Htn Hchk).
    reflexivity.
  - reflexivity.
  - reflexivity.
  - reflexivity.
Qed.

Lemma indexed_assembled_state_snaps_witness :
  let pieces := generateAllPieces params21 in
  let transforms := attachIndex 0 (map (assembledTransform (depth params21)) pieces) in
  exists r,
    In (mkSnapTarget 1 r) (findSnapTargets 0 transforms pieces 20) /\
    canSnap r = true /\ distance r = Finite 0 /\ edge r = right.
Proof.
  apply (indexed_assembled_state_snaps params21 20 0 right 1
           ltac:(simpl; lia) ltac:(simpl; lia) ltac:(lra) ltac:(simpl; lia)
           (pieceOf params21 0)).
  - apply pieces21_get. lia.
  - right. left. reflexivity.
  - discriminate.
Defined.

(* ================================================================== *)
(** ** Scenarios of the specification *)
(* ================================================================== *)

(** X2.  Scatter followed by assemble puts every piece back at its recorded
    centre with rotation [0] and [z = depth / 2]. *)
Theorem scatter_then_assemble (a : App) (g : Rng) :
  piecesInfoRef a <> [] ->
  let a' := handleAssemble (fst (handleScatter a g)) in
  pieceTransforms a' =
    map (fun piece => mkTransform (centerX piece) (centerY piece)
                        (depth (puzzleParams a) / 2) 0 None)
      (piecesInfoRef a) /\
  selectedPieceIndex a' = (-1)%Z /\ puzzleScattered a' = false.
Proof.
  intros Hne a'. subst a'. unfold handleScatter.
  destruct (piecesInfoRef a) as [|p l] eqn:E; [contradiction|].
  destruct (mapWithRng _ (p :: l) 0 g) as [newTransforms g'].
  cbn [fst]. unfold handleAssemble.
  cbn [setSelectedPieceIndex setPuzzleScattered setPieceTransforms piecesInfoRef
       puzzleParams pieceTransforms selectedPieceIndex puzzleScattered].
  rewrite E. cbn [pieceTransforms selectedPieceIndex puzzleScattered].
  repeat split.
Qed.

Lemma scatter_then_assemble_witness :
  let a := run [EvParams params21; EvSetGameMode true] in
  let g := mkRng (fun _ => 0.25) 0 in
  let a' := handleAssemble (fst (handleScatter a g)) in
  pieceTransforms a' =
    map (fun piece => mkTransform (centerX piece) (centerY piece)
                        (depth (puzzleParams a) / 2) 0 None)
      (piecesInfoRef a) /\
  selectedPieceIndex a' = (-1)%Z /\ puzzleScattered a' = false.
Proof.
  intros a g.
  apply (scatter_then_assemble a g). exact pieces21_nonempty.
Defined.

(** Scenario.  The default puzzle, two by two on 100 by 100: four pieces,
    indices [0..3] in row-major order, and piece [0] has no left and no
    bottom neighbour, piece [1] on its right and piece [2] above. *)
Theorem two_by_two_scenario :
  let pieces := generateAllPieces (mkParams 100 100 10 2 2 straight) in
  length pieces = 4%nat /\
  map index pieces = [0; 1; 2; 3]%Z /\
  map col pieces = [0; 1; 0; 1]%Z /\
  map row pieces = [0; 0; 1; 1]%Z /\
  option_map neighbors (js_get pieces 0) = Some (mkNeighbors (-1) 1 (-1) 2).
Proof. repeat split. Qed.

(** Scenario.  The amplitude of a piece 50 wide and 100 high is [4]. *)
Theorem amplitude_scenario :
  pieceW (mkParams 100 100 10 2 1 wave) = 50 /\
  pieceH (mkParams 100 100 10 2 1 wave) = 100 /\
  amplitudeOf (mkParams 100 100 10 2 1 wave) = 4.
Proof.
  assert (HW : pieceW (mkParams 100 100 10 2 1 wave) = 50) by (unfold pieceW; simpl; lra).
  assert (HH : pieceH (mkParams 100 100 10 2 1 wave) = 100) by (unfold pieceH; simpl; lra).
  unfold amplitudeOf. rewrite HW, HH, Rmin_left by lra. repeat split; lra.
Qed.

(* ================================================================== *)
(** ** The outline of a piece *)
(* ================================================================== *)

Lemma length_tl_31 {A : Type} (l : list A) :
  length l = 31%nat -> length (slice1 l) = 30%nat.
Proof. destruct l; simpl; intros H; [discriminate|lia]. Qed.

Lemma length_removelast' {A : Type} (l : list A) :
  length (removelast l) = pred (length l).
Proof.
  rewrite removelast_firstn_len, length_firstn. lia.
Qed.

Lemma length_slice1m1_31 {A : Type} (l : list A) :
  length l = 31%nat -> length (slice1m1 l) = 29%nat.
Proof.
  intros H. unfold slice1m1.
  pose proof (length_tl_31 l H) as Ht. unfold slice1 in Ht.
  rewrite length_removelast', Ht. reflexivity.
Qed.

(** X3.  The outline of a piece has four points plus 29 for each side that
    is not on the border of the grid, so between 4 and 120; the ring
    [createPieceShape] returns has as many. *)
Theorem pieceOutline_length (params : PuzzleParams) (col row : Z) :
  length (pieceOutline col row params) = (4 + 29 * interiorSides col row params)%nat /\
  length (shape (createPieceShape col row params)) =
    length (pieceOutline col row params) /\
  (4 <= length (pieceOutline col row params) <= 120)%nat.
Proof.
  assert (H : length (pieceOutline col row params) =
              (4 + 29 * interiorSides col row params)%nat).
  { unfold pieceOutline, interiorSides.
    pose proof (length_tl_31 _ (rightEdge_length params col row)) as HR.
    pose proof (length_tl_31 _ (topEdge_length params col row)) as HT.
    pose proof (length_slice1m1_31 _ (leftEdge_length params col row)) as HL.
    pose proof (bottomEdge_length params col row) as HB.
    destruct (row =? 0)%Z, (col =? gridX params - 1)%Z,
             (row =? gridY params - 1)%Z, (col =? 0)%Z;
      rewrite ?length_app, ?HR, ?HT, ?HL, ?HB; reflexivity. }
  split; [exact H|]. split.
  - unfold createPieceShape; cbn [shape]. apply length_map.
  - rewrite H. unfold interiorSides.
    destruct (row =? 0)%Z, (col =? gridX params - 1)%Z,
             (row =? gridY params - 1)%Z, (col =? 0)%Z; simpl; lia.
Qed.

Lemma splitOffset_bound (t a : R) (m : SplitMode) :
  0 <= t -> 0 <= a -> - a <= splitOffset t m a <= a.
Proof.
  intros Ht Ha. destruct m.
  - simpl. lra.
  - simpl. pose proof (SIN_bound (t * PI * 4)) as [H1 H2]. split; nra.
  - pose proof (splitOffset_zigzag_range t a Ht Ha). lra.
Qed.

Lemma In_slice1 {A : Type} (l : list A) (a : A) : In a (slice1 l) -> In a l.
Proof. destruct l; simpl; auto. Qed.

Lemma In_removelast {A : Type} (l : list A) (a : A) : In a (removelast l) -> In a l.
Proof.
  induction l as [|b l IH]; simpl; [auto|].
  destruct l as [|c l]; [contradiction|].
  intros [H|H]; [now left|right; now apply IH].
Qed.

Lemma In_slice1m1 {A : Type} (l : list A) (a : A) : In a (slice1m1 l) -> In a l.
Proof. intros H. apply In_slice1. now apply In_removelast. Qed.

(** The points of a generated edge between two ends stay between the ends
    along the edge and within the amplitude across it. *)
Lemma horizontal_edge_box (x0 x1 Y a lo hi : R) (m : SplitMode) (p : Vector2) :
  0 <= a -> lo <= x0 <= hi -> lo <= x1 <= hi ->
  In p (generateHorizontalEdge x0 x1 Y m a default_segments) ->
  lo <= vx p <= hi /\ Y - a <= vy p <= Y + a.
Proof.
  intros Ha H0 H1 Hp. rewrite generateHorizontalEdge_points in Hp.
  apply in_map_iff in Hp. destruct Hp as (i & <- & Hi).
  apply zrange_In in Hi. rewrite Z2Nat.id in Hi by (unfold default_segments; lia).
  assert (Ht : 0 <= IZR i / IZR default_segments <= 1).
  { apply sample_range; unfold default_segments in *; lia. }
  unfold hPoint; cbn [vx vy].
  pose proof (splitOffset_bound _ a m (proj1 Ht) Ha).
  split; [split; nra|lra].
Qed.

Lemma vertical_edge_box (X y0 y1 a lo hi : R) (m : SplitMode) (p : Vector2) :
  0 <= a -> lo <= y0 <= hi -> lo <= y1 <= hi ->
  In p (generateVerticalEdge X y0 y1 m a default_segments) ->
  X - a <= vx p <= X + a /\ lo <= vy p <= hi.
Proof.
  intros Ha H0 H1 Hp. rewrite generateVerticalEdge_points in Hp.
  apply in_map_iff in Hp. destruct Hp as (i & <- & Hi).
  apply zrange_In in Hi. rewrite Z2Nat.id in Hi by (unfold default_segments; lia).
  assert (Ht : 0 <= IZR i / IZR default_segments <= 1).
  { apply sample_range; unfold default_segments in *; lia. }
  unfold vPoint; cbn [vx vy].
  pose proof (splitOffset_bound _ a m (proj1 Ht) Ha).
  split; [lra|split; nra].
Qed.

(** X4.  For positive sizes, every point of the outline of a piece lies in
    the piece's grid cell enlarged on each side by the amplitude, which is
    8% of the shorter side of a cell: no cut strays further from its grid
    line, whatever the split mode. *)
Theorem pieceOutline_within_cell (params : PuzzleParams) (col row : Z) (p : Vector2) :
  0 < width params -> 0 < height params ->
  (1 <= gridX params)%Z -> (1 <= gridY params)%Z ->
  In p (pieceOutline col row params) ->
  let a := amplitudeOf params in
  0 < a /\ a <= 0.08 * pieceW params /\ a <= 0.08 * pieceH params /\
  xLeftOf col params - a <= vx p <= xRightOf col params + a /\
  yBottomOf row params - a <= vy p <= yTopOf row params + a.
Proof.
  intros Hw Hh Hgx Hgy Hp a.
  pose proof (pieceW_pos params Hw Hgx) as HpW.
  pose proof (pieceH_pos params Hh Hgy) as HpH.
  assert (Ha : 0 < a /\ a <= 0.08 * pieceW params /\ a <= 0.08 * pieceH params).
  { unfold a, amplitudeOf.
    pose proof (Rmin_l (pieceW params) (pieceH params)).
    pose proof (Rmin_r (pieceW params) (pieceH params)).
    assert (0 < Rmin (pieceW params) (pieceH params)) by (apply Rmin_glb_lt; assumption).
    repeat split; lra. }
  destruct Ha as (Ha0 & HaW & HaH).
  split; [exact Ha0|]. split; [exact HaW|]. split; [exact HaH|].
  set (xL := xLeftOf col params) in *. set (xR := xRightOf col params) in *.
  set (yB := yBottomOf row params) in *. set (yT := yTopOf row params) in *.
  assert (HxR : xR = xL + pieceW params) by reflexivity.
  assert (HyT : yT = yB + pieceH params) by reflexivity.
  set (Box := fun q : Vector2 =>
                xL - a <= vx q <= xR + a /\ yB - a <= vy q <= yT + a).
  assert (HB : forall q, In q (bottomEdge col row params) -> Box q).
  { intros q Hq. unfold bottomEdge in Hq. fold xL xR yB a in Hq.
    destruct (horizontal_edge_box xL xR yB a xL xR (splitMode params) q) as [H1 H2];
      try assumption; try lra. unfold Box. lra. }
  assert (HR : forall q, In q (slice1 (rightEdge col row params)) -> Box q).
  { intros q Hq. apply In_slice1 in Hq. unfold rightEdge in Hq. fold xR yB yT a in Hq.
    destruct (vertical_edge_box xR yB yT a yB yT (splitMode params) q) as [H1 H2];
      try assumption; try lra. unfold Box. lra. }
  assert (HT : forall q, In q (slice1 (topEdge col row params)) -> Box q).
  { intros q Hq. apply In_slice1 in Hq. unfold topEdge in Hq. fold xL xR yT a in Hq.
    destruct (horizontal_edge_box xR xL yT a xL xR (splitMode params) q) as [H1 H2];
      try assumption; try lra. unfold Box. lra. }
  assert (HL : forall q, In q (slice1m1 (leftEdge col row params)) -> Box q).
  { intros q Hq. apply In_slice1m1 in Hq. unfold leftEdge in Hq. fold xL yB yT a in Hq.
    destruct (vertical_edge_box xL yT yB a yB yT (splitMode params) q) as [H1 H2];
      try assumption; try lra. unfold Box. lra. }
  assert (HC : forall cx cy, (cx = xL \/ cx = xR) -> (cy = yB \/ cy = yT) ->
                 Box (mkVector2 cx cy)).
  { intros cx cy Hx Hy. unfold Box; cbn [vx vy]. destruct Hx, Hy; subst; lra. }
  change (Box p). unfold pieceOutline in Hp. fold xL xR yB yT in Hp.
  destruct (row =? 0)%Z, (col =? gridX params - 1)%Z,
           (row =? gridY params - 1)%Z, (col =? 0)%Z;
    cbn [app] in Hp; rewrite ?in_app_iff in Hp;
    repeat match goal with
           | H : _ \/ _ |- _ => destruct H as [H|H]
           | H : In _ [] |- _ => destruct H
           | H : In _ (_ :: _) |- _ => destruct H as [H|H]
           | H : In _ (_ ++ _) |- _ => apply in_app_or in H
           | H : mkVector2 _ _ = p |- _ => rewrite <- H; apply HC; auto
           end; auto.
Qed.

Lemma pieceOutline_within_cell_witness :
  let params := mkParams 100 100 10 2 2 wave in
  let p := mkVector2 (xLeftOf 0 params) (yBottomOf 0 params) in
  let a := amplitudeOf params in
  0 < a /\ a <= 0.08 * pieceW params /\ a <= 0.08 * pieceH params /\
  xLeftOf 0 params - a <= vx p <= xRightOf 0 params + a /\
  yBottomOf 0 params - a <= vy p <= yTopOf 0 params + a.
Proof.
  intros params p.
  apply (pieceOutline_within_cell params 0 0 p).
  - change (0 < 100). lra.
  - change (0 < 100). lra.
  - simpl. lia.
  - simpl. lia.
  - left. reflexivity.
Defined.

(* ================================================================== *)
(** ** Results of the snap-match engine *)
(* ================================================================== *)

(** Whenever [checkSnapPossibility] returns an object, both indices
    resolve and some side of [piece1] names [piece2]. *)
Lemma checkSnapPossibility_Some
    (piece1 piece2 : PieceTransform) (piecesInfo : list PieceInfo) (threshold : R)
    (r : SnapResult) :
  checkSnapPossibility piece1 piece2 piecesInfo threshold = Some r ->
  exists i j info1 info2 e,
    tindex piece1 = Some i /\ tindex piece2 = Some j /\
    js_get piecesInfo i = Some info1 /\ js_get piecesInfo j = Some info2 /\
    findEdge (neighbors info1) (Some j) = Some e.
Proof.
  unfold checkSnapPossibility.
  destruct (tindex piece1) as [i|] eqn:E1; [|discriminate].
  destruct (tindex piece2) as [j|] eqn:E2; cbn [js_get_opt].
  - destruct (js_get piecesInfo i) as [info1|] eqn:G1; [|discriminate].
    destruct (js_get piecesInfo j) as [info2|] eqn:G2; [|discriminate].
    destruct (findEdge (neighbors info1) (Some j)) as [e|] eqn:HE; [|discriminate].
    intros _. exists i, j, info1, info2, e. auto.
  - destruct (js_get piecesInfo i); discriminate.
Qed.

Lemma findEdge_Some_adjacent (info1 : PieceInfo) (j : option Z) (e : Edge) :
  findEdge (neighbors info1) j = Some e ->
  exists k, j = Some k /\ adjacent info1 k.
Proof.
  unfold findEdge, strictEq, adjacent. destruct j as [k|]; [|discriminate].
  intros H. exists k. split; [reflexivity|].
  destruct (Z.eqb_spec (nLeft (neighbors info1)) k); [auto|].
  destruct (Z.eqb_spec (nRight (neighbors info1)) k); [auto|].
  destruct (Z.eqb_spec (nBottom (neighbors info1)) k); [auto|].
  destruct (Z.eqb_spec (nTop (neighbors info1)) k); [auto|].
  discriminate.
Qed.

(** X5.  [checkSnapPossibility] returns [null] exactly when an index is
    missing or out of range, or [piece2] is on no side of [piece1]; the
    poses and the threshold play no part in it. *)
Theorem checkSnapPossibility_null
    (piece1 piece2 : PieceTransform) (piecesInfo : list PieceInfo) (threshold : R) :
  checkSnapPossibility piece1 piece2 piecesInfo threshold = None <->
  (js_get_opt piecesInfo (tindex piece1) = None \/
   js_get_opt piecesInfo (tindex piece2) = None \/
   exists info1 j,
     js_get_opt piecesInfo (tindex piece1) = Some info1 /\
     tindex piece2 = Some j /\ ~ adjacent info1 j).
Proof.
  split.
  - intros H.
    destruct (js_get_opt piecesInfo (tindex piece1)) as [info1|] eqn:G1; [|auto].
    destruct (js_get_opt piecesInfo (tindex piece2)) as [info2|] eqn:G2; [|auto].
    right. right.
    destruct (tindex piece2) as [j|] eqn:E2; [|discriminate].
    exists info1, j. split; [reflexivity|]. split; [reflexivity|].
    intros Hadj. destruct (findEdge_adjacent info1 j Hadj) as [e HE].
    destruct (tindex piece1) as [i|] eqn:E1; [|discriminate].
    cbn [js_get_opt] in G1, G2.
    rewrite (checkSnapPossibility_adjacent piece1 piece2 piecesInfo threshold
               i j info1 info2 e E1 E2 G1 G2 HE) in H.
    destruct (negb _); [discriminate|]. destruct (Rleb _ _); discriminate.
  - intros H.
    destruct (checkSnapPossibility piece1 piece2 piecesInfo threshold) as [r|] eqn:E;
      [|reflexivity].
    destruct (checkSnapPossibility_Some _ _ _ _ _ E)
      as (i & j & info1 & info2 & e & E1 & E2 & G1 & G2 & HE).
    rewrite E1, E2 in H. cbn [js_get_opt] in H. rewrite G1, G2 in H.
    destruct H as [H|[H|(info & k & Hi & Hk & Hn)]]; try discriminate.
    injection Hi as <-. injection Hk as <-.
    destruct (findEdge_Some_adjacent _ _ _ HE) as (k & Ek & Hadj).
    injection Ek as <-. contradiction.
Qed.

Lemma distLeb_true (a b : JsDist) : distLeb a b = true -> distLe a b.
Proof.
  destruct a, b; simpl; auto; try discriminate. apply Rleb_spec.
Qed.

Lemma distLeb_false (a b : JsDist) : distLeb a b = false -> distLe b a.
Proof.
  destruct a as [da|], b as [db|]; simpl; auto; try discriminate.
  unfold Rleb. destruct (Rle_dec da db); [discriminate|]. intros _. lra.
Qed.

Lemma distLe_trans (a b c : JsDist) : distLe a b -> distLe b c -> distLe a c.
Proof.
  destruct a, b, c; simpl; auto; try contradiction. intros; lra.
Qed.

Lemma ascending_insertTarget (t : SnapTarget) (l : list SnapTarget) :
  ascending l -> ascending (insertTarget t l).
Proof.
  induction l as [|u l IH]; intros Hl.
  - simpl. split; [intros ? []|exact I].
  - destruct Hl as [Hu Hl]. simpl.
    destruct (distLeb (distance (result t)) (distance (result u))) eqn:E.
    + split; [|split; assumption].
      apply distLeb_true in E. intros v [<-|Hv]; [exact E|].
      eapply distLe_trans; [exact E|]. now apply Hu.
    + split; [|now apply IH].
      apply distLeb_false in E. intros v Hv.
      apply In_insertTarget in Hv. destruct Hv as [->|Hv]; [exact E|now apply Hu].
Qed.

Lemma ascending_sortByDistance (l : list SnapTarget) : ascending (sortByDistance l).
Proof.
  induction l as [|t l IH]; simpl; [exact I|]. now apply ascending_insertTarget.
Qed.

Lemma length_insertTarget (t : SnapTarget) (l : list SnapTarget) :
  length (insertTarget t l) = S (length l).
Proof.
  induction l as [|u l IH]; simpl; [reflexivity|].
  destruct (distLeb _ _); simpl; [reflexivity|]. now rewrite IH.
Qed.

Lemma length_sortByDistance (l : list SnapTarget) :
  length (sortByDistance l) = length l.
Proof.
  induction l as [|t l IH]; simpl; [reflexivity|].
  now rewrite length_insertTarget, IH.
Qed.

(** What the loop over the sides adds to the array: at most one target per
    side, each for a side that names a neighbour whose pose is stored and
    whose check gave a finite distance. *)
Lemma fold_visit_sound
    (piece : PieceTransform) (transforms : list PieceTransform)
    (piecesInfo : list PieceInfo) (threshold : R)
    (Q : SnapTarget -> Prop) (all : list (Edge * Z)) :
  (forall e n nt r d,
     In (e, n) all -> n <> (-1)%Z -> js_get transforms n = Some nt ->
     checkSnapPossibility piece nt piecesInfo threshold = Some r ->
     distance r = Finite d -> Q (mkSnapTarget n r)) ->
  forall (es : list (Edge * Z)) (acc : list SnapTarget),
  incl es all -> Forall Q acc ->
  Forall Q (fold_left (visitNeighbor piece transforms piecesInfo threshold) es acc) /\
  (length (fold_left (visitNeighbor piece transforms piecesInfo threshold) es acc)
   <= length acc + length es)%nat.
Proof.
  intros HQ. induction es as [|[e n] es IH]; intros acc Hincl Hacc.
  - simpl. split; [assumption|lia].
  - cbn [fold_left].
    assert (Hin : In (e, n) all) by (apply Hincl; now left).
    assert (Hincl' : incl es all) by (intros v Hv; apply Hincl; now right).
    assert (Hstep : Forall Q (visitNeighbor piece transforms piecesInfo threshold acc (e, n)) /\
                    (length (visitNeighbor piece transforms piecesInfo threshold acc (e, n))
                     <= S (length acc))%nat).
    { unfold visitNeighbor.
      destruct (Z.eqb_spec n (-1)); [split; [assumption|lia]|].
      destruct (js_get transforms n) as [nt|] eqn:G; [|split; [assumption|lia]].
      destruct (checkSnapPossibility piece nt piecesInfo threshold) as [r|] eqn:C;
        [|split; [assumption|lia]].
      destruct (distance r) as [d|] eqn:D; cbn [ltInfinity]; [|split; [assumption|lia]].
      split.
      - apply Forall_app. split; [assumption|].
        constructor; [|constructor]. eapply HQ; eassumption.
      - rewrite length_app. simpl. lia. }
    destruct Hstep as [H1 H2].
    destruct (IH _ Hincl' H1) as [H3 H4].
    split; [exact H3|]. cbn [length]. lia.
Qed.

(** X7.  Whatever the poses, [findSnapTargets] returns at most four
    targets, in ascending order of distance, and every target stands for a
    side of the piece that names a neighbour ([neighborIndex] is not [-1]):
    the neighbour's pose is stored, the target is the result of
    [checkSnapPossibility] for it, and its distance is finite. *)
Theorem findSnapTargets_sound
    (pieceIndex : Z) (transforms : list PieceTransform)
    (piecesInfo : list PieceInfo) (threshold : R) :
  let res := findSnapTargets pieceIndex transforms piecesInfo threshold in
  (length res <= 4)%nat /\
  ascending res /\
  forall t, In t res ->
    exists piece pieceInfo e nt d,
      js_get transforms pieceIndex = Some piece /\
      js_get piecesInfo pieceIndex = Some pieceInfo /\
      In (e, neighborIndex t) (entries (neighbors pieceInfo)) /\
      neighborIndex t <> (-1)%Z /\
      js_get transforms (neighborIndex t) = Some nt /\
      checkSnapPossibility piece nt piecesInfo threshold = Some (result t) /\
      distance (result t) = Finite d.
Proof.
  intros res. subst res. unfold findSnapTargets.
  destruct (js_get transforms pieceIndex) as [piece|] eqn:Gp;
    [|split; [simpl; lia|split; [exact I|intros t []]]].
  destruct (js_get piecesInfo pieceIndex) as [pieceInfo|] eqn:Gi;
    [|split; [simpl; lia|split; [exact I|intros t []]]].
  set (Q := fun t : SnapTarget =>
              exists e nt d,
                In (e, neighborIndex t) (entries (neighbors pieceInfo)) /\
                neighborIndex t <> (-1)%Z /\
                js_get transforms (neighborIndex t) = Some nt /\
                checkSnapPossibility piece nt piecesInfo threshold = Some (result t) /\
                distance (result t) = Finite d).
  destruct (fold_visit_sound piece transforms piecesInfo threshold Q
              (entries (neighbors pieceInfo))) with
      (es := entries (neighbors pieceInfo)) (acc := @nil SnapTarget) as [HQ Hlen].
  - intros e n nt r d Hin Hn Hg Hc Hd. exists e, nt, d. cbn [neighborIndex result]. auto.
  - apply incl_refl.
  - constructor.
  - cbv zeta. split; [|split].
    + rewrite length_sortByDistance. simpl in Hlen. exact Hlen.
    + apply ascending_sortByDistance.
    + intros t Ht. apply (proj1 (In_sortByDistance _ _)) in Ht.
      rewrite Forall_forall in HQ. destruct (HQ t Ht) as (e & nt & d & H).
      exists piece, pieceInfo, e, nt, d. tauto.
Qed.

(* ================================================================== *)
(** ** The highlight intensity *)
(* ================================================================== *)

(** X8.  For a positive threshold and a distance [>= 0], the highlight
    intensity lies in [[0, 1]], is [1] at distance [0], is [0] exactly from
    the threshold on, and never grows with the distance. *)
Theorem calculateEdgeHighlightIntensity_range (distance threshold : R) :
  0 < threshold -> 0 <= distance ->
  0 <= calculateEdgeHighlightIntensity distance threshold <= 1 /\
  calculateEdgeHighlightIntensity 0 threshold = 1 /\
  (calculateEdgeHighlightIntensity distance threshold = 0 <-> threshold <= distance) /\
  (forall d', distance <= d' ->
     calculateEdgeHighlightIntensity d' threshold <=
     calculateEdgeHighlightIntensity distance threshold).
Proof.
  intros Ht Hd.
  assert (Hval : forall d, 0 <= d -> d < threshold ->
            calculateEdgeHighlightIntensity d threshold =
              (1 - d / threshold) * (1 - d / threshold) /\
            0 <= d / threshold < 1).
  { intros d H0 H1. unfold calculateEdgeHighlightIntensity.
    destruct (Rle_dec threshold d); [lra|]. split; [reflexivity|].
    split.
    - unfold Rdiv. apply Rmult_le_pos; [assumption|].
      left. now apply Rinv_0_lt_compat.
    - apply Rmult_lt_reg_r with threshold; [assumption|].
      unfold Rdiv. rewrite Rmult_assoc, Rinv_l by lra. lra. }
  assert (Hzero : forall d, threshold <= d ->
            calculateEdgeHighlightIntensity d threshold = 0).
  { intros d H. unfold calculateEdgeHighlightIntensity.
    destruct (Rle_dec threshold d); [reflexivity|contradiction]. }
  assert (Hrange : forall d, 0 <= d ->
            0 <= calculateEdgeHighlightIntensity d threshold <= 1).
  { intros d H0. destruct (Rle_dec threshold d) as [H|H].
    - rewrite Hzero by assumption. lra.
    - destruct (Hval d H0 ltac:(lra)) as [-> Hq]. split; nra. }
  split; [now apply Hrange|]. split; [|split].
  - destruct (Hval 0 ltac:(lra) Ht) as [-> _]. unfold Rdiv. rewrite Rmult_0_l. ring.
  - split.
    + intros E. destruct (Rle_dec threshold distance) as [H|H]; [assumption|].
      destruct (Hval distance Hd ltac:(lra)) as [Ev Hq]. rewrite Ev in E. nra.
    + apply Hzero.
  - intros d' Hd'. destruct (Rle_dec threshold d') as [H|H].
    + rewrite (Hzero d' H). apply Hrange. assumption.
    + destruct (Hval d' ltac:(lra) ltac:(lra)) as [-> Hq'].
      destruct (Hval distance Hd ltac:(lra)) as [-> Hq].
      assert (distance / threshold <= d' / threshold).
      { unfold Rdiv. apply Rmult_le_compat_r; [|assumption].
        left. now apply Rinv_0_lt_compat. }
      nra.
Qed.

Lemma calculateEdgeHighlightIntensity_range_witness :
  0 <= calculateEdgeHighlightIntensity 10 40 <= 1 /\
  calculateEdgeHighlightIntensity 0 40 = 1 /\
  (calculateEdgeHighlightIntensity 10 40 = 0 <-> 40 <= 10) /\
  (forall d', 10 <= d' ->
     calculateEdgeHighlightIntensity d' 40 <= calculateEdgeHighlightIntensity 10 40).
Proof.
  apply (calculateEdgeHighlightIntensity_range 10 40); lra.
Defined.

(* ================================================================== *)
(** ** The shared side in world coordinates *)
(* ================================================================== *)





(** Turning and moving a segment keeps its length. *)
Lemma turned_segment_length (tx ty a b a' b' z angle : R) :
  distance3
    (mkVector3 (tx + a * cos angle - b * sin angle) (ty + a * sin angle + b * cos angle) z)
    (mkVector3 (tx + a' * cos angle - b' * sin angle) (ty + a' * sin angle + b' * cos angle) z)
  = sqrt (Rsqr (a - a') + Rsqr (b - b')).
Proof.
  unfold distance3; cbn [v3x v3y v3z]. f_equal.
  pose proof (sin2_cos2 angle) as H. unfold Rsqr in *.
  replace ((tx + a * cos angle - b * sin angle - (tx + a' * cos angle - b' * sin angle)) *
           (tx + a * cos angle - b * sin angle - (tx + a' * cos angle - b' * sin angle)) +
           (ty + a * sin angle + b * cos angle - (ty + a' * sin angle + b' * cos angle)) *
           (ty + a * sin angle + b * cos angle - (ty + a' * sin angle + b' * cos angle)) +
           (z - z) * (z - z))
    with (((a - a') * (a - a') + (b - b') * (b - b')) *
          (sin angle * sin angle + cos angle * cos angle)) by ring.
  rewrite H. ring.
Qed.

(** X10.  Whatever the pose of piece 1, [getEdgeWorldCoordinates] puts its
    points at the height [depth + 0.5]; it returns two points one piece
    height apart when the columns of the two pieces differ by one, two
    points one piece width apart when they do not but the rows differ by
    one, and no point otherwise: the highlighted side keeps the length of
    the side of a cell under every rotation. *)
Theorem getEdgeWorldCoordinates_rigid
    (piece1Info piece2Info : PieceInfo) (transform1 : PieceTransform)
    (params : PuzzleParams) :
  0 < width params -> 0 < height params ->
  (1 <= gridX params)%Z -> (1 <= gridY params)%Z ->
  let pts := getEdgeWorldCoordinates piece1Info piece2Info transform1 params in
  let dx := (col piece1Info - col piece2Info)%Z in
  let dy := (row piece1Info - row piece2Info)%Z in
  (forall p, In p pts -> v3z p = depth params + 0.5) /\
  (dx = 1%Z \/ dx = (-1)%Z ->
   exists p q, pts = [p; q] /\ distance3 p q = pieceH params) /\
  (dx <> 1%Z -> dx <> (-1)%Z -> dy = 1%Z \/ dy = (-1)%Z ->
   exists p q, pts = [p; q] /\ distance3 p q = pieceW params) /\
  (dx <> 1%Z -> dx <> (-1)%Z -> dy <> 1%Z -> dy <> (-1)%Z -> pts = []).
Proof.
  intros Hw Hh Hgx Hgy pts dx dy.
  pose proof (pieceW_pos params Hw Hgx) as HpW.
  pose proof (pieceH_pos params Hh Hgy) as HpH.
  unfold pieceW, pieceH in *.
  set (pw := width params / IZR (gridX params)) in *.
  set (ph := height params / IZR (gridY params)) in *.
  assert (Hsw : sqrt (Rsqr pw) = pw) by (apply sqrt_Rsqr; lra).
  assert (Hsh : sqrt (Rsqr ph) = ph) by (apply sqrt_Rsqr; lra).
  subst pts. unfold getEdgeWorldCoordinates. fold pw ph dx dy.
  split; [|split; [|split]].
  - intros p Hp. apply in_map_iff in Hp. destruct Hp as (q & <- & _). reflexivity.
  - intros Hd.
    destruct (Z.eqb_spec dx 1) as [E1|E1].
    + cbn [map vx vy]. eexists; eexists; split; [reflexivity|].
      rewrite turned_segment_length.
      match goal with |- sqrt ?a = _ => replace a with (Rsqr ph) by (unfold Rsqr; field) end.
      exact Hsh.
    + destruct (Z.eqb_spec dx (-1)) as [E2|E2]; [|lia].
      cbn [map vx vy]. eexists; eexists; split; [reflexivity|].
      rewrite turned_segment_length.
      match goal with |- sqrt ?a = _ => replace a with (Rsqr ph) by (unfold Rsqr; field) end.
      exact Hsh.
  - intros N1 N2 Hd.
    destruct (Z.eqb_spec dx 1); [contradiction|].
    destruct (Z.eqb_spec dx (-1)); [contradiction|].
    destruct (Z.eqb_spec dy 1) as [E1|E1].
    + cbn [map vx vy]. eexists; eexists; split; [reflexivity|].
      rewrite turned_segment_length.
      match goal with |- sqrt ?a = _ => replace a with (Rsqr pw) by (unfold Rsqr; field) end.
      exact Hsw.
    + destruct (Z.eqb_spec dy (-1)) as [E2|E2]; [|lia].
      cbn [map vx vy]. eexists; eexists; split; [reflexivity|].
      rewrite turned_segment_length.
      match goal with |- sqrt ?a = _ => replace a with (Rsqr pw) by (unfold Rsqr; field) end.
      exact Hsw.
  - intros N1 N2 N3 N4.
    destruct (Z.eqb_spec dx 1); [contradiction|].
    destruct (Z.eqb_spec dx (-1)); [contradiction|].
    destruct (Z.eqb_spec dy 1); [contradiction|].
    destruct (Z.eqb_spec dy (-1)); [contradiction|].
    reflexivity.
Qed.

Lemma getEdgeWorldCoordinates_rigid_witness :
  let piece1Info := pieceOf params21 0 in
  let piece2Info := pieceOf params21 1 in
  let transform1 := indexedPose 3 4 1 0 in
  let pts := getEdgeWorldCoordinates piece1Info piece2Info transform1 params21 in
  let dx := (col piece1Info - col piece2Info)%Z in
  let dy := (row piece1Info - row piece2Info)%Z in
  (forall p, In p pts -> v3z p = depth params21 + 0.5) /\
  (dx = 1%Z \/ dx = (-1)%Z ->
   exists p q, pts = [p; q] /\ distance3 p q = pieceH params21) /\
  (dx <> 1%Z -> dx <> (-1)%Z -> dy = 1%Z \/ dy = (-1)%Z ->
   exists p q, pts = [p; q] /\ distance3 p q = pieceW params21) /\
  (dx <> 1%Z -> dx <> (-1)%Z -> dy <> 1%Z -> dy <> (-1)%Z -> pts = []).
Proof.
  intros piece1Info piece2Info transform1.
  apply (getEdgeWorldCoordinates_rigid piece1Info piece2Info transform1 params21).
  - change (0 < 100). lra.
  - change (0 < 100). lra.
  - simpl; lia.
  - simpl; lia.
Defined.

(* ================================================================== *)
(** ** More on loops *)
(* ================================================================== *)

Lemma for_iter_ext {St : Type} (body1 body2 : Z -> St -> St) (n : nat) :
  forall (v : Z) (s : St),
  (forall i s', body1 i s' = body2 i s') ->
  for_iter n v body1 s = for_iter n v body2 s.
Proof.
  induction n as [|n IH]; intros v s H; simpl; [reflexivity|].
  rewrite H. now apply IH.
Qed.

(** A property of the counter and the state that every iteration keeps
    holds when the loop ends. *)
Lemma for_iter_invariant {St : Type} (P : Z -> St -> Prop) (body : Z -> St -> St)
    (n : nat) :
  forall (v : Z) (s : St),
  (forall i s', (v <= i < v + Z.of_nat n)%Z -> P i s' -> P (i + 1)%Z (body i s')) ->
  P v s -> P (v + Z.of_nat n)%Z (for_iter n v body s).
Proof.
  induction n as [|n IH]; intros v s Hstep H0.
  - simpl. now rewrite Z.add_0_r.
  - cbn [for_iter].
    replace (v + Z.of_nat (S n))%Z with (v + 1 + Z.of_nat n)%Z by lia.
    apply IH.
    + intros i s' Hi. apply Hstep. lia.
    + apply Hstep; [lia|assumption].
Qed.

Lemma js_get_of_nat {A : Type} (l : list A) (k : nat) :
  js_get l (Z.of_nat k) = nth_error l k.
Proof.
  unfold js_get. destruct (Z.ltb_spec (Z.of_nat k) 0) as [|_]; [lia|].
  now rewrite Nat2Z.id.
Qed.

(** Visiting every index of an array and pushing [f] of the element is
    [map f]. *)
Lemma for_iter_elements {A B : Type} (f : A -> B) (l : list A) (n : nat) :
  forall (k : nat) (acc : list B),
  for_iter n (Z.of_nat k)
    (fun i acc' => match js_get l i with
                   | Some a => acc' ++ [f a]
                   | None => acc'
                   end) acc =
  acc ++ map f (firstn n (skipn k l)).
Proof.
  induction n as [|n IH]; intros k acc.
  - simpl. now rewrite app_nil_r.
  - cbn [for_iter]. rewrite js_get_of_nat.
    replace (Z.of_nat k + 1)%Z with (Z.of_nat (S k)) by lia.
    rewrite IH.
    destruct (nth_error l k) as [a|] eqn:E.
    + assert (Hs : skipn k l = a :: skipn (S k) l).
      { clear -E. revert l E. induction k as [|k IHk]; intros [|b l] E; try discriminate.
        - simpl in E. injection E as ->. reflexivity.
        - simpl in E. simpl. now apply IHk. }
      rewrite Hs. cbn [firstn map]. rewrite <- app_assoc. reflexivity.
    + apply nth_error_None in E.
      rewrite (skipn_all2 l) by lia. rewrite (skipn_all2 l) by lia.
      now rewrite !firstn_nil.
Qed.

Lemma for_lt_elements {A B : Type} (f : A -> B) (l : list A) :
  for_lt 0 (Z.of_nat (length l))
    (fun i acc => match js_get l i with
                  | Some a => acc ++ [f a]
                  | None => acc
                  end) [] =
  map f l.
Proof.
  unfold for_lt. rewrite Z.sub_0_r, Nat2Z.id.
  change 0%Z with (Z.of_nat 0).
  rewrite (for_iter_elements f l (length l) 0 []).
  cbn [app skipn]. now rewrite firstn_all.
Qed.

(* ================================================================== *)
(** ** The UV correction *)
(* ================================================================== *)

(** X11.  The UV loop of [createPieceGeometry] keeps the number, the
    positions and the normals of the vertices; it leaves the UV of a vertex
    whose normal is not within [|nz| > 0.9] (a side wall) alone, and gives a
    cap vertex the UV of its global position normalized by the block, which
    lies in the texture cell [[col/gridX, (col+1)/gridX] x [row/gridY,
    (row+1)/gridY]] whenever the vertex lies in the grid cell of the
    piece. *)
Theorem correctUVs_texture_cell
    (params : PuzzleParams) (col row : Z) (vertices : list Vertex)
    (k : nat) (v : Vertex) :
  0 < width params -> 0 < height params ->
  (1 <= gridX params)%Z -> (1 <= gridY params)%Z ->
  nth_error vertices k = Some v ->
  let out := correctUVs col row params vertices in
  let s := createPieceShape col row params in
  let gx := posX v + shapeCenterX s in
  let gy := posY v + shapeCenterY s in
  length out = length vertices /\
  exists v',
    nth_error out k = Some v' /\
    posX v' = posX v /\ posY v' = posY v /\ posZ v' = posZ v /\
    normalZ v' = normalZ v /\
    (Rabs (normalZ v) <= 0.9 -> v' = v) /\
    (0.9 < Rabs (normalZ v) ->
       uvU v' = (gx + width params / 2) / width params /\
       uvV v' = (gy + height params / 2) / height params /\
       (xLeftOf col params <= gx <= xRightOf col params ->
        IZR col / IZR (gridX params) <= uvU v' <= (IZR col + 1) / IZR (gridX params)) /\
       (yBottomOf row params <= gy <= yTopOf row params ->
        IZR row / IZR (gridY params) <= uvV v' <= (IZR row + 1) / IZR (gridY params))).
Proof.
  intros Hw Hh Hgx Hgy Hk out s gx gy.
  assert (Hout : out = map (correctUV params (shapeCenterX s) (shapeCenterY s)) vertices).
  { unfold out, correctUVs. apply for_lt_elements. }
  split; [rewrite Hout; apply length_map|].
  exists (correctUV params (shapeCenterX s) (shapeCenterY s) v).
  split; [rewrite Hout, nth_error_map, Hk; reflexivity|].
  unfold correctUV. fold gx gy.
  destruct (Rlt_dec 0.9 (Rabs (normalZ v))) as [Hcap|Hside].
  - rewrite Rltb_true by assumption. cbn [posX posY posZ normalZ uvU uvV].
    repeat (split; [reflexivity|]). split; [intros; lra|]. intros _.
    split; [reflexivity|]. split; [reflexivity|].
    assert (HgX : 0 < IZR (gridX params)) by (apply (IZR_lt 0); lia).
    assert (HgY : 0 < IZR (gridY params)) by (apply (IZR_lt 0); lia).
    unfold xRightOf, xLeftOf, yTopOf, yBottomOf, pieceW, pieceH.
    split; intros [H1 H2].
    + replace (IZR col / IZR (gridX params))
        with ((- (width params / 2) + IZR col * (width params / IZR (gridX params))
               + width params / 2) / width params) by (field; lra).
      replace ((IZR col + 1) / IZR (gridX params))
        with ((- (width params / 2) + IZR col * (width params / IZR (gridX params))
               + width params / IZR (gridX params) + width params / 2) / width params)
        by (field; lra).
      unfold Rdiv at 1 4.
      split; apply Rmult_le_compat_r; try lra;
        left; apply Rinv_0_lt_compat; assumption.
    + replace (IZR row / IZR (gridY params))
        with ((- (height params / 2) + IZR row * (height params / IZR (gridY params))
               + height params / 2) / height params) by (field; lra).
      replace ((IZR row + 1) / IZR (gridY params))
        with ((- (height params / 2) + IZR row * (height params / IZR (gridY params))
               + height params / IZR (gridY params) + height params / 2) / height params)
        by (field; lra).
      unfold Rdiv at 1 4.
      split; apply Rmult_le_compat_r; try lra;
        left; apply Rinv_0_lt_compat; assumption.
  - rewrite Rltb_false by lra. repeat (split; [reflexivity|]).
    intros; lra.
Qed.

Lemma correctUVs_texture_cell_witness :
  let params := mkParams 100 100 10 2 2 straight in
  let v := mkVertex 0 0 10 1 0 0 in
  let out := correctUVs 0 0 params [v] in
  let s := createPieceShape 0 0 params in
  let gx := posX v + shapeCenterX s in
  let gy := posY v + shapeCenterY s in
  length out = length [v] /\
  exists v',
    nth_error out 0 = Some v' /\
    posX v' = posX v /\ posY v' = posY v /\ posZ v' = posZ v /\
    normalZ v' = normalZ v /\
    (Rabs (normalZ v) <= 0.9 -> v' = v) /\
    (0.9 < Rabs (normalZ v) ->
       uvU v' = (gx + width params / 2) / width params /\
       uvV v' = (gy + height params / 2) / height params /\
       (xLeftOf 0 params <= gx <= xRightOf 0 params ->
        IZR 0 / IZR (gridX params) <= uvU v' <= (IZR 0 + 1) / IZR (gridX params)) /\
       (yBottomOf 0 params <= gy <= yTopOf 0 params ->
        IZR 0 / IZR (gridY params) <= uvV v' <= (IZR 0 + 1) / IZR (gridY params))).
Proof.
  intros params v.
  apply (correctUVs_texture_cell params 0 0 [v] 0 v).
  - change (0 < 100). lra.
  - change (0 < 100). lra.
  - simpl; lia.
  - simpl; lia.
  - reflexivity.
Defined.

(* ================================================================== *)
(** ** The preview of the cuts *)
(* ================================================================== *)

(** The offset written out in [generateLinePath] is [splitOffset] at the
    amplitude [3]. *)
Lemma preview_offset (t : R) (m : SplitMode) :
  match m with
  | wave => sin (t * PI * 4) * 3
  | zigzag =>
      let zigzagT := js_mod (t * 8) 1 in
      (if Rltb zigzagT 0.5 then zigzagT * 6 else (1 - zigzagT) * 6) - 1.5
  | straight => 0
  end = splitOffset t m 3.
Proof.
  destruct m; simpl; try reflexivity.
  destruct (Rltb (js_mod (t * 8) 1) 0.5); lra.
Qed.

Lemma generateLinePath_vertical (m : SplitMode) (topZ X y0 y1 : R) (segments : Z) :
  generateLinePath m topZ (mkVector2 X y0) (mkVector2 X y1) segments =
    map (lift topZ) (generateVerticalEdge X y0 y1 m 3 segments).
Proof.
  rewrite generateVerticalEdge_points, map_map.
  unfold generateLinePath, for_lt. rewrite Z.sub_0_r. cbn [vx vy].
  etransitivity;
    [|exact (for_iter_push
               (fun i => lift topZ (vPoint X y0 y1 m 3 segments i)) _ 0 [])].
  apply for_iter_ext. intros i path.
  destruct (Req_dec_T X X) as [_|N]; [|contradiction].
  rewrite preview_offset. unfold lift, vPoint; cbn [vx vy].
  do 2 f_equal. f_equal. ring.
Qed.

Lemma generateLinePath_horizontal (m : SplitMode) (topZ x0 x1 Y : R) (segments : Z) :
  x0 <> x1 ->
  generateLinePath m topZ (mkVector2 x0 Y) (mkVector2 x1 Y) segments =
    map (lift topZ) (generateHorizontalEdge x0 x1 Y m 3 segments).
Proof.
  intros Hx.
  rewrite generateHorizontalEdge_points, map_map.
  unfold generateLinePath, for_lt. rewrite Z.sub_0_r. cbn [vx vy].
  etransitivity;
    [|exact (for_iter_push
               (fun i => lift topZ (hPoint x0 x1 Y m 3 segments i)) _ 0 [])].
  apply for_iter_ext. intros i path.
  destruct (Req_dec_T x0 x1) as [E|_]; [contradiction|].
  rewrite preview_offset. unfold lift, hPoint; cbn [vx vy].
  do 2 f_equal. f_equal. ring.
Qed.

(** X12.  The path [createSplitLines] draws for a cut is the edge
    [puzzleGeometry] generates with amplitude [3] between the same ends,
    lifted to the height of the preview: [generateVerticalEdge] for a line
    of constant x, [generateHorizontalEdge] for a line whose ends differ
    in x. *)
Theorem generateLinePath_is_edge
    (m : SplitMode) (topZ X y0 y1 x0 x1 Y : R) (segments : Z) :
  x0 <> x1 ->
  generateLinePath m topZ (mkVector2 X y0) (mkVector2 X y1) segments =
    map (lift topZ) (generateVerticalEdge X y0 y1 m 3 segments) /\
  generateLinePath m topZ (mkVector2 x0 Y) (mkVector2 x1 Y) segments =
    map (lift topZ) (generateHorizontalEdge x0 x1 Y m 3 segments).
Proof.
  intros Hx. split.
  - apply generateLinePath_vertical.
  - now apply generateLinePath_horizontal.
Qed.

Lemma generateLinePath_is_edge_witness :
  generateLinePath wave 10.1 (mkVector2 0 (-50)) (mkVector2 0 50) 20 =
    map (lift 10.1) (generateVerticalEdge 0 (-50) 50 wave 3 20) /\
  generateLinePath wave 10.1 (mkVector2 (-50) 0) (mkVector2 50 0) 20 =
    map (lift 10.1) (generateHorizontalEdge (-50) 50 0 wave 3 20).
Proof.
  apply (generateLinePath_is_edge wave 10.1 0 (-50) 50 (-50) 50 0 20). lra.
Defined.

Lemma skipn_cons_nth {A : Type} (l : list A) (k : nat) (a : A) :
  nth_error l k = Some a -> skipn k l = a :: skipn (S k) l.
Proof.
  revert l. induction k as [|k IHk]; intros [|b l] E; try discriminate.
  - simpl in E. injection E as ->. reflexivity.
  - simpl in E. simpl. now apply IHk.
Qed.

(** The inner loop of [createSplitLines] pushes the two ends of every
    segment of the path. *)
Lemma for_iter_segments (l : list Vector3) (n : nat) :
  forall (k : nat) (points : list Vector3),
  (length l = k + n + 1)%nat ->
  for_iter n (Z.of_nat k)
    (fun j points =>
       match js_get l j, js_get l (j + 1) with
       | Some a, Some b => points ++ [a; b]
       | _, _ => points
       end) points =
  points ++ segmentPairs (skipn k l).
Proof.
  induction n as [|n IH]; intros k points Hlen.
  - cbn [for_iter].
    destruct (nth_error l k) as [a|] eqn:E.
    + rewrite (skipn_cons_nth _ _ _ E), (skipn_all2 l) by lia.
      cbn [segmentPairs]. now rewrite app_nil_r.
    + apply nth_error_None in E. lia.
  - cbn [for_iter].
    replace (Z.of_nat k + 1)%Z with (Z.of_nat (S k)) by lia.
    rewrite !js_get_of_nat, IH by lia.
    destruct (nth_error l k) as [a|] eqn:Ea;
      [|apply nth_error_None in Ea; lia].
    destruct (nth_error l (S k)) as [b|] eqn:Eb;
      [|apply nth_error_None in Eb; lia].
    rewrite (skipn_cons_nth _ _ _ Ea), (skipn_cons_nth _ _ _ Eb).
    cbn [segmentPairs]. rewrite <- app_assoc. reflexivity.
Qed.

Lemma pushSegments_spec (linePath points : list Vector3) :
  pushSegments linePath points = points ++ segmentPairs linePath.
Proof.
  unfold pushSegments, for_lt. rewrite Z.sub_0_r.
  destruct linePath as [|a l].
  - cbn. now rewrite app_nil_r.
  - change 0%Z with (Z.of_nat 0).
    rewrite for_iter_segments; [reflexivity|].
    cbn [length]. lia.
Qed.

Lemma for_iter_append {A : Type} (g : Z -> list A) (n : nat) :
  forall (v : Z) (acc : list A),
  for_iter n v (fun i points => points ++ g i) acc =
  acc ++ flat_map g (zrange v n).
Proof.
  induction n as [|n IH]; intros v acc; simpl.
  - now rewrite app_nil_r.
  - rewrite IH, <- app_assoc. reflexivity.
Qed.

Lemma length_segmentPairs (l : list Vector3) :
  length (segmentPairs l) = (2 * (length l - 1))%nat.
Proof.
  induction l as [|a [|b l] IH]; try reflexivity.
  cbn [segmentPairs length] in *. lia.
Qed.

Lemma In_segmentPairs (l : list Vector3) (p : Vector3) :
  In p (segmentPairs l) -> In p l.
Proof.
  induction l as [|a l IH]; [intros []|].
  destruct l as [|b l]; [intros []|].
  change (segmentPairs (a :: b :: l)) with (a :: b :: segmentPairs (b :: l)).
  intros [H|[H|H]].
  - now left.
  - right; now left.
  - right. now apply IH.
Qed.

Lemma length_flat_map_const {A B : Type} (g : A -> list B) (c : nat) (l : list A) :
  (forall a, In a l -> length (g a) = c) ->
  length (flat_map g l) = (c * length l)%nat.
Proof.
  induction l as [|a l IH]; intros H; cbn [flat_map length]; [lia|].
  rewrite length_app, IH, (H a) by (intros; apply H; now right) || (now left).
  lia.
Qed.

Lemma length_generateLinePath m topZ s e segments :
  length (generateLinePath m topZ s e segments) = Z.to_nat (segments + 1).
Proof.
  unfold generateLinePath, for_lt. rewrite Z.sub_0_r.
  generalize (Z.to_nat (segments + 1)) as n.
  assert (G : forall n v acc,
             length (for_iter n v
               (fun i path =>
                  let t := IZR i / IZR segments in
                  let x := vx s + (vx e - vx s) * t in
                  let y := vy s + (vy e - vy s) * t in
                  let offset :=
                    match m with
                    | wave => sin (t * PI * 4) * 3
                    | zigzag =>
                        let zigzagT := js_mod (t * 8) 1 in
                        (if Rltb zigzagT 0.5 then zigzagT * 6 else (1 - zigzagT) * 6) - 1.5
                    | straight => 0
                    end in
                  if Req_dec_T (vx s) (vx e)
                  then path ++ [mkVector3 (x + offset) y topZ]
                  else path ++ [mkVector3 x (y + offset) topZ]) acc)
             = (length acc + n)%nat).
  { induction n as [|n IH]; intros v acc; cbn [for_iter]; [lia|].
    rewrite IH. cbv zeta.
    destruct (Req_dec_T (vx s) (vx e)); rewrite length_app; cbn [length]; lia. }
  intros n. now rewrite G.
Qed.

Lemma for_iter_pushSegments (g : Z -> list Vector3) (n : nat) :
  forall (v : Z) (acc : list Vector3),
  for_iter n v (fun i points => pushSegments (g i) points) acc =
  acc ++ flat_map (fun i => segmentPairs (g i)) (zrange v n).
Proof.
  induction n as [|n IH]; intros v acc; cbn [for_iter zrange flat_map].
  - now rewrite app_nil_r.
  - rewrite IH, pushSegments_spec, <- app_assoc. reflexivity.
Qed.

(** The preview is the cuts between the columns followed by the cuts
    between the rows. *)
Lemma createSplitLines_cuts (params : PuzzleParams) :
  createSplitLines params =
  flat_map (columnCut params) (zrange 1 (Z.to_nat (gridX params - 1))) ++
  flat_map (rowCut params) (zrange 1 (Z.to_nat (gridY params - 1))).
Proof.
  pose (gCol := fun i : Z =>
         generateLinePath (splitMode params) (depth params + 0.1)
           (mkVector2 (- (width params / 2) + width params / IZR (gridX params) * IZR i)
                      (- (height params / 2)))
           (mkVector2 (- (width params / 2) + width params / IZR (gridX params) * IZR i)
                      (height params / 2)) 20).
  pose (gRow := fun i : Z =>
         generateLinePath (splitMode params) (depth params + 0.1)
           (mkVector2 (- (width params / 2))
                      (- (height params / 2) + height params / IZR (gridY params) * IZR i))
           (mkVector2 (width params / 2)
                      (- (height params / 2) + height params / IZR (gridY params) * IZR i))
           20).
  change (createSplitLines params)
    with (for_iter (Z.to_nat (gridY params - 1)) 1
            (fun i points => pushSegments (gRow i) points)
            (for_iter (Z.to_nat (gridX params - 1)) 1
               (fun i points => pushSegments (gCol i) points) [])).
  rewrite (for_iter_pushSegments gRow).
  rewrite (for_iter_pushSegments gCol).
  rewrite app_nil_l.
  unfold columnCut, rowCut, gCol, gRow.
  reflexivity.
Qed.


Lemma length_columnCut (params : PuzzleParams) (i : Z) :
  length (columnCut params i) = 40%nat.
Proof.
  unfold columnCut. rewrite length_segmentPairs, length_generateLinePath.
  reflexivity.
Qed.

Lemma length_rowCut (params : PuzzleParams) (i : Z) :
  length (rowCut params i) = 40%nat.
Proof.
  unfold rowCut. rewrite length_segmentPairs, length_generateLinePath.
  reflexivity.
Qed.

Lemma In_columnCut (params : PuzzleParams) (i : Z) (p : Vector3) :
  In p (columnCut params i) ->
  exists j, (0 <= j <= 20)%Z /\
    p = lift (depth params + 0.1)
          (vPoint (- (width params / 2) + width params / IZR (gridX params) * IZR i)
             (- (height params / 2)) (height params / 2) (splitMode params) 3 20 j).
Proof.
  unfold columnCut. intros Hp. apply In_segmentPairs in Hp.
  rewrite generateLinePath_vertical, generateVerticalEdge_points in Hp.
  apply in_map_iff in Hp. destruct Hp as [q [<- Hq]].
  apply in_map_iff in Hq. destruct Hq as [j [<- Hj]].
  apply zrange_In in Hj. exists j. split; [|reflexivity].
  change (Z.of_nat (Z.to_nat (20 + 1))) with 21%Z in Hj. lia.
Qed.

Lemma In_rowCut (params : PuzzleParams) (i : Z) (p : Vector3) :
  0 < width params ->
  In p (rowCut params i) ->
  exists j, (0 <= j <= 20)%Z /\
    p = lift (depth params + 0.1)
          (hPoint (- (width params / 2)) (width params / 2)
             (- (height params / 2) + height params / IZR (gridY params) * IZR i)
             (splitMode params) 3 20 j).
Proof.
  unfold rowCut. intros Hw Hp. apply In_segmentPairs in Hp.
  rewrite generateLinePath_horizontal, generateHorizontalEdge_points in Hp by lra.
  apply in_map_iff in Hp. destruct Hp as [q [<- Hq]].
  apply in_map_iff in Hq. destruct Hq as [j [<- Hj]].
  apply zrange_In in Hj. exists j. split; [|reflexivity].
  change (Z.of_nat (Z.to_nat (20 + 1))) with 21%Z in Hj. lia.
Qed.

(** A sample of a cut is within [3] of the straight line, on it in the
    straight mode, and between the two ends. *)
Lemma preview_sample (m : SplitMode) (j : Z) (c lo hi : R) :
  (0 <= j <= 20)%Z -> lo <= hi ->
  Rabs (c + splitOffset (IZR j / IZR 20) m 3 - c) <= 3 /\
  (m = straight -> c + splitOffset (IZR j / IZR 20) m 3 = c) /\
  lo <= lo + (hi - lo) * (IZR j / IZR 20) <= hi.
Proof.
  intros Hj Hlo.
  assert (Ht : 0 <= IZR j / IZR 20 <= 1) by (apply sample_range; lia).
  assert (H3 : 0 <= 3) by lra.
  pose proof (splitOffset_bound (IZR j / IZR 20) 3 m (proj1 Ht) H3) as Ho.
  split; [|split].
  - replace (c + splitOffset (IZR j / IZR 20) m 3 - c)
      with (splitOffset (IZR j / IZR 20) m 3) by ring.
    apply Rabs_le. lra.
  - intros ->. unfold splitOffset. ring.
  - clear Ho. generalize dependent (IZR j / IZR 20). intros t Ht. nra.
Qed.

(** X13.  For positive sizes and a grid of at least one cell each way, the
    preview built by [createSplitLines] has 40 points for each of the
    [gridX - 1 + gridY - 1] cuts; every point lies at the height
    [depth + 0.1], within [3] of the border between two columns or two rows
    of [generateAllPieces] and between the ends of that border; in the
    straight mode it lies on the border. *)
Theorem createSplitLines_on_borders (params : PuzzleParams) (p : Vector3) :
  0 < width params -> 0 < height params ->
  (1 <= gridX params)%Z -> (1 <= gridY params)%Z ->
  length (createSplitLines params) =
    (40 * (Z.to_nat (gridX params - 1) + Z.to_nat (gridY params - 1)))%nat /\
  (In p (createSplitLines params) ->
   v3z p = depth params + 0.1 /\
   ((exists i, (1 <= i < gridX params)%Z /\
       Rabs (v3x p - xLeftOf i params) <= 3 /\
       (splitMode params = straight -> v3x p = xLeftOf i params) /\
       - (height params / 2) <= v3y p <= height params / 2) \/
    (exists i, (1 <= i < gridY params)%Z /\
       Rabs (v3y p - yBottomOf i params) <= 3 /\
       (splitMode params = straight -> v3y p = yBottomOf i params) /\
       - (width params / 2) <= v3x p <= width params / 2))).
Proof.
  intros Hw Hh Hgx Hgy. rewrite createSplitLines_cuts. split.
  - rewrite length_app,
      (length_flat_map_const (columnCut params) 40),
      (length_flat_map_const (rowCut params) 40), !zrange_length.
    + lia.
    + intros i _. apply length_rowCut.
    + intros i _. apply length_columnCut.
  - intros Hp. apply in_app_or in Hp.
    destruct Hp as [Hp|Hp]; apply in_flat_map in Hp; destruct Hp as [i [Hi Hp]];
      apply zrange_In in Hi.
    + apply In_columnCut in Hp. destruct Hp as [j [Hj ->]].
      split; [reflexivity|]. left. exists i. split; [lia|].
      assert (Hlo : - (height params / 2) <= height params / 2) by lra.
      pose proof (preview_sample (splitMode params) j (xLeftOf i params)
                    (- (height params / 2)) (height params / 2) Hj Hlo)
        as [H1 [H2 H3]].
      assert (Ex : - (width params / 2) + width params / IZR (gridX params) * IZR i
                   = xLeftOf i params)
        by (unfold xLeftOf, pieceW; ring).
      unfold lift, vPoint. cbn [v3x v3y vx vy]. rewrite Ex.
      split; [exact H1|]. split; [exact H2|].
      exact H3.
    + apply In_rowCut in Hp; [|exact Hw]. destruct Hp as [j [Hj ->]].
      split; [reflexivity|]. right. exists i. split; [lia|].
      assert (Hlo : - (width params / 2) <= width params / 2) by lra.
      pose proof (preview_sample (splitMode params) j (yBottomOf i params)
                    (- (width params / 2)) (width params / 2) Hj Hlo)
        as [H1 [H2 H3]].
      assert (Ey : - (height params / 2) + height params / IZR (gridY params) * IZR i
                   = yBottomOf i params)
        by (unfold yBottomOf, pieceH; ring).
      unfold lift, hPoint. cbn [v3x v3y vx vy]. rewrite Ey.
      split; [exact H1|]. split; [exact H2|]. exact H3.
Qed.

Lemma createSplitLines_on_borders_witness :
  let params := mkParams 100 100 10 2 2 wave in
  let p := mkVector3 0 (-50) 10.1 in
  length (createSplitLines params) =
    (40 * (Z.to_nat (gridX params - 1) + Z.to_nat (gridY params - 1)))%nat /\
  (In p (createSplitLines params) ->
   v3z p = depth params + 0.1 /\
   ((exists i, (1 <= i < gridX params)%Z /\
       Rabs (v3x p - xLeftOf i params) <= 3 /\
       (splitMode params = straight -> v3x p = xLeftOf i params) /\
       - (height params / 2) <= v3y p <= height params / 2) \/
    (exists i, (1 <= i < gridY params)%Z /\
       Rabs (v3y p - yBottomOf i params) <= 3 /\
       (splitMode params = straight -> v3y p = yBottomOf i params) /\
       - (width params / 2) <= v3x p <= width params / 2))).
Proof.
  intros params p.
  apply (createSplitLines_on_borders params p).
  - change (0 < 100). lra.
  - change (0 < 100). lra.
  - simpl; lia.
  - simpl; lia.
Defined.

(* ================================================================== *)
(** ** Updating one pose *)
(* ================================================================== *)

Lemma length_setNth {A : Type} (l : list A) (n : nat) (a : A) :
  length (setNth l n a) = length l.
Proof.
  revert n; induction l as [|b l IH]; intros [|n]; simpl; auto.
Qed.

Lemma nth_error_setNth_eq {A : Type} (l : list A) (n : nat) (a b : A) :
  nth_error l n = Some b -> nth_error (setNth l n a) n = Some a.
Proof.
  revert n; induction l as [|c l IH]; intros [|n]; simpl; try discriminate; auto.
Qed.

Lemma nth_error_setNth_neq {A : Type} (l : list A) (n m : nat) (a : A) :
  n <> m -> nth_error (setNth l n a) m = nth_error l m.
Proof.
  revert n m; induction l as [|c l IH]; intros [|n] [|m] H; simpl; auto.
  - contradiction.
Qed.

Lemma js_get_setNth_eq {A : Type} (l : list A) (i : Z) (a b : A) :
  js_get l i = Some b -> js_get (setNth l (Z.to_nat i) a) i = Some a.
Proof.
  unfold js_get. destruct (i <? 0)%Z; [discriminate|].
  apply nth_error_setNth_eq.
Qed.

Lemma js_get_setNth_neq {A : Type} (l : list A) (i j : Z) (a b : A) :
  js_get l i = Some b -> j <> i ->
  js_get (setNth l (Z.to_nat i) a) j = js_get l j.
Proof.
  unfold js_get. destruct (Z.ltb_spec i 0); [discriminate|]. intros _ Hj.
  destruct (Z.ltb_spec j 0); [reflexivity|].
  apply nth_error_setNth_neq. lia.
Qed.

(** X14.  [updatePieceTransform] touches one pose and nothing else: the
    other fields of the state, the number of poses and every pose at another
    position stay as they were, and the pose at [index], if there is one,
    becomes the old pose overwritten by the fields of the patch.  For an
    index outside the array, [-1] included, the state is unchanged. *)
Theorem updatePieceTransform_frame (index : Z) (transform : TransformPatch) (a : App) :
  let a' := updatePieceTransform index transform a in
  setPieceTransforms (pieceTransforms a) a' = a /\
  length (pieceTransforms a') = length (pieceTransforms a) /\
  js_get (pieceTransforms a') index =
    option_map (fun old => spread old transform) (js_get (pieceTransforms a) index) /\
  (forall j, j <> index ->
     js_get (pieceTransforms a') j = js_get (pieceTransforms a) j) /\
  (js_get (pieceTransforms a) index = None -> a' = a).
Proof.
  intros a'. unfold a', updatePieceTransform.
  destruct (js_get (pieceTransforms a) index) as [old|] eqn:E.
  - cbn [setPieceTransforms pieceTransforms option_map].
    split; [destruct a; reflexivity|].
    split; [apply length_setNth|].
    split; [now apply (js_get_setNth_eq _ _ _ old)|].
    split; [|discriminate].
    intros j Hj. now apply (js_get_setNth_neq _ _ _ _ old).
  - cbn [option_map]. rewrite E.
    split; [destruct a; reflexivity|]. repeat split; reflexivity.
Qed.

(* ================================================================== *)
(** ** Dragging and turning a piece *)
(* ================================================================== *)

(** One pointer move while piece [i] is dragged or turned: the mode [m] and
    the offset [off] recorded by the pointer-down stay, the poses other than
    that of piece [i] stay those of the state [a] the gesture began in, and
    piece [i] gets its new position or its new rotation. *)
Lemma gesture_step (m : DragMode) (off : R * R * R) (i : Z) (a s : App)
    (clientX pointX pointY : R) :
  m <> NoDrag ->
  (0 <= i)%Z ->
  isDraggingRef s = m -> dragOffsetRef s = off -> selectedPieceIndex s = i ->
  length (pieceTransforms s) = length (pieceTransforms a) ->
  (forall j, j <> i -> js_get (pieceTransforms s) j = js_get (pieceTransforms a) j) ->
  forall t', js_get (pieceTransforms s) i = Some t' ->
  let s' := handleMouseMove clientX pointX pointY s in
  isDraggingRef s' = m /\ dragOffsetRef s' = off /\ selectedPieceIndex s' = i /\
  length (pieceTransforms s') = length (pieceTransforms a) /\
  (forall j, j <> i -> js_get (pieceTransforms s') j = js_get (pieceTransforms a) j) /\
  js_get (pieceTransforms s') i =
    Some (match m with
          | Rotate =>
              mkTransform (x t') (y t') (z t')
                (snd off + (clientX - fst (fst off)) * 0.01) (tindex t')
          | _ =>
              mkTransform (pointX + fst (fst off)) (pointY + snd (fst off)) (z t')
                (rotation t') (tindex t')
          end).
Proof.
  intros Hm Hi Hd Ho Hs Hlen Hoth t' Ht' s'.
  unfold s', handleMouseMove. rewrite Ho, Hd, Hs.
  destruct off as [[offX offY] offZ]. cbn [fst snd].
  assert (Hge : (i >=? 0)%Z = true) by (apply Z.geb_le; lia).
  destruct m; [contradiction| |]; rewrite Hge.
  - rewrite Ht'. unfold updatePieceTransform. rewrite Ht'.
    cbn [setPieceTransforms isDraggingRef dragOffsetRef selectedPieceIndex pieceTransforms].
    split; [exact Hd|]. split; [exact Ho|]. split; [exact Hs|].
    split; [now rewrite length_setNth|].
    split.
    + intros j Hj. rewrite (js_get_setNth_neq _ _ _ _ t' Ht' Hj). now apply Hoth.
    + rewrite (js_get_setNth_eq _ _ _ t' Ht'). reflexivity.
  - unfold updatePieceTransform. rewrite Ht'.
    cbn [setPieceTransforms isDraggingRef dragOffsetRef selectedPieceIndex pieceTransforms].
    split; [exact Hd|]. split; [exact Ho|]. split; [exact Hs|].
    split; [now rewrite length_setNth|].
    split.
    + intros j Hj. rewrite (js_get_setNth_neq _ _ _ _ t' Ht' Hj). now apply Hoth.
    + rewrite (js_get_setNth_eq _ _ _ t' Ht'). reflexivity.
Qed.

(** X15.  Dragging keeps the piece's offset to the pointer.  In game mode, a
    pointer-down that hits piece [i] at the point [(px, py)] of the drag
    plane, which writes no pose, followed by the next pointer move, to the
    point [(qx, qy)], selects piece [i], records the offset
    [(x - px, y - py)] of its position to the pointer and writes the
    position [(qx + (x - px), qy + (y - py))]; the z, the rotation and the
    index property of piece [i] and every other pose are unchanged. *)
Theorem drag_follows_pointer
    (a : App) (hit : Hit) (i : Z) (t : PieceTransform)
    (clientX clientY px py clientX' qx qy : R) :
  puzzleGameMode a = true ->
  rotationHit hit && (selectedPieceIndex a >=? 0)%Z = false ->
  pieceHit hit = Some (i, px, py) ->
  js_get (pieceTransforms a) i = Some t ->
  let a1 := handleMouseDown clientX clientY hit a in
  let a' := handleMouseMove clientX' qx qy a1 in
  pieceTransforms a1 = pieceTransforms a /\
  selectedPieceIndex a' = i /\
  isDraggingRef a' = Drag /\
  dragOffsetRef a' = (x t - px, y t - py, 0) /\
  length (pieceTransforms a') = length (pieceTransforms a) /\
  js_get (pieceTransforms a') i =
    Some (mkTransform (qx + (x t - px)) (qy + (y t - py)) (z t) (rotation t) (tindex t)) /\
  (forall j, j <> i -> js_get (pieceTransforms a') j = js_get (pieceTransforms a) j).
Proof.
  intros Hg Hr Hp Ht a1 a'.
  assert (Hi : (0 <= i)%Z) by (apply js_get_Some_range in Ht; lia).
  assert (Ha1 : a1 = setDragging Drag (x t - px, y t - py, 0)
                       (setSelectedPieceIndex i a)).
  { unfold a1, handleMouseDown. rewrite Hg, Hr, Hp, Ht. reflexivity. }
  assert (HD : Drag <> NoDrag) by discriminate.
  pose proof (gesture_step Drag (x t - px, y t - py, 0) i a a1 clientX' qx qy HD Hi)
    as HS.
  rewrite Ha1 in HS.
  cbn [setDragging setSelectedPieceIndex isDraggingRef dragOffsetRef
       selectedPieceIndex pieceTransforms] in HS.
  specialize (HS eq_refl eq_refl eq_refl eq_refl (fun j _ => eq_refl) t Ht).
  rewrite <- Ha1 in HS. cbn [fst snd] in HS.
  destruct HS as (G1 & G2 & G3 & G4 & G5 & G6).
  split; [rewrite Ha1; reflexivity|].
  split; [exact G3|]. split; [exact G1|]. split; [exact G2|].
  split; [exact G4|]. split; [exact G6|exact G5].
Qed.

Lemma drag_follows_pointer_witness :
  let t := mkTransform (-25) (-25) 5 0 None in
  let a := mkApp (mkParams 100 100 10 1 1 straight) true false 20 (-1) [t] []
             NoDrag (0, 0, 0) in
  let a1 := handleMouseDown 0 0 (mkHit false (Some (0%Z, -20, -20))) a in
  let a' := handleMouseMove 0 30 40 a1 in
  pieceTransforms a1 = pieceTransforms a /\
  selectedPieceIndex a' = 0%Z /\
  isDraggingRef a' = Drag /\
  dragOffsetRef a' = (x t - -20, y t - -20, 0) /\
  length (pieceTransforms a') = length (pieceTransforms a) /\
  js_get (pieceTransforms a') 0 =
    Some (mkTransform (30 + (x t - -20)) (40 + (y t - -20)) (z t) (rotation t) (tindex t)) /\
  (forall j, j <> 0%Z -> js_get (pieceTransforms a') j = js_get (pieceTransforms a) j).
Proof.
  intros t a.
  apply (drag_follows_pointer a (mkHit false (Some (0%Z, -20, -20))) 0 t
           0 0 (-20) (-20) 0 30 40); reflexivity.
Defined.

(** X16.  Turning follows the pointer.  In game mode, a pointer-down on the
    rotation helper at [clientX] while a piece is selected, which writes no
    pose, followed by the next pointer move, at [clientX'], writes for the
    selected piece the rotation it had plus [0.01] rad for each pixel of
    [clientX' - clientX]; its position and index property and every other
    pose are unchanged.  A pointer-up in the rotation mode changes no pose
    and ends the mode. *)
Theorem rotate_follows_pointer
    (a : App) (hit : Hit) (t : PieceTransform)
    (clientX clientY clientX' qx qy : R) :
  puzzleGameMode a = true ->
  rotationHit hit = true ->
  js_get (pieceTransforms a) (selectedPieceIndex a) = Some t ->
  let i := selectedPieceIndex a in
  let a1 := handleMouseDown clientX clientY hit a in
  let a' := handleMouseMove clientX' qx qy a1 in
  pieceTransforms a1 = pieceTransforms a /\
  isDraggingRef a1 = Rotate /\
  selectedPieceIndex a' = i /\
  length (pieceTransforms a') = length (pieceTransforms a) /\
  js_get (pieceTransforms a') i =
    Some (mkTransform (x t) (y t) (z t)
            (rotation t + (clientX' - clientX) * 0.01) (tindex t)) /\
  (forall j, j <> i -> js_get (pieceTransforms a') j = js_get (pieceTransforms a) j) /\
  (forall s, isDraggingRef s = Rotate ->
     pieceTransforms (handleMouseUp s) = pieceTransforms s /\
     isDraggingRef (handleMouseUp s) = NoDrag).
Proof.
  intros Hg Hr Ht i a1 a'.
  assert (Hi : (0 <= i)%Z) by (apply js_get_Some_range in Ht; unfold i; lia).
  assert (Ha1 : a1 = setDragging Rotate (clientX, clientY, rotation t) a).
  { unfold a1, handleMouseDown. rewrite Hg, Hr, Ht.
    replace (selectedPieceIndex a >=? 0)%Z with true
      by (symmetry; apply Z.geb_le; exact Hi).
    cbn [negb andb]. now rewrite js_or0_id. }
  assert (HD : Rotate <> NoDrag) by discriminate.
  pose proof (gesture_step Rotate (clientX, clientY, rotation t) i a a1 clientX' qx qy
                HD Hi) as HS.
  rewrite Ha1 in HS.
  cbn [setDragging isDraggingRef dragOffsetRef selectedPieceIndex pieceTransforms] in HS.
  specialize (HS eq_refl eq_refl eq_refl eq_refl (fun j _ => eq_refl) t Ht).
  rewrite <- Ha1 in HS. cbn [fst snd] in HS.
  destruct HS as (G1 & G2 & G3 & G4 & G5 & G6).
  split; [rewrite Ha1; reflexivity|].
  split; [rewrite Ha1; reflexivity|].
  split; [exact G3|]. split; [exact G4|]. split; [exact G6|]. split; [exact G5|].
  intros s Hs. unfold handleMouseUp. rewrite Hs.
  cbn [setDragging pieceTransforms isDraggingRef]. split; reflexivity.
Qed.

Lemma rotate_follows_pointer_witness :
  let t := mkTransform (-25) (-25) 5 0 None in
  let a := mkApp (mkParams 100 100 10 1 1 straight) true false 20 0 [t] []
             NoDrag (0, 0, 0) in
  let i := selectedPieceIndex a in
  let a1 := handleMouseDown 100 0 (mkHit true None) a in
  let a' := handleMouseMove 150 0 0 a1 in
  pieceTransforms a1 = pieceTransforms a /\
  isDraggingRef a1 = Rotate /\
  selectedPieceIndex a' = i /\
  length (pieceTransforms a') = length (pieceTransforms a) /\
  js_get (pieceTransforms a') i =
    Some (mkTransform (x t) (y t) (z t)
            (rotation t + (150 - 100) * 0.01) (tindex t)) /\
  (forall j, j <> i -> js_get (pieceTransforms a') j = js_get (pieceTransforms a) j) /\
  (forall s, isDraggingRef s = Rotate ->
     pieceTransforms (handleMouseUp s) = pieceTransforms s /\
     isDraggingRef (handleMouseUp s) = NoDrag).
Proof.
  intros t a.
  apply (rotate_follows_pointer a (mkHit true None) t 100 0 150 0 0); reflexivity.
Defined.

(* ================================================================== *)
(** ** The image list *)
(* ================================================================== *)

Lemma findImage_Some (k : option String.string) (l : list Slice.Image) (img : Slice.Image) :
  Slice.findImage k l = Some img -> In img l /\ k = Some (Slice.id img).
Proof.
  destruct k as [s|]; [|discriminate]. cbn [Slice.findImage]. intros H.
  apply find_some in H. destruct H as [Hin He].
  apply String.eqb_eq in He. split; [assumption|now rewrite He].
Qed.

Lemma findImage_listed (s : String.string) (l : list Slice.Image) :
  (exists img, In img l /\ Slice.id img = s) ->
  exists img, Slice.findImage (Some s) l = Some img.
Proof.
  intros (img & Hin & He). cbn [Slice.findImage].
  destruct (find (fun i => String.eqb (Slice.id i) s) l) as [x|] eqn:E.
  - now exists x.
  - pose proof (find_none _ _ E img Hin) as H. cbn beta in H.
    rewrite He, String.eqb_refl in H. discriminate.
Qed.

Lemma listed_head (img : Slice.Image) (l : list Slice.Image) sel prev :
  listed (Slice.id img) (Slice.mkImageState (img :: l) sel prev).
Proof. exists img. split; [now left|reflexivity]. Qed.

Lemma listed_app (k : String.string) (l new : list Slice.Image) sel prev sel' prev' :
  listed k (Slice.mkImageState l sel prev) ->
  listed k (Slice.mkImageState (l ++ new) sel' prev').
Proof.
  intros (img & Hin & He). exists img. split; [|assumption].
  cbn [Slice.images] in *. apply in_or_app. now left.
Qed.

Lemma listed_filter (k j : String.string) (l : list Slice.Image) sel prev sel' prev' :
  listed k (Slice.mkImageState l sel prev) -> String.eqb k j = false ->
  listed k (Slice.mkImageState
              (filter (fun img => negb (String.eqb (Slice.id img) j)) l) sel' prev').
Proof.
  intros (img & Hin & He) Hk. exists img. split; [|assumption].
  cbn [Slice.images] in *. apply filter_In. split; [assumption|].
  now rewrite He, Hk.
Qed.

Lemma imagesInv_reduce (act : ImageAction) (state : Slice.ImageState) :
  imagesInv state -> offered act state -> imagesInv (reduceImage act state).
Proof.
  destruct state as [l sel prev]. intros (H0 & Hs & Hp) Hoff.
  cbn [Slice.images Slice.selectedImageId Slice.previewImageId] in *.
  destruct act as [new|k|k|k| | ]; cbn [reduceImage offered] in *.
  - (* addImages *)
    unfold Slice.addImages, imagesInv.
    cbn [Slice.images Slice.selectedImageId Slice.previewImageId].
    assert (Hprev : forall j, prev = Some j ->
              forall s' p', listed j (Slice.mkImageState (l ++ new) s' p')).
    { intros j Hj s' p'. apply (listed_app j l new sel prev). now apply Hp. }
    destruct new as [|first new].
    + rewrite andb_false_r, app_nil_r.
      split; [assumption|]. split; [assumption|]. assumption.
    + cbn [length Nat.ltb Nat.leb]. rewrite andb_true_r.
      destruct (Slice.falsy sel) eqn:Ef.
      * split; [discriminate|]. split; [|now auto].
        intros j Hj. injection Hj as <-.
        exists first. split; [|reflexivity]. cbn [Slice.images].
        apply in_or_app. right. now left.
      * destruct sel as [s|]; [|discriminate].
        split; [discriminate|]. split; [|now auto].
        intros j Hj. apply (listed_app j l (first :: new) (Some s) prev). now apply Hs.
  - (* removeImage *)
    unfold Slice.removeImage, imagesInv.
    cbn [Slice.images Slice.selectedImageId Slice.previewImageId].
    set (l' := filter (fun img => negb (String.eqb (Slice.id img) k)) l).
    split; [|split].
    + destruct sel as [s|]; cbn [Slice.sameId].
      * destruct (String.eqb s k); [|discriminate].
        destruct l'; [reflexivity|discriminate].
      * intros _. unfold l'. now rewrite (H0 eq_refl).
    + intros j. destruct sel as [s|]; cbn [Slice.sameId]; [|discriminate].
      destruct (String.eqb s k) eqn:E.
      * destruct l' as [|first rest] eqn:El; [discriminate|].
        intros Hj. injection Hj as <-. apply listed_head.
      * intros Hj. injection Hj as <-.
        apply (listed_filter s k l (Some s) prev); [now apply Hs|assumption].
    + intros j. destruct prev as [s|]; cbn [Slice.sameId]; [|discriminate].
      destruct (String.eqb s k) eqn:E; [discriminate|].
      intros Hj. injection Hj as <-.
      apply (listed_filter s k l sel (Some s)); [now apply Hp|assumption].
  - (* selectImage *)
    unfold Slice.selectImage, imagesInv.
    cbn [Slice.images Slice.selectedImageId Slice.previewImageId].
    split; [discriminate|]. split; [|assumption].
    intros j Hj. injection Hj as <-. exact Hoff.
  - (* setPreviewImage *)
    unfold Slice.setPreviewImage, imagesInv.
    cbn [Slice.images Slice.selectedImageId Slice.previewImageId].
    split; [assumption|]. split; [assumption|].
    intros j Hj. injection Hj as <-. exact Hoff.
  - (* closePreview *)
    unfold Slice.closePreview, imagesInv.
    cbn [Slice.images Slice.selectedImageId Slice.previewImageId].
    split; [assumption|]. split; [assumption|discriminate].
  - (* resetState *)
    unfold imagesInv. cbn. split; [reflexivity|]. split; discriminate.
Qed.

Lemma imagesInv_reachable (state : Slice.ImageState) :
  imagesReachable state -> imagesInv state.
Proof.
  induction 1 as [|act state Hr IH Hoff].
  - unfold imagesInv. cbn. split; [reflexivity|]. split; discriminate.
  - now apply imagesInv_reduce.
Qed.

(** X17.  The selection never dangles.  In every state the image list can
    reach by adding, removing, selecting and previewing images, closing the
    preview and resetting, [selectSelectedImage] returns a listed image with
    the selected id, and it returns [null] only when the list is empty;
    [selectPreviewImage] returns a listed image with the previewed id
    whenever a preview id is set. *)
Theorem image_selection_never_dangles (state : Slice.ImageState) :
  imagesReachable state ->
  (Slice.selectSelectedImage state = None <-> Slice.images state = []) /\
  (Slice.selectPreviewImage state = None <-> Slice.previewImageId state = None) /\
  (forall img,
     Slice.selectSelectedImage state = Some img ->
     In img (Slice.images state) /\ Slice.selectedImageId state = Some (Slice.id img)) /\
  (forall img,
     Slice.selectPreviewImage state = Some img ->
     In img (Slice.images state) /\ Slice.previewImageId state = Some (Slice.id img)).
Proof.
  intros Hr. apply imagesInv_reachable in Hr. destruct Hr as (H0 & Hs & Hp).
  unfold Slice.selectSelectedImage, Slice.selectPreviewImage.
  split; [|split; [|split]].
  - split.
    + intros Hn. destruct (Slice.selectedImageId state) as [k|] eqn:E; [|now apply H0].
      destruct (findImage_listed k (Slice.images state) (Hs k eq_refl)) as [img Hi].
      rewrite Hi in Hn. discriminate.
    + intros ->. destruct (Slice.selectedImageId state); reflexivity.
  - split.
    + intros Hn. destruct (Slice.previewImageId state) as [k|] eqn:E; [|reflexivity].
      destruct (findImage_listed k (Slice.images state) (Hp k eq_refl)) as [img Hi].
      rewrite Hi in Hn. discriminate.
    + intros ->. reflexivity.
  - intros img. apply findImage_Some.
  - intros img. apply findImage_Some.
Qed.

Lemma image_selection_never_dangles_witness :
  let state := reduceImage (AddImages [Slice.mkImage "img_1" "a.png" "u" "t"])
                 Slice.initialImages in
  (Slice.selectSelectedImage state = None <-> Slice.images state = []) /\
  (Slice.selectPreviewImage state = None <-> Slice.previewImageId state = None) /\
  (forall img,
     Slice.selectSelectedImage state = Some img ->
     In img (Slice.images state) /\ Slice.selectedImageId state = Some (Slice.id img)) /\
  (forall img,
     Slice.selectPreviewImage state = Some img ->
     In img (Slice.images state) /\ Slice.previewImageId state = Some (Slice.id img)).
Proof.
  intros state.
  apply (image_selection_never_dangles state).
  apply reach_step; [apply reach_initial|exact I].
Defined.

(** X18.  [removeImage] erases every trace of the id: afterwards no listed
    image has it, it is neither selected nor previewed, neither selector
    returns an image with it, and the images with another id are kept in
    their order. *)
Theorem removeImage_erases (imageId : String.string) (state : Slice.ImageState) :
  let state' := Slice.removeImage imageId state in
  (forall img, In img (Slice.images state') <->
               In img (Slice.images state) /\ Slice.id img <> imageId) /\
  Slice.images state' =
    filter (fun img => negb (String.eqb (Slice.id img) imageId)) (Slice.images state) /\
  Slice.selectedImageId state' <> Some imageId /\
  Slice.previewImageId state' <> Some imageId /\
  (forall img, Slice.selectSelectedImage state' = Some img -> Slice.id img <> imageId) /\
  (forall img, Slice.selectPreviewImage state' = Some img -> Slice.id img <> imageId).
Proof.
  intros state'.
  assert (Hin : forall img, In img (Slice.images state') <->
                  In img (Slice.images state) /\ Slice.id img <> imageId).
  { intros img. unfold state', Slice.removeImage. cbn [Slice.images].
    rewrite filter_In, negb_true_iff. split; intros [H1 H2]; (split; [assumption|]).
    - intros E. rewrite E, String.eqb_refl in H2. discriminate.
    - now apply String.eqb_neq. }
  split; [exact Hin|]. split; [reflexivity|].
  assert (Hsel : forall img, Slice.findImage (Slice.selectedImageId state')
                               (Slice.images state') = Some img ->
                             Slice.id img <> imageId).
  { intros img H. apply findImage_Some in H. now apply Hin. }
  assert (Hprev : forall img, Slice.findImage (Slice.previewImageId state')
                               (Slice.images state') = Some img ->
                             Slice.id img <> imageId).
  { intros img H. apply findImage_Some in H. now apply Hin. }
  split; [|split; [|split; [exact Hsel|exact Hprev]]].
  - unfold state', Slice.removeImage. cbn [Slice.selectedImageId].
    destruct (Slice.selectedImageId state) as [s|]; cbn [Slice.sameId]; [|discriminate].
    destruct (String.eqb s imageId) eqn:E.
    + destruct (filter _ (Slice.images state)) as [|first rest] eqn:El; [discriminate|].
      intros H. injection H as H.
      assert (Hf : In first (first :: rest)) by now left.
      rewrite <- El in Hf. apply filter_In in Hf. destruct Hf as [_ Hf].
      rewrite H, String.eqb_refl in Hf. discriminate.
    + intros H. injection H as ->. rewrite String.eqb_refl in E. discriminate.
  - unfold state', Slice.removeImage. cbn [Slice.previewImageId].
    destruct (Slice.previewImageId state) as [s|]; cbn [Slice.sameId]; [|discriminate].
    destruct (String.eqb s imageId) eqn:E; [discriminate|].
    intros H. injection H as ->. rewrite String.eqb_refl in E. discriminate.
Qed.

(* ================================================================== *)
(** ** The export status and the difficulty *)
(* ================================================================== *)

Lemma exportInv_fold (acts : list ExportAction) :
  forall state,
  (Slice.exportError state <> None -> Slice.exportStatus state = "error"%string) ->
  let state' := fold_left reduceExport acts state in
  Slice.exportError state' <> None -> Slice.exportStatus state' = "error"%string.
Proof.
  induction acts as [|act acts IH]; intros state H; cbn [fold_left]; [exact H|].
  apply IH. destruct act as [status|message]; cbn [reduceExport].
  - unfold Slice.setExportStatus. cbn [Slice.exportError Slice.exportStatus].
    destruct (String.eqb status "error") eqn:E; cbn [negb].
    + intros _. now apply String.eqb_eq.
    + intros C. now contradiction C.
  - intros _. reflexivity.
Qed.

(** X19.  Whatever export actions are dispatched from the initial state, an
    export error is stored only while the status is ['error']; setting any
    other status clears the error, and [setExportError] stores the message
    with the status ['error']. *)
Theorem export_error_only_in_error_status
    (acts : list ExportAction) (status message : String.string) :
  let state := fold_left reduceExport acts Slice.initialExport in
  (Slice.exportError state <> None -> Slice.exportStatus state = "error"%string) /\
  (status <> "error"%string ->
   Slice.exportError (Slice.setExportStatus status state) = None) /\
  Slice.setExportStatus "error" (Slice.setExportError message state) =
    Slice.mkExportState "error" (Some message).
Proof.
  intros state. split; [|split].
  - apply (exportInv_fold acts Slice.initialExport). intros C. now contradiction C.
  - intros Hs. unfold Slice.setExportStatus. cbn [Slice.exportError].
    apply String.eqb_neq in Hs. now rewrite Hs.
  - reflexivity.
Qed.

Lemma difficultyInv_fold (acts : list DifficultyAction) :
  forall state,
  (Slice.difficultyMode state = "easy"%string -> Slice.snapDistance state = 20) ->
  (Slice.difficultyMode state = "hard"%string ->
   Slice.snapDistance state = Slice.hardSnapDistance state) ->
  let state' := fold_left reduceDifficulty acts state in
  (Slice.difficultyMode state' = "easy"%string -> Slice.snapDistance state' = 20) /\
  (Slice.difficultyMode state' = "hard"%string ->
   Slice.snapDistance state' = Slice.hardSnapDistance state').
Proof.
  induction acts as [|act acts IH]; intros state He Hh; cbn [fold_left];
    [split; assumption|].
  apply IH; destruct act as [mode|distance]; cbn [reduceDifficulty];
    unfold Slice.setDifficultyMode, Slice.setSnapDistance;
    cbn [Slice.difficultyMode Slice.snapDistance Slice.hardSnapDistance].
  - intros ->. reflexivity.
  - intros E. rewrite E in He |- *. cbn. now apply He.
  - intros ->. reflexivity.
  - intros E. rewrite E. reflexivity.
Qed.

Lemma difficultyPos_fold (acts : list DifficultyAction) :
  Forall sliderPositive acts ->
  forall state,
  0 < Slice.snapDistance state -> 0 < Slice.hardSnapDistance state ->
  let state' := fold_left reduceDifficulty acts state in
  0 < Slice.snapDistance state' /\ 0 < Slice.hardSnapDistance state'.
Proof.
  induction 1 as [|act acts Hact Hall IH]; intros state Hs Hh; cbn [fold_left];
    [split; assumption|].
  apply IH; destruct act as [mode|distance]; cbn [reduceDifficulty sliderPositive] in *;
    unfold Slice.setDifficultyMode, Slice.setSnapDistance;
    cbn [Slice.difficultyMode Slice.snapDistance Slice.hardSnapDistance].
  - destruct (String.eqb mode "easy"); [lra|assumption].
  - destruct (String.eqb (Slice.difficultyMode state) "hard"); assumption.
  - assumption.
  - assumption.
Qed.

(** X20.  Whatever difficulty modes are chosen and positive slider values
    set from the initial state, the snap distance is [20] in the mode
    ['easy'] and the stored [hardSnapDistance] in the mode ['hard'], and it
    is positive.  [setSnapDistance] stores the slider value as
    [hardSnapDistance]; in the easy mode it leaves the snap distance at
    [20], and the value takes effect when the mode becomes ['hard']. *)
Theorem snapDistance_follows_difficulty (acts : list DifficultyAction) (d : R) :
  Forall sliderPositive acts ->
  let state := fold_left reduceDifficulty acts Slice.initialDifficulty in
  (Slice.difficultyMode state = "easy"%string -> Slice.snapDistance state = 20) /\
  (Slice.difficultyMode state = "hard"%string ->
   Slice.snapDistance state = Slice.hardSnapDistance state) /\
  0 < Slice.snapDistance state /\
  Slice.hardSnapDistance (Slice.setSnapDistance d state) = d /\
  Slice.snapDistance
    (Slice.setDifficultyMode "hard"
       (Slice.setSnapDistance d (Slice.setDifficultyMode "easy" state))) = d /\
  Slice.snapDistance
    (Slice.setSnapDistance d (Slice.setDifficultyMode "easy" state)) = 20.
Proof.
  intros Hall state.
  destruct (difficultyInv_fold acts Slice.initialDifficulty) as [He Hh];
    [reflexivity|discriminate|].
  destruct (difficultyPos_fold acts Hall Slice.initialDifficulty) as [Hp _];
    [cbn; lra|cbn; lra|].
  split; [exact He|]. split; [exact Hh|]. split; [exact Hp|].
  split; [reflexivity|]. split; reflexivity.
Qed.

Lemma snapDistance_follows_difficulty_witness :
  let acts := [SetDifficultyMode "hard"; SetSnapDistance 12; SetDifficultyMode "easy"] in
  let state := fold_left reduceDifficulty acts Slice.initialDifficulty in
  (Slice.difficultyMode state = "easy"%string -> Slice.snapDistance state = 20) /\
  (Slice.difficultyMode state = "hard"%string ->
   Slice.snapDistance state = Slice.hardSnapDistance state) /\
  0 < Slice.snapDistance state /\
  Slice.hardSnapDistance (Slice.setSnapDistance 7 state) = 7 /\
  Slice.snapDistance
    (Slice.setDifficultyMode "hard"
       (Slice.setSnapDistance 7 (Slice.setDifficultyMode "easy" state))) = 7 /\
  Slice.snapDistance
    (Slice.setSnapDistance 7 (Slice.setDifficultyMode "easy" state)) = 20.
Proof.
  intros acts.
  apply (snapDistance_follows_difficulty acts 7).
  repeat constructor; cbn; lra.
Defined.

(* ================================================================== *)
(** ** The parameter panel *)
(* ================================================================== *)

Lemma gridOffered_cases (params : PuzzleParams) :
  gridOffered params ->
  (gridX params, gridY params) = (2, 2)%Z \/ (gridX params, gridY params) = (3, 3)%Z \/
  (gridX params, gridY params) = (4, 4)%Z \/ (gridX params, gridY params) = (5, 5)%Z \/
  (gridX params, gridY params) = (2, 3)%Z \/ (gridX params, gridY params) = (3, 4)%Z.
Proof.
  intros (opt & Hin & <- & <-). unfold Panel.GRID_OPTIONS in Hin.
  cbn [In] in Hin.
  destruct Hin as [<-|[<-|[<-|[<-|[<-|[<-|[]]]]]]]; cbn; tauto.
Qed.

Lemma panelInv_handle (params : PuzzleParams) (ev : PanelEvent) :
  0 < width params /\ 0 < height params /\ 0 < depth params /\ gridOffered params ->
  let params' := handlePanel params ev in
  0 < width params' /\ 0 < height params' /\ 0 < depth params' /\ gridOffered params'.
Proof.
  intros (Hw & Hh & Hd & Hg). destruct ev as [key numValue|v|v]; cbn [handlePanel].
  - unfold Panel.handleNumberChange. destruct numValue as [|r]; [tauto|].
    destruct (Rltb 0 r) eqn:E; [|tauto].
    apply Rltb_spec in E.
    destruct key; cbn [Panel.setParamNumber width height depth]; tauto.
  - unfold Panel.handleGridChange.
    destruct (find _ Panel.GRID_OPTIONS) as [opt|] eqn:E; [|tauto].
    apply find_some in E. destruct E as [Hin _].
    cbn [Panel.setParamGridY Panel.setParamGridX width height depth gridX gridY].
    split; [assumption|]. split; [assumption|]. split; [assumption|].
    exists opt. cbn [gridX gridY]. tauto.
  - cbn [Panel.handleSplitModeChange Panel.setParamSplitMode width height depth].
    tauto.
Qed.

Lemma panelInv_fold (evs : list PanelEvent) :
  forall params,
  0 < width params /\ 0 < height params /\ 0 < depth params /\ gridOffered params ->
  let params' := fold_left handlePanel evs params in
  0 < width params' /\ 0 < height params' /\ 0 < depth params' /\ gridOffered params'.
Proof.
  induction evs as [|ev evs IH]; intros params H; cbn [fold_left]; [exact H|].
  apply IH. now apply panelInv_handle.
Qed.

(** X21.  Whatever is typed and chosen on the parameter panel, starting from
    the initial parameters, the width, the height and the depth stay
    positive and the grid stays one of the six options, so that
    [2 <= gridX, gridY <= 5]; the option the panel displays is the grid in
    force: choosing it again changes nothing.  A number that is [NaN] or
    not positive, and a grid value that is not an option, are ignored. *)
Theorem panel_keeps_parameters_valid (evs : list PanelEvent) :
  let params := fold_left handlePanel evs initialParams in
  0 < width params /\ 0 < height params /\ 0 < depth params /\
  (2 <= gridX params <= 5)%Z /\ (2 <= gridY params <= 5)%Z /\
  gridOffered params /\
  Panel.handleGridChange (Panel.getCurrentGridValue params) params = params /\
  (forall key v, v <= 0 -> Panel.handleNumberChange key (Panel.Num v) params = params) /\
  (forall key, Panel.handleNumberChange key Panel.NaN params = params) /\
  (forall v, (forall opt, In opt Panel.GRID_OPTIONS -> Panel.value opt <> v) ->
             Panel.handleGridChange v params = params).
Proof.
  intros params.
  destruct (panelInv_fold evs initialParams) as (Hw & Hh & Hd & Hg).
  { unfold initialParams. cbn [width height depth].
    split; [lra|]. split; [lra|]. split; [lra|].
    exists (Panel.mkGridOption "2x2" 2 2). split; [now left|]. split; reflexivity. }
  fold params in Hw, Hh, Hd, Hg.
  pose proof (gridOffered_cases params Hg) as Hc.
  split; [exact Hw|]. split; [exact Hh|]. split; [exact Hd|].
  split; [|split; [|split; [exact Hg|split; [|split; [|split]]]]].
  - destruct Hc as [E|[E|[E|[E|[E|E]]]]]; injection E as -> _; lia.
  - destruct Hc as [E|[E|[E|[E|[E|E]]]]]; injection E as _ ->; lia.
  - clearbody params. destruct params as [w h d gx gy m]. cbn [gridX gridY] in Hc.
    destruct Hc as [E|[E|[E|[E|[E|E]]]]]; injection E as -> ->; reflexivity.
  - intros key v Hv. unfold Panel.handleNumberChange.
    now rewrite Rltb_false.
  - reflexivity.
  - intros v Hv. unfold Panel.handleGridChange.
    destruct (find _ Panel.GRID_OPTIONS) as [opt|] eqn:E; [|reflexivity].
    apply find_some in E. destruct E as [Hin He]. apply String.eqb_eq in He.
    exfalso. now apply (Hv opt).
Qed.

(** X22.  Choosing an option of the grid list sets [gridX] and [gridY] to
    the grid of that option and leaves the other parameters alone, and the
    panel then displays that option. *)
Theorem handleGridChange_round_trip (opt : Panel.GridOption) (params : PuzzleParams) :
  In opt Panel.GRID_OPTIONS ->
  let params' := Panel.handleGridChange (Panel.value opt) params in
  gridX params' = Panel.optionGridX opt /\ gridY params' = Panel.optionGridY opt /\
  width params' = width params /\ height params' = height params /\
  depth params' = depth params /\ splitMode params' = splitMode params /\
  Panel.getCurrentGridValue params' = Panel.value opt.
Proof.
  intros Hin. unfold Panel.GRID_OPTIONS in Hin. cbn [In] in Hin.
  destruct params as [w h d gx gy m].
  destruct Hin as [<-|[<-|[<-|[<-|[<-|[<-|[]]]]]]]; cbn; repeat split; reflexivity.
Qed.

Lemma handleGridChange_round_trip_witness :
  let opt := Panel.mkGridOption "3x4" 3 4 in
  let params' := Panel.handleGridChange (Panel.value opt) initialParams in
  gridX params' = Panel.optionGridX opt /\ gridY params' = Panel.optionGridY opt /\
  width params' = width initialParams /\ height params' = height initialParams /\
  depth params' = depth initialParams /\ splitMode params' = splitMode initialParams /\
  Panel.getCurrentGridValue params' = Panel.value opt.
Proof.
  intros opt.
  apply (handleGridChange_round_trip opt initialParams).
  unfold Panel.GRID_OPTIONS. cbn [In]. tauto.
Defined.

(* ================================================================== *)
(** ** The size of a thumbnail *)
(* ================================================================== *)

(** X23.  For an image of positive width and height and a positive
    [maxSize], the canvas of [createThumbnail] fits the square of side
    [maxSize], has the aspect ratio of the image and is never larger than
    the image: an image that fits already keeps its size, a larger one is
    scaled so that its longer side is [maxSize]. *)
Theorem createThumbnailSize_fits (imgWidth imgHeight maxSize : R) :
  0 < imgWidth -> 0 < imgHeight -> 0 < maxSize ->
  let w := fst (createThumbnailSize imgWidth imgHeight maxSize) in
  let h := snd (createThumbnailSize imgWidth imgHeight maxSize) in
  0 < w <= maxSize /\ 0 < h <= maxSize /\
  w <= imgWidth /\ h <= imgHeight /\
  w * imgHeight = h * imgWidth /\
  (imgWidth <= maxSize -> imgHeight <= maxSize -> w = imgWidth /\ h = imgHeight) /\
  (maxSize < imgWidth \/ maxSize < imgHeight -> Rmax w h = maxSize).
Proof.
  intros Hw Hh Hm w h. unfold w, h, createThumbnailSize. clear w h.
  destruct (Rltb imgHeight imgWidth) eqn:E1;
    destruct (Rltb maxSize imgWidth) eqn:E2; cbn [andb];
    try (destruct (Rltb maxSize imgHeight) eqn:E3); cbn [fst snd].
  all: repeat match goal with
       | H : Rltb _ _ = true |- _ => apply Rltb_spec in H
       | H : Rltb ?a ?b = false |- _ =>
           assert (b <= a)
             by (destruct (Rle_lt_dec b a) as [L|L];
                 [exact L|apply Rltb_true in L; congruence]);
           clear H
       end.
  all: try (assert (Hq : imgHeight * maxSize / imgWidth < maxSize)
              by (apply (Rmult_lt_reg_r imgWidth); [assumption|];
                  unfold Rdiv; rewrite Rmult_assoc, Rinv_l by lra; nra);
            assert (Hq0 : 0 < imgHeight * maxSize / imgWidth)
              by (apply Rdiv_lt_0_compat; nra);
            assert (Hq1 : imgHeight * maxSize / imgWidth <= imgHeight)
              by (apply (Rmult_le_reg_r imgWidth); [assumption|];
                  unfold Rdiv; rewrite Rmult_assoc, Rinv_l by lra; nra)).
  all: try (assert (Hr : imgWidth * maxSize / imgHeight <= maxSize)
              by (apply (Rmult_le_reg_r imgHeight); [assumption|];
                  unfold Rdiv; rewrite Rmult_assoc, Rinv_l by lra; nra);
            assert (Hr0 : 0 < imgWidth * maxSize / imgHeight)
              by (apply Rdiv_lt_0_compat; nra);
            assert (Hr1 : imgWidth * maxSize / imgHeight <= imgWidth)
              by (apply (Rmult_le_reg_r imgHeight); [assumption|];
                  unfold Rdiv; rewrite Rmult_assoc, Rinv_l by lra; nra)).
  all: repeat match goal with |- _ /\ _ => split end;
       try lra; try (field; lra);
       try (intros; lra);
       try (intros _; unfold Rmax; destruct (Rle_dec _ _); lra);
       try (intros [?|?]; unfold Rmax; destruct (Rle_dec _ _); lra).
Qed.

Lemma createThumbnailSize_fits_witness :
  let w := fst (createThumbnailSize 800 600 200) in
  let h := snd (createThumbnailSize 800 600 200) in
  0 < w <= 200 /\ 0 < h <= 200 /\
  w <= 800 /\ h <= 600 /\
  w * 600 = h * 800 /\
  (800 <= 200 -> 600 <= 200 -> w = 800 /\ h = 600) /\
  (200 < 800 \/ 200 < 600 -> Rmax w h = 200).
Proof.
  apply (createThumbnailSize_fits 800 600 200); lra.
Defined.

(* ================================================================== *)
(** ** The mesh data of the 3MF export *)
(* ================================================================== *)

Lemma extractMeshData_triangles (positionAttr : list Vector3) (position : Vector3) :
  snd (extractMeshData positionAttr position) =
  map (fun k => mkTriangle (3 * k) (3 * k + 1) (3 * k + 2))
    (zrange 0 (Z.to_nat ((Z.of_nat (length positionAttr) + 2) / 3))).
Proof.
  unfold extractMeshData, for_lt. cbn [snd]. rewrite Z.sub_0_r.
  exact (for_iter_push (fun k => mkTriangle (3 * k) (3 * k + 1) (3 * k + 2)) _ 0 []).
Qed.

(** X24.  [extractMeshData] returns one vertex for each point of the
    position attribute, moved by [position], and one triangle for every
    three points started: triangle [k] names the vertices [3 k], [3 k + 1]
    and [3 k + 2].  When the number of points is a multiple of three every
    triangle names existing vertices and vertex [i] is corner [i mod 3] of
    triangle [i / 3]; otherwise the last triangle names a vertex that does
    not exist. *)
Theorem extractMeshData_mesh (positionAttr : list Vector3) (position : Vector3) :
  let count := Z.of_nat (length positionAttr) in
  let vertices := fst (extractMeshData positionAttr position) in
  let triangles := snd (extractMeshData positionAttr position) in
  vertices = map (translate3 position) positionAttr /\
  Z.of_nat (length triangles) = ((count + 2) / 3)%Z /\
  (forall k, (0 <= k)%Z -> (3 * k < count)%Z ->
     js_get triangles k = Some (mkTriangle (3 * k) (3 * k + 1) (3 * k + 2))) /\
  ((count mod 3 = 0)%Z ->
     (forall t, In t triangles -> (0 <= v1 t /\ v1 t < v2 t /\ v2 t < v3 t /\ v3 t < count)%Z) /\
     (forall i, (0 <= i < count)%Z ->
        exists t, js_get triangles (i / 3) = Some t /\
          ((i mod 3 = 0)%Z /\ v1 t = i \/ (i mod 3 = 1)%Z /\ v2 t = i \/
           (i mod 3 = 2)%Z /\ v3 t = i))) /\
  ((count mod 3 <> 0)%Z ->
     exists t, In t triangles /\ (v1 t < count <= v3 t)%Z).
Proof.
  intros count vertices triangles.
  assert (Hc : (0 <= count)%Z) by (unfold count; lia).
  assert (Hn : (0 <= (count + 2) / 3)%Z) by (apply Z.div_pos; lia).
  assert (Ht : triangles =
            map (fun k => mkTriangle (3 * k) (3 * k + 1) (3 * k + 2))
              (zrange 0 (Z.to_nat ((count + 2) / 3))))
    by apply extractMeshData_triangles.
  assert (Hget : forall k, (0 <= k < (count + 2) / 3)%Z ->
            js_get triangles k = Some (mkTriangle (3 * k) (3 * k + 1) (3 * k + 2))).
  { intros k Hk. rewrite Ht. unfold js_get.
    destruct (Z.ltb_spec k 0); [lia|].
    rewrite nth_error_map, zrange_nth_error by lia.
    cbn [option_map]. rewrite Z2Nat.id by lia. reflexivity. }
  assert (Hin : forall t, In t triangles ->
            exists k, (0 <= k < (count + 2) / 3)%Z /\
                      t = mkTriangle (3 * k) (3 * k + 1) (3 * k + 2)).
  { intros t Hi. rewrite Ht in Hi. apply in_map_iff in Hi.
    destruct Hi as (k & <- & Hk). apply zrange_In in Hk.
    exists k. split; [lia|reflexivity]. }
  split; [|split; [|split; [|split]]].
  - unfold vertices, extractMeshData. cbn [fst].
    apply (for_lt_elements (translate3 position)).
  - rewrite Ht, length_map, zrange_length. lia.
  - intros k Hk0 Hk. apply Hget. split; [assumption|].
    pose proof (Z.div_mod (count + 2) 3 ltac:(lia)) as Hdm.
    pose proof (Z.mod_pos_bound (count + 2) 3 ltac:(lia)) as Hmb. lia.
  - intros Hm.
    assert (Hdiv : (count = 3 * (count / 3))%Z)
      by (pose proof (Z.div_mod count 3 ltac:(lia)); lia).
    assert (Hq : ((count + 2) / 3 = count / 3)%Z).
    { symmetry. apply Z.div_unique with (r := 2%Z); lia. }
    split.
    + intros t Hi. destruct (Hin t Hi) as (k & Hk & ->). cbn [v1 v2 v3]. lia.
    + intros i Hi.
      pose proof (Z.div_mod i 3 ltac:(lia)) as Hdm.
      pose proof (Z.mod_pos_bound i 3 ltac:(lia)) as Hmb.
      assert (Hk : (0 <= i / 3 < (count + 2) / 3)%Z).
      { rewrite Hq. split; [apply Z.div_pos; lia|].
        apply Z.div_lt_upper_bound; lia. }
      eexists. split; [apply Hget; exact Hk|]. cbn [v1 v2 v3]. lia.
  - intros Hm.
    pose proof (Z.div_mod count 3 ltac:(lia)) as Hdm.
    pose proof (Z.mod_pos_bound count 3 ltac:(lia)) as Hmb.
    assert (Hq : ((count + 2) / 3 = count / 3 + 1)%Z).
    { symmetry. apply Z.div_unique with (r := (count mod 3 - 1)%Z); lia. }
    assert (Hd0 : (0 <= count / 3)%Z) by (apply Z.div_pos; lia).
    exists (mkTriangle (3 * (count / 3)) (3 * (count / 3) + 1) (3 * (count / 3) + 2)).
    split.
    + apply js_get_In with (k := (count / 3)%Z). apply Hget. lia.
    + cbn [v1 v3]. lia.
Qed.

(* ================================================================== *)
(** ** The shared boundaries in binary64 *)
(* ================================================================== *)

(** The straight and the zigzag offset never call [Math.sin]: whatever
    stands for it, the offset and the generated edges are the same. *)
Lemma binary64_splitOffset_without_sin
    (sin1 sin2 : PrimFloat.float -> PrimFloat.float)
    (t : PrimFloat.float) (mode : SplitMode) (amplitude : PrimFloat.float) :
  mode <> wave ->
  Binary64.splitOffset sin1 t mode amplitude = Binary64.splitOffset sin2 t mode amplitude.
Proof. destruct mode; [reflexivity|contradiction|reflexivity]. Qed.

Lemma binary64_edges_without_sin
    (sin1 sin2 : PrimFloat.float -> PrimFloat.float)
    (col row : Z) (params : Binary64.PuzzleParams) :
  Binary64.splitMode params <> wave ->
  Binary64.bottomEdge sin1 col row params = Binary64.bottomEdge sin2 col row params /\
  Binary64.rightEdge sin1 col row params = Binary64.rightEdge sin2 col row params /\
  Binary64.topEdge sin1 col row params = Binary64.topEdge sin2 col row params /\
  Binary64.leftEdge sin1 col row params = Binary64.leftEdge sin2 col row params.
Proof.
  intros Hm.
  unfold Binary64.bottomEdge, Binary64.rightEdge, Binary64.topEdge, Binary64.leftEdge,
    Binary64.generateHorizontalEdge, Binary64.generateVerticalEdge, for_lt.
  repeat split; apply for_iter_ext; intros i pts; cbv zeta;
    now rewrite (binary64_splitOffset_without_sin sin1 sin2).
Qed.


(** C7, in binary64.  At [t = 1/30] and amplitude [4] the zigzag offset is
    [0.1333333333333333], but at [1 - t] it is [0.13333333333333286]: the
    offset is not even under [t |-> 1 - t], and it is not at 11 of the 31
    samples [i/30].  With [splitMode = 'zigzag'] and the default size and
    grid, the second points generated for pieces (1, 0) and (0, 0) along
    their common boundary differ in both coordinates; for the six grids of
    the panel at the default size, the shared samples that differ are 88 of
    124, 222 of 372, 360 of 744, 512 of 1240, 126 of 217 and 256 of 527,
    none by more than [2^-47]. *)
Lemma zigzag_parity_binary64_counterexample :
  let t := PrimFloat.div (Binary64.ofZ 1) (Binary64.ofZ 30) in
  let params := Binary64.mkParams 100 100 2 2 zigzag in
  let before := rev (Binary64.rightEdge Binary64.notCalled 0 0 params) in
  let after := Binary64.leftEdge Binary64.notCalled 1 0 params in
  (PrimFloat.leb 0 t = true /\ PrimFloat.leb t 1 = true) /\
  Binary64.splitOffset Binary64.notCalled (PrimFloat.sub 1 t) zigzag 4 =
    0.13333333333333286%float /\
  Binary64.splitOffset Binary64.notCalled t zigzag 4 = 0.1333333333333333%float /\
  PrimFloat.eqb 0.13333333333333286 0.1333333333333333 = false /\
  length
    (filter
       (fun i =>
          let u := PrimFloat.div (Binary64.ofZ i) (Binary64.ofZ 30) in
          negb (PrimFloat.eqb
                  (Binary64.splitOffset Binary64.notCalled (PrimFloat.sub 1 u) zigzag 4)
                  (Binary64.splitOffset Binary64.notCalled u zigzag 4)))
       (zrange 0 31)) = 11%nat /\
  Binary64.amplitudeOf params = 4%float /\
  nth_error before 1 =
    Some (Binary64.mkVector2 0.13333333333333286 (-1.6666666666666643)) /\
  nth_error after 1 =
    Some (Binary64.mkVector2 0.1333333333333333 (-1.6666666666666667)) /\
  before <> after /\
  map (fun opt =>
         let pairs :=
           Binary64.sharedSamples Binary64.notCalled
             (Binary64.mkParams 100 100 (Panel.optionGridX opt) (Panel.optionGridY opt)
                zigzag) in
         (length pairs, Binary64.mismatches pairs, Binary64.largestGap pairs))
      Panel.GRID_OPTIONS =
    [ (124%nat, 88%nat, 7.105427357601002e-15%float);
      (372%nat, 222%nat, 7.105427357601002e-15%float);
      (744%nat, 360%nat, 7.105427357601002e-15%float);
      (1240%nat, 512%nat, 7.105427357601002e-15%float);
      (217%nat, 126%nat, 7.105427357601002e-15%float);
      (527%nat, 256%nat, 7.105427357601002e-15%float) ].
Proof.
  intros t params before after.
  assert (Hb : nth_error before 1 =
               Some (Binary64.mkVector2 0.13333333333333286 (-1.6666666666666643)))
    by (vm_compute; reflexivity).
  assert (Ha : nth_error after 1 =
               Some (Binary64.mkVector2 0.1333333333333333 (-1.6666666666666667)))
    by (vm_compute; reflexivity).
  split; [split; vm_compute; reflexivity|].
  split; [vm_compute; reflexivity|]. split; [vm_compute; reflexivity|].
  split; [vm_compute; reflexivity|]. split; [vm_compute; reflexivity|].
  split; [vm_compute; reflexivity|].
  split; [exact Hb|]. split; [exact Ha|].
  split.
  - intros E. rewrite E, Ha in Hb.
    apply (f_equal (fun o => match o with
                             | Some p => PrimFloat.eqb (Binary64.vy p) (-1.6666666666666643)
                             | None => false
                             end)) in Hb.
    vm_compute in Hb. discriminate.
  - vm_compute. reflexivity.
Qed.
